(** * libstempo.toasim: gravitational-wave signal injection

    A shallow embedding of [computeORFMatrix], [add_cgw] and
    [createGWB_clean] of [libstempo/toasim.py], and the properties of
    them that the specification states.

    Numbers.  The program computes on numpy [float64] scalars and
    arrays.  They are embedded as [npfloat]: a finite value carries an
    exact real number (rounding and overflow of finite results are
    abstracted away), and the three non-finite values of IEEE-754 are
    kept, with numpy's rules at the singular points ([x/0], [log 0],
    [0*inf], [inf-inf], a negative base under a fractional power): numpy
    returns [inf] or [nan] there and raises nothing.  The zero of the
    embedding is unsigned; it behaves as IEEE's [+0].

    Since rounding can turn a small number into 0 and move a quotient
    across a whole number, the properties below speak of the values the
    program computes (its [xip], its scalar products, the outcome of its
    comparisons) wherever the outcome depends on them, and leave the
    number of frequency bins free by one.

    Python numbers.  The scalar arguments of [add_cgw] and
    [createGWB_clean] are Python numbers, and Python raises
    [ZeroDivisionError] where numpy returns [inf] or [nan] (a division
    by zero, zero under a negative power) and leaves the real numbers
    for a negative base under a fractional power.  The embedding
    computes on them with the numpy rules; it follows the program for
    [mc > 0], [dist <> 0], [fgw > 0] in [add_cgw] and for a non-zero
    [power] in [createGWB_clean], and no property below asserts that a
    call returns outside of these. *)

From Stdlib Require Import String Reals R_Ifp Lra Lia ZArith Bool Psatz List.
From Stdlib Require Import Permutation Sorted.
Import ListNotations.

Set Implicit Arguments.

Local Open Scope R_scope.

(** ** numpy float64 values *)

Inductive npfloat : Type :=
| Fin (x : R)
| PInf
| NInf
| NaN.

Declare Scope np_scope.
Delimit Scope np_scope with np.
Bind Scope np_scope with npfloat.

Definition is_finite (a : npfloat) : bool :=
  match a with Fin _ => true | _ => false end.

Definition is_nan (a : npfloat) : bool :=
  match a with NaN => true | _ => false end.

(** The sign of a real number, as a three-way decision. *)
Definition Rsign (x : R) : comparison :=
  match total_order_T x 0 with
  | inleft (left _) => Lt
  | inleft (right _) => Eq
  | inright _ => Gt
  end.

Definition np_opp (a : npfloat) : npfloat :=
  match a with
  | Fin x => Fin (- x)
  | PInf => NInf
  | NInf => PInf
  | NaN => NaN
  end.

Definition np_add (a b : npfloat) : npfloat :=
  match a, b with
  | NaN, _ | _, NaN => NaN
  | Fin x, Fin y => Fin (x + y)
  | PInf, NInf | NInf, PInf => NaN
  | PInf, _ | _, PInf => PInf
  | NInf, _ | _, NInf => NInf
  end.

Definition np_sub (a b : npfloat) : npfloat := np_add a (np_opp b).

(** An infinity of sign [pos] scaled by a finite factor [x]. *)
Definition inf_scaled (pos : bool) (x : R) : npfloat :=
  match Rsign x with
  | Gt => if pos then PInf else NInf
  | Lt => if pos then NInf else PInf
  | Eq => NaN
  end.

Definition np_mul (a b : npfloat) : npfloat :=
  match a, b with
  | NaN, _ | _, NaN => NaN
  | Fin x, Fin y => Fin (x * y)
  | PInf, Fin y => inf_scaled true y
  | NInf, Fin y => inf_scaled false y
  | Fin x, PInf => inf_scaled true x
  | Fin x, NInf => inf_scaled false x
  | PInf, PInf | NInf, NInf => PInf
  | PInf, NInf | NInf, PInf => NInf
  end.

(** Division.  A finite non-zero value over zero is an infinity, zero
    over zero is [nan]; numpy warns and goes on. *)
Definition np_div (a b : npfloat) : npfloat :=
  match a, b with
  | NaN, _ | _, NaN => NaN
  | Fin x, Fin y =>
      match Rsign y with
      | Eq => match Rsign x with Gt => PInf | Lt => NInf | Eq => NaN end
      | _ => Fin (x / y)
      end
  | Fin _, (PInf | NInf) => Fin 0
  | (PInf | NInf), (PInf | NInf) => NaN
  | PInf, Fin y => match Rsign y with Lt => NInf | _ => PInf end
  | NInf, Fin y => match Rsign y with Lt => PInf | _ => NInf end
  end.

Definition np_ltb (a b : npfloat) : bool :=
  match a, b with
  | NaN, _ | _, NaN => false
  | Fin x, Fin y => if Rlt_dec x y then true else false
  | NInf, (Fin _ | PInf) => true
  | Fin _, PInf => true
  | _, _ => false
  end.

Definition np_sin (a : npfloat) : npfloat :=
  match a with Fin x => Fin (sin x) | _ => NaN end.

Definition np_cos (a : npfloat) : npfloat :=
  match a with Fin x => Fin (cos x) | _ => NaN end.

(** [N.log]: minus infinity at zero, [nan] below it. *)
Definition np_log (a : npfloat) : npfloat :=
  match a with
  | Fin x => match Rsign x with Gt => Fin (ln x) | Eq => NInf | Lt => NaN end
  | PInf => PInf
  | NInf | NaN => NaN
  end.

(** Whether a real exponent is an integer, and then whether it is odd. *)
Definition is_integer (y : R) : bool :=
  if Req_dec_T (frac_part y) 0 then true else false.

Definition is_odd_integer (y : R) : bool :=
  is_integer y && Z.odd (Int_part y).

(** The operator [**] on floats (C's [pow]).  Only the finite exponents
    occur in the program; the cases of an infinite exponent follow C99. *)
Definition np_pow (a b : npfloat) : npfloat :=
  match a, b with
  | _, Fin y =>
      match Rsign y with
      | Eq => Fin 1
      | sy =>
          match a with
          | NaN => NaN
          | Fin x =>
              match Rsign x with
              | Gt => Fin (Rpower x y)
              | Eq => match sy with Gt => Fin 0 | _ => PInf end
              | Lt =>
                  if is_integer y
                  then Fin (if is_odd_integer y then - Rpower (- x) y else Rpower (- x) y)
                  else NaN
              end
          | PInf => match sy with Gt => PInf | _ => Fin 0 end
          | NInf =>
              match sy with
              | Gt => if is_odd_integer y then NInf else PInf
              | _ => Fin 0
              end
          end
      end
  | NaN, _ | _, NaN => NaN
  | Fin x, PInf =>
      match Rsign (Rabs x - 1) with Gt => PInf | Eq => Fin 1 | Lt => Fin 0 end
  | Fin x, NInf =>
      match Rsign (Rabs x - 1) with Gt => Fin 0 | Eq => Fin 1 | Lt => PInf end
  | (PInf | NInf), PInf => PInf
  | (PInf | NInf), NInf => Fin 0
  end.

Notation "a + b" := (np_add a b) : np_scope.
Notation "a - b" := (np_sub a b) : np_scope.
Notation "a * b" := (np_mul a b) : np_scope.
Notation "a / b" := (np_div a b) : np_scope.
Notation "- a" := (np_opp a) : np_scope.
Notation "a ** b" := (np_pow a b) (at level 30, right associativity) : np_scope.
Notation "a <? b" := (np_ltb a b) : np_scope.

(** [N.pi], and a literal of the program text. *)
Definition np_pi : npfloat := Fin PI.
Coercion Fin : R >-> npfloat.

Local Open Scope np_scope.

(** ** Arrays and exceptions *)

(** Python exceptions the modelled code can raise. *)
Inductive exn : Type :=
| ValueError
| IndexError
| LinAlgError.

Inductive result (A : Type) : Type :=
| Ok (a : A)
| Raise (e : exn).

Arguments Ok {A} a.
Arguments Raise {A} e.

Definition bind {A B : Type} (r : result A) (k : A -> result B) : result B :=
  match r with
  | Ok a => k a
  | Raise e => Raise e
  end.

Notation "x <- r ;; k" := (bind r (fun x => k))
  (at level 61, r at next level, right associativity).
Notation "' p <- r ;; k" := (bind r (fun x => let 'p := x in k))
  (at level 61, p pattern, r at next level, right associativity).

(** One-dimensional arrays are lists, matrices are lists of rows. *)
Definition array := list npfloat.
Definition matrix := list (list npfloat).

(** [a[i] = v] for an index in range. *)
Fixpoint list_set {A : Type} (i : nat) (v : A) (l : list A) : list A :=
  match l, i with
  | [], _ => []
  | _ :: t, O => v :: t
  | h :: t, S i' => h :: list_set i' v t
  end.

(** [a[i]], for an index in range; [NaN] stands for no value. *)
Definition get (a : array) (i : nat) : npfloat := nth i a NaN.

Definition mat_get (M : matrix) (i j : nat) : npfloat := get (nth i M []) j.

(** [M[i, j] = v]. *)
Definition mat_set (i j : nat) (v : npfloat) (M : matrix) : matrix :=
  list_set i (list_set j v (nth i M [])) M.

Definition N_zeros (n : nat) : array := repeat (Fin 0) n.
Definition N_zeros2 (r c : nat) : matrix := repeat (N_zeros c) r.

(** Element-wise product of two arrays of one shape. *)
Fixpoint arr_mul (a b : array) : array :=
  match a, b with
  | x :: a', y :: b' => (x * y) :: arr_mul a' b'
  | _, _ => []
  end.

(** [N.sum]: accumulation from zero, in index order. *)
Definition N_sum (a : array) : npfloat := fold_left np_add a (Fin 0).

(** [N.dot] of two vectors. *)
Definition N_dot (a b : array) : npfloat := N_sum (arr_mul a b).

(** ** Pulsars *)

(** What the program reads from a [tempopulsar] object: the parameters
    [RAJ] and [DECJ] (radians), the epochs [toas()] (days) and the
    site arrival times [stoas], which the injectors update in place. *)
Record pulsar : Type := mkPulsar {
  name : string;
  RAJ : npfloat;
  DECJ : npfloat;
  toas : array;
  stoas : array
}.

(** ** computeORFMatrix *)

(** The three assignments that fill a direction buffer. *)
Definition fill_phat (buf : array) (pphi ptheta : npfloat) : array :=
  let buf := list_set 0 (np_cos pphi * np_sin ptheta) buf in
  let buf := list_set 1 (np_sin pphi * np_sin ptheta) buf in
  list_set 2 (np_cos ptheta) buf.

(** The value stored for a pair [ll != kk]. *)
Definition orf_value (phati phatj : array) : npfloat :=
  let xip := (Fin 1 - N_sum (arr_mul phati phatj)) / Fin 2 in
  Fin 3 * (Fin 1 / Fin 3 + xip * (np_log xip - Fin 1 / Fin 6)).

(** Body of the loop over [kk]; the state is [ORF] and the buffer [phatj]. *)
Definition orf_inner (pphi ptheta phati : array) (ll : nat)
    (st : matrix * array) (kk : nat) : matrix * array :=
  let '(ORF, phatj) := st in
  let phatj := fill_phat phatj (get pphi kk) (get ptheta kk) in
  if negb (Nat.eqb ll kk)
  then (mat_set ll kk (orf_value phati phatj) ORF, phatj)
  else (mat_set ll kk (Fin 2) ORF, phatj).

(** Body of the loop over [ll]; the state is [ORF], [phati] and [phatj]. *)
Definition orf_outer (npsr : nat) (pphi ptheta : array)
    (st : matrix * array * array) (ll : nat) : matrix * array * array :=
  let '(ORF, phati, phatj) := st in
  let phati := fill_phat phati (get pphi ll) (get ptheta ll) in
  let '(ORF, phatj) :=
    fold_left (orf_inner pphi ptheta phati ll) (seq 0 npsr) (ORF, phatj) in
  (ORF, phati, phatj).

Definition computeORFMatrix (psr : list pulsar) : matrix :=
  let npsr := length psr in
  let ORF := N_zeros2 npsr npsr in
  let phati := N_zeros 3 in
  let phatj := N_zeros 3 in
  let ptheta := map (fun p => np_pi / Fin 2 - DECJ p) psr in
  let pphi := map (fun p => RAJ p) psr in
  let '(ORF, _, _) :=
    fold_left (orf_outer npsr pphi ptheta) (seq 0 npsr) (ORF, phati, phatj) in
  ORF.

(** ** add_cgw *)

(** Element-wise sum of two arrays of one shape. *)
Fixpoint arr_add (a b : array) : array :=
  match a, b with
  | x :: a', y :: b' => (x + y) :: arr_add a' b'
  | _, _ => []
  end.

(** [a[:] += b]: [b] has the shape of [a], or one element that is
    broadcast; any other shape raises. *)
Definition iadd (a b : array) : result array :=
  if Nat.eqb (length b) (length a) then Ok (arr_add a b)
  else match b with
       | [y] => Ok (map (fun x => x + y) a)
       | _ => Raise ValueError
       end.

(** Lines 304-329: the polarisation basis [m], [n], the propagation
    direction [omhat], the pulsar direction [phat], and from them
    [(fplus, fcross, cosMu)]. *)
Definition cgw_m (gwphi : npfloat) : array :=
  [- np_sin gwphi; np_cos gwphi; Fin 0].

Definition cgw_n (gwtheta gwphi : npfloat) : array :=
  [- np_cos gwtheta * np_cos gwphi; - np_cos gwtheta * np_sin gwphi; np_sin gwtheta].

Definition cgw_omhat (gwtheta gwphi : npfloat) : array :=
  [- np_sin gwtheta * np_cos gwphi; - np_sin gwtheta * np_sin gwphi; - np_cos gwtheta].

Definition cgw_phat (psr : pulsar) : array :=
  let ptheta := np_pi / Fin 2 - DECJ psr in
  let pphi := RAJ psr in
  [np_sin ptheta * np_cos pphi; np_sin ptheta * np_sin pphi; np_cos ptheta].

Definition cgw_antenna (psr : pulsar) (gwtheta gwphi : npfloat)
    : npfloat * npfloat * npfloat :=
  let m := cgw_m gwphi in
  let n := cgw_n gwtheta gwphi in
  let omhat := cgw_omhat gwtheta gwphi in
  let phat := cgw_phat psr in
  let fplus :=
    Fin 0.5 * (N_dot m phat ** Fin 2 - N_dot n phat ** Fin 2)
    / (Fin 1 + N_dot omhat phat) in
  let fcross := (N_dot m phat * N_dot n phat) / (Fin 1 + N_dot omhat phat) in
  let cosMu := - N_dot omhat phat in
  (fplus, fcross, cosMu).

(** Lines 346-377, at one epoch: [(omega, omega_p, phase, phase_p)] from
    the observer time [toas] and the pulsar time [tp]. *)
Definition cgw_evolution (evolve phase_approx : bool)
    (w0 w053 fac1 fac2 phase0 pd cosMu toas tp : npfloat)
    : npfloat * npfloat * npfloat * npfloat :=
  if evolve then
    let omega := w0 * (Fin 1 - fac1 * toas) ** Fin (-3 / 8) in
    let omega_p := w0 * (Fin 1 - fac1 * tp) ** Fin (-3 / 8) in
    let phase := phase0 + fac2 * (w053 - omega ** Fin (-5 / 3)) in
    let phase_p := phase0 + fac2 * (w053 - omega_p ** Fin (-5 / 3)) in
    (omega, omega_p, phase, phase_p)
  else if phase_approx then
    let omega := w0 in
    let omega_p := w0 * (Fin 1 + fac1 * pd * (Fin 1 - cosMu)) ** Fin (-3 / 8) in
    let phase := phase0 + omega * toas in
    let phase_p := phase0 + fac2 * (w053 - omega_p ** Fin (-5 / 3)) + omega_p * toas in
    (omega, omega_p, phase, phase_p)
  else
    let omega := w0 in
    let omega_p := omega in
    let phase := phase0 + omega * toas in
    let phase_p := phase0 + omega * tp in
    (omega, omega_p, phase, phase_p).

(** Lines 380-394, at one epoch: [(rplus, rcross, rplus_p, rcross_p)]. *)
Definition cgw_waveforms (fac3 psi inc omega omega_p phase phase_p : npfloat)
    : npfloat * npfloat * npfloat * npfloat :=
  let sin2psi := np_sin (Fin 2 * psi) in
  let cos2psi := np_cos (Fin 2 * psi) in
  let incfac1 := Fin (-0.5) * (Fin 3 + np_cos (Fin 2 * inc)) in
  let incfac2 := Fin 2 * np_cos inc in
  let At := np_sin (Fin 2 * phase) * incfac1 in
  let Bt := np_cos (Fin 2 * phase) * incfac2 in
  let At_p := np_sin (Fin 2 * phase_p) * incfac1 in
  let Bt_p := np_cos (Fin 2 * phase_p) * incfac2 in
  let alpha := fac3 / omega ** Fin (1 / 3) in
  let alpha_p := fac3 / omega_p ** Fin (1 / 3) in
  let rplus := alpha * (At * cos2psi - Bt * sin2psi) in
  let rcross := alpha * (At * sin2psi + Bt * cos2psi) in
  let rplus_p := alpha_p * (At_p * cos2psi - Bt_p * sin2psi) in
  let rcross_p := alpha_p * (At_p * sin2psi + Bt_p * cos2psi) in
  (rplus, rcross, rplus_p, rcross_p).

(** Lines 396-400: the residual from the antenna factors and waveforms. *)
Definition cgw_combine (psrTerm : bool) (fplus fcross : npfloat)
    (r : npfloat * npfloat * npfloat * npfloat) : npfloat :=
  let '(rplus, rcross, rplus_p, rcross_p) := r in
  if psrTerm
  then fplus * (rplus_p - rplus) + fcross * (rcross_p - rcross)
  else - fplus * rplus - fcross * rcross.

(** The arguments of [add_cgw] after the pulsar. *)
Record cgw_args : Type := mkCgw {
  gwtheta : npfloat;
  gwphi : npfloat;
  mc : npfloat;
  dist : npfloat;
  fgw : npfloat;
  phase0 : npfloat;
  psi : npfloat;
  inc : npfloat;
  pdist : npfloat;
  pphase : option npfloat;
  psrTerm : bool;
  evolve : bool;
  phase_approx : bool;
  tref : npfloat
}.

(** The scalars [add_cgw] derives before it looks at the epochs.  The
    powers and quotients of lines 301, 316 and 317 are operations on
    Python numbers: [cgw_prepare] follows them for [mc > 0],
    [dist <> 0] and [fgw > 0]. *)
Record cgw_scalars : Type := mkScalars {
  s_w0 : npfloat;
  s_w053 : npfloat;
  s_fac1 : npfloat;
  s_fac2 : npfloat;
  s_fac3 : npfloat;
  s_phase0 : npfloat;
  s_pd : npfloat
}.

Definition cgw_prepare (a : cgw_args) (cosMu : npfloat) : cgw_scalars :=
  let mc := mc a * Fin 4.9e-6 in
  let dist := dist a * Fin 1.0267e14 in
  let w0 := np_pi * fgw a in
  let phase0 := phase0 a / Fin 2 in
  let w053 := w0 ** Fin (-5 / 3) in
  let fac1 := Fin (256 / 5) * mc ** Fin (5 / 3) * w0 ** Fin (8 / 3) in
  let fac2 := Fin (1 / 32) / mc ** Fin (5 / 3) in
  let fac3 := mc ** Fin (5 / 3) / dist in
  let pd :=
    match pphase a with
    | Some pphase =>
        pphase / (Fin 2 * np_pi * fgw a * (Fin 1 - cosMu)) / Fin 1.0267e11
    | None => pdist a
    end in
  let pd := pd * Fin 1.0267e11 in
  mkScalars w0 w053 fac1 fac2 fac3 phase0 pd.

(** Lines 333-377 at the epoch [t] (in days) of the pulsar: the observer
    time [toas], the pulsar time [tp], and the frequencies and phases. *)
Definition cgw_state_at (psr : pulsar) (a : cgw_args) (t : npfloat)
    : npfloat * npfloat * npfloat * npfloat :=
  let '(_, _, cosMu) := cgw_antenna psr (gwtheta a) (gwphi a) in
  let s := cgw_prepare a cosMu in
  let toas := t * Fin 86400 - tref a in
  let tp := toas - s_pd s * (Fin 1 - cosMu) in
  cgw_evolution (evolve a) (phase_approx a) (s_w0 s) (s_w053 s) (s_fac1 s)
    (s_fac2 s) (s_phase0 s) (s_pd s) cosMu toas tp.

(** Lines 380-394 at the epoch [t]: [(rplus, rcross, rplus_p, rcross_p)]. *)
Definition cgw_waves_at (psr : pulsar) (a : cgw_args) (t : npfloat)
    : npfloat * npfloat * npfloat * npfloat :=
  let '(_, _, cosMu) := cgw_antenna psr (gwtheta a) (gwphi a) in
  let s := cgw_prepare a cosMu in
  let '(omega, omega_p, phase, phase_p) := cgw_state_at psr a t in
  cgw_waveforms (s_fac3 s) (psi a) (inc a) omega omega_p phase phase_p.

(** The element of [res] for the epoch [t] (in days) of the pulsar. *)
Definition cgw_res_at (psr : pulsar) (a : cgw_args) (t : npfloat) : npfloat :=
  let '(fplus, fcross, _) := cgw_antenna psr (gwtheta a) (gwphi a) in
  cgw_combine (psrTerm a) fplus fcross (cgw_waves_at psr a t).

(** [res]: every operation on the epoch array is element-wise. *)
Definition cgw_res (psr : pulsar) (a : cgw_args) : array :=
  map (cgw_res_at psr a) (toas psr).

(** [add_cgw]: the pulsar with [res/86400] added to its [stoas]. *)
Definition add_cgw (psr : pulsar) (a : cgw_args) : result pulsar :=
  let res := cgw_res psr a in
  stoas' <- iadd (stoas psr) (map (fun r => r / Fin 86400) res) ;;
  Ok (mkPulsar (name psr) (RAJ psr) (DECJ psr) (toas psr) stoas').

(** ** numpy helpers of createGWB_clean *)

Fixpoint mapM {A B : Type} (f : A -> result B) (l : list A) : result (list B) :=
  match l with
  | [] => Ok []
  | x :: t => y <- f x ;; ys <- mapM f t ;; Ok (y :: ys)
  end.

(** [N.minimum] and [N.maximum] of two scalars: a [nan] wins. *)
Definition np_minimum (a b : npfloat) : npfloat :=
  if is_nan a then a else if is_nan b then b else if b <? a then b else a.

Definition np_maximum (a b : npfloat) : npfloat :=
  if is_nan a then a else if is_nan b then b else if a <? b then b else a.

(** [a.min()], [N.min(a)]: an empty array has no minimum. *)
Definition arr_min (a : array) : result npfloat :=
  match a with
  | [] => Raise ValueError
  | x :: t => Ok (fold_left np_minimum t x)
  end.

Definition arr_max (a : array) : result npfloat :=
  match a with
  | [] => Raise ValueError
  | x :: t => Ok (fold_left np_maximum t x)
  end.

(** Ceiling and truncation of a real number. *)
Definition Rceil (x : R) : Z := (- Int_part (- x))%Z.

Definition Rtrunc (x : R) : Z :=
  if Rlt_dec x 0 then (- Int_part (- x))%Z else Int_part x.

(** The integer a float is used as, where a count is expected. *)
Definition to_int (a : npfloat) : result Z :=
  match a with
  | Fin x => Ok (Rtrunc x)
  | _ => Raise ValueError
  end.

(** [N.linspace(start, stop, num)], end point included. *)
Definition N_linspace (start stop : npfloat) (num : Z) : array :=
  match Z.to_nat num with
  | O => []
  | S O => [start]
  | S n' =>
      let step := (stop - start) / Fin (IZR (num - 1)) in
      list_set n' stop
        (map (fun i => Fin (INR i) * step + start) (seq 0 (S n')))
  end.

(** [N.arange(start, stop, step)]: [ceil((stop - start)/step)] points
    [start + i*step]; a length that is not a number raises.  The
    quotient is the exact one here; numpy rounds it before it takes the
    ceiling, which can give one point more or less where the exact
    quotient is at a whole number. *)
Definition N_arange (start stop step : npfloat) : result array :=
  match (stop - start) / step with
  | Fin q =>
      Ok (map (fun i => start + Fin (INR i) * step) (seq 0 (Z.to_nat (Rceil q))))
  | _ => Raise ValueError
  end.

(** Complex scalars, as numpy promotes and multiplies them. *)
Definition complex : Type := npfloat * npfloat.

Definition c_of_real (a : npfloat) : complex := (a, Fin 0).
Definition c_zero : complex := (Fin 0, Fin 0).
Definition c_real (z : complex) : npfloat := fst z.
Definition c_conj (z : complex) : complex := (fst z, - snd z).

Definition c_add (z w : complex) : complex := (fst z + fst w, snd z + snd w).

Definition c_mul (z w : complex) : complex :=
  (fst z * fst w - snd z * snd w, fst z * snd w + snd z * fst w).

(** A complex value over a real one. *)
Definition c_div_real (z : complex) (d : npfloat) : complex := (fst z / d, snd z / d).

(** [N.dot(M, w)] of a real matrix and a complex one, row by column. *)
Definition c_dot_row (Mrow : array) (w : list (list complex)) (k : nat) : complex :=
  fold_left c_add
    (map (fun '(m, wrow) => c_mul (c_of_real m) (nth k wrow c_zero)) (combine Mrow w))
    c_zero.

Definition c_dot (M : matrix) (w : list (list complex)) (ncols : nat)
    : list (list complex) :=
  map (fun Mrow => map (c_dot_row Mrow w) (seq 0 ncols)) M.

(** [scipy.interpolate.interp1d(x, y)(x_new)] on an ascending grid [x]:
    with the default [bounds_error] a point below [x[0]] or above
    [x[-1]] raises; [value] is the interpolant where it is defined. *)
Definition out_of_bounds (x x_new : array) : bool :=
  existsb (fun v => v <? hd NaN x) x_new || existsb (fun v => last x NaN <? v) x_new.

Definition interp1d (value : array -> array -> npfloat -> npfloat)
    (x y x_new : array) : result array :=
  if negb (Nat.eqb (length x) (length y)) then Raise ValueError
  else if out_of_bounds x x_new then Raise ValueError
  else Ok (map (value x y) x_new).

(** ** createGWB_clean *)

(** The arguments of [createGWB_clean] after the pulsar list. *)
Record gwb_args : Type := mkGwb {
  Amp : npfloat;
  gam : npfloat;
  noCorr : bool;
  seed : option Z;
  turnover : bool;
  f0 : npfloat;
  beta : npfloat;
  power : npfloat;
  npts : option Z;
  howml : npfloat
}.

(** What lines 431-465 compute before any random number is drawn. *)
Record gwb_setup : Type := mkSetup {
  g_start : npfloat;
  g_stop : npfloat;
  g_dur : npfloat;
  g_npts : Z;
  g_ut : array;
  g_dt : npfloat;
  g_ORF : matrix;
  g_f : array;
  g_M : matrix
}.

(** Lines 434-439: [(start, stop)] of the whole data set, in seconds. *)
Definition gwb_span (psr : list pulsar) : result (npfloat * npfloat) :=
  los <- mapM (fun p => m <- arr_min (toas p) ;; Ok (m * Fin 86400)) psr ;;
  lo <- arr_min los ;;
  let start := lo - Fin 86400 in
  his <- mapM (fun p => m <- arr_max (toas p) ;; Ok (m * Fin 86400)) psr ;;
  hi <- arr_max his ;;
  let stop := hi + Fin 86400 in
  Ok (start, stop).

(** Lines 441-444: [npts] as a number and as a count.  Left to [None] it
    is derived from the duration, and numpy takes its integer part
    where it needs a count (the numpy of the program's time; a recent
    one raises [TypeError] on a count that is not an integer, and
    [ValueError] on a negative one in [N.linspace] already).  The
    properties that describe the grid take an integer [npts > 0]. *)
Definition gwb_npts (a : gwb_args) (dur : npfloat) : result (npfloat * Z) :=
  match npts a with
  | Some n => Ok (Fin (IZR n), n)
  | None =>
      let nf := dur / Fin (86400 * 14) in
      n <- to_int nf ;; Ok (nf, n)
  end.

(** Lines 458-461: the frequencies, with [f[0] = f[1]]. *)
Definition gwb_freqs (dur dt howml : npfloat) : result array :=
  f <- N_arange (Fin 0) (Fin 1 / (Fin 2 * dt)) (Fin 1 / (dur * howml)) ;;
  match f with
  | _ :: f1 :: t => Ok (f1 :: f1 :: t)
  | _ => Raise IndexError
  end.

(** [N.diag(N.ones(n)*2)]. *)
Definition N_diag2 (n : nat) : matrix :=
  map (fun i => list_set i (Fin 1 * Fin 2) (N_zeros n)) (seq 0 n).

(** Lines 472-480: the factor [C] of every frequency bin.  [1/power] is
    a division of Python numbers, followed for [power <> 0]. *)
Definition gwb_spectrum (a : gwb_args) (f : array) (dur : npfloat) : array :=
  let f1yr := Fin 1 / Fin 3.16e7 in
  let alpha := Fin (-0.5) * (gam a - Fin 3) in
  let hcf := fun fk => Amp a * (fk / f1yr) ** alpha in
  let hcf := fun fk =>
    if turnover a then
      let si := alpha - beta a in
      hcf fk / (Fin 1 + (fk / f0 a) ** (power a * si)) ** (Fin 1 / power a)
    else hcf fk in
  map (fun fk =>
         Fin 1 / Fin 96 / np_pi ** Fin 2 * hcf fk ** Fin 2 / fk ** Fin 3
         * dur * howml a) f.

(** Lines 484-487, one row: scaled by [C**0.5], first and last bin zeroed. *)
Definition gwb_scale_row (C : array) (row : list complex) : list complex :=
  let scaled :=
    map (fun '(z, c) => c_mul z (c_of_real (c ** Fin 0.5))) (combine row C) in
  list_set (length scaled - 1) c_zero (list_set 0 c_zero scaled).

(** Lines 490-493, one row: the [Nf] bins, then the conjugates of bins
    [Nf-2] down to [1]. *)
Definition gwb_pack_row (Nf : nat) (row : list complex) : list complex :=
  firstn Nf row ++ map c_conj (rev (skipn 1 (firstn (Nf - 1) row))).

(** Line 500: [Res[ll,:] = Res_t[ll, 10:(npts+10)]], into a row of
    [npts] entries. *)
Definition gwb_shorten (n : nat) (row : array) : result array :=
  let piece := firstn n (skipn 10 row) in
  if Nat.eqb (length piece) n then Ok piece
  else match piece with
       | [y] => Ok (repeat y n)
       | _ => Raise ValueError
       end.

Section Synthesizer.

(** The library routines the synthesizer calls: the state of
    [N.random], [N.random.seed] on a seed it accepts (an integer of 32
    bits; see [seed_accepted]), one draw of [N.random.randn],
    [N.linalg.cholesky] (which raises on a matrix that is not positive
    definite and keeps the shape otherwise), [N.fft.ifft] along a row,
    and the value of scipy's linear interpolant. *)
Variable rng_state : Type.
Variable random_seed : Z -> rng_state.
Variable standard_normal : rng_state -> npfloat * rng_state.
Variable cholesky : matrix -> result matrix.
Variable ifft : list complex -> list complex.
Variable interp_value : array -> array -> npfloat -> npfloat.

(** [N.random.randn(n)]: [n] draws, in index order. *)
Fixpoint randn (n : nat) (g : rng_state) : array * rng_state :=
  match n with
  | O => ([], g)
  | S n' =>
      let '(x, g) := standard_normal g in
      let '(xs, g) := randn n' g in
      (x :: xs, g)
  end.

(** The state after [k] draws, and the draw of index [k] of the stream
    that starts in state [g]. *)
Fixpoint advance (k : nat) (g : rng_state) : rng_state :=
  match k with
  | O => g
  | S k' => advance k' (snd (standard_normal g))
  end.

Definition draw_at (g : rng_state) (k : nat) : npfloat :=
  fst (standard_normal (advance k g)).

(** The complex number made of the draws of index [i] and [j]. *)
Definition complex_draw (g : rng_state) (i j : nat) : complex :=
  c_add (c_of_real (draw_at g i)) (c_mul (Fin 0, Fin 1) (c_of_real (draw_at g j))).

(** Line 470: [N.random.randn(Nf) + 1j*N.random.randn(Nf)]. *)
Definition gwb_draw_row (Nf : nat) (g : rng_state) : list complex * rng_state :=
  let '(re, g) := randn Nf g in
  let '(im, g) := randn Nf g in
  (map (fun '(x, y) => c_add (c_of_real x) (c_mul (Fin 0, Fin 1) (c_of_real y)))
       (combine re im), g).

(** Lines 468-470: the loop over [ll] that fills [w]. *)
Definition gwb_draw (Npulsars Nf : nat) (g : rng_state)
    : list (list complex) * rng_state :=
  fold_left
    (fun '(w, g) ll => let '(row, g) := gwb_draw_row Nf g in (list_set ll row w, g))
    (seq 0 Npulsars)
    (repeat (repeat c_zero Nf) Npulsars, g).

(** Lines 431-465. *)
Definition gwb_prepare (psr : list pulsar) (a : gwb_args) : result gwb_setup :=
  let Npulsars := length psr in
  '(start, stop) <- gwb_span psr ;;
  let dur := stop - start in
  '(nptsf, nptsn) <- gwb_npts a dur ;;
  let ut := N_linspace start stop nptsn in
  let dt := dur / nptsf in
  let ORF := if noCorr a then N_diag2 Npulsars else computeORFMatrix psr in
  f <- gwb_freqs dur dt (howml a) ;;
  M <- cholesky ORF ;;
  Ok (mkSetup start stop dur nptsn ut dt ORF f M).

(** Lines 472-502, from the setup and the random series [w]. *)
Definition gwb_finish (psr : list pulsar) (a : gwb_args) (s : gwb_setup)
    (w : list (list complex)) : result (list array) :=
  let Nf := length (g_f s) in
  let C := gwb_spectrum a (g_f s) (g_dur s) in
  let Res_f := map (gwb_scale_row C) (c_dot (g_M s) w Nf) in
  let Res_f2 := map (gwb_pack_row Nf) Res_f in
  let Res_t :=
    map (fun row => map (fun z => c_real (c_div_real z (g_dt s))) (ifft row)) Res_f2 in
  if (g_npts s <? 0)%Z then Raise ValueError
  else
    mapM (fun '(p, row) =>
            Res_ll <- gwb_shorten (Z.to_nat (g_npts s)) row ;;
            interp1d interp_value (g_ut s) Res_ll
              (map (fun t => t * Fin 86400) (toas p)))
         (combine psr Res_t).

(** [createGWB_clean]: the list [res_gw] or the exception, and the state
    the generator is left in. *)
Definition createGWB_clean (psr : list pulsar) (a : gwb_args) (g : rng_state)
    : result (list array) * rng_state :=
  let g := match seed a with Some s => random_seed s | None => g end in
  match gwb_prepare psr a with
  | Raise e => (Raise e, g)
  | Ok s =>
      let '(w, g) := gwb_draw (length psr) (length (g_f s)) g in
      (gwb_finish psr a s w, g)
  end.

End Synthesizer.

(** ** The noise injectors *)

(** The module constants [day = 24 * 3600], [year = 365.25 * day] and
    [DMk = 4.15e3]. *)
Definition day : npfloat := Fin (24 * 3600).
Definition year : npfloat := Fin 365.25 * day.
Definition DMk : npfloat := Fin 4.15e3.

(** [N.sqrt]: [nan] below zero, and nothing is raised. *)
Definition np_sqrt (a : npfloat) : npfloat :=
  match a with
  | Fin x => match Rsign x with Lt => NaN | _ => Fin (sqrt x) end
  | PInf => PInf
  | NInf | NaN => NaN
  end.

(** [N.mean]: the sum over the count; [nan] for no element. *)
Definition N_mean (a : array) : npfloat := N_sum a / Fin (INR (length a)).

(** An operator on two arrays as numpy broadcasts it: one shape, or one
    of the two of a single element; any other pair of shapes raises. *)
Definition broadcast2 (op : npfloat -> npfloat -> npfloat) (a b : array)
    : result array :=
  if Nat.eqb (length a) (length b)
  then Ok (map (fun '(x, y) => op x y) (combine a b))
  else match a, b with
       | [x], _ => Ok (map (op x) b)
       | _, [y] => Ok (map (fun x => op x y) a)
       | _, _ => Raise ValueError
       end.

(** [M[:, j] = v] for a column [j] in range: [v] has one entry per row,
    or a single one that is broadcast. *)
Definition set_col (j : nat) (v : array) (M : matrix) : result matrix :=
  if Nat.eqb (length v) (length M)
  then Ok (map (fun '(row, x) => list_set j x row) (combine M v))
  else match v with
       | [x] => Ok (map (list_set j x) M)
       | _ => Raise ValueError
       end.

(** [N.dot(M, y)] of a matrix and a vector, row by row. *)
Definition mat_vec (M : matrix) (y : array) : array :=
  map (fun row => N_dot row y) M.

(** [psr.nobs], the number of arrival times, and the pulsar after
    [psr.stoas[:]] has been overwritten. *)
Definition nobs (psr : pulsar) : nat := length (stoas psr).

Definition set_stoas (psr : pulsar) (s : array) : pulsar :=
  mkPulsar (name psr) (RAJ psr) (DECJ psr) (toas psr) s.

(** A pulsar with the two arrays [add_efac] and [add_dm] read besides:
    the errors [toaerrs] (microseconds) and the observing frequencies
    [freqs] (MHz). *)
Record tempopulsar : Type := mkTempo {
  base : pulsar;
  toaerrs : array;
  freqs : array
}.

(** *** add_line *)

Definition add_line (psr : pulsar) (f A offset : npfloat) : result pulsar :=
  let t := toas psr in
  mx <- arr_max t ;;
  mn <- arr_min t ;;
  let t0 := offset * (mx - mn) in
  let sine := map (fun ti => A * np_cos (Fin 2 * np_pi * f * day * (ti - t0))) t in
  stoas' <- iadd (stoas psr) (map (fun s => s / day) sine) ;;
  Ok (set_stoas psr stoas').

(** *** Lines 207-225 and 239-256: the Fourier series of the red-noise
    and the DM injectors *)

(** One round of the loop over [i]: two columns of [F], two entries of [f]. *)
Definition fourier_step (x : array) (T : npfloat)
    (st : result (matrix * array)) (i : nat) : result (matrix * array) :=
  ' (F, f) <- st ;;
  let w := Fin 2 * np_pi * Fin (INR (i + 1)) in
  F <- set_col (2 * i) (map (fun xk => np_cos (w * xk)) x) F ;;
  F <- set_col (2 * i + 1) (map (fun xk => np_sin (w * xk)) x) F ;;
  let v := Fin (INR (i + 1)) / T in
  Ok (F, list_set (2 * i + 1) v (list_set (2 * i) v f)).

(** [(F, f)] after the loop; a negative [components] makes [N.zeros]
    raise. *)
Definition fourier_design (t : array) (nrows : nat) (components : Z)
    : result (matrix * array * npfloat) :=
  minx <- arr_min t ;;
  maxx <- arr_max t ;;
  let x := map (fun tk => (tk - minx) / (maxx - minx)) t in
  let T := day / year * (maxx - minx) in
  if (components <? 0)%Z then Raise ValueError
  else
    let size := (2 * Z.to_nat components)%nat in
    Ff <- fold_left (fourier_step x T) (seq 0 (Z.to_nat components))
            (Ok (N_zeros2 nrows size, N_zeros size)) ;;
    Ok (Ff, T).

(** [prior = norm * f**(-gamma)]. *)
Definition fourier_prior (A gamma T : npfloat) (f : array) : array :=
  let norm := A ** Fin 2 * year ** Fin 2 / (Fin 12 * np_pi ** Fin 2 * T) in
  map (fun fj => norm * fj ** (- gamma)) f.

Section Injectors.

(** The state of [N.random], [N.random.seed] on a seed it accepts (an
    integer of 32 bits; see [seed_accepted]), one draw of
    [N.random.randn], and [N.argsort], which returns the indices of its
    argument in an order that sorts it. *)
Variable rng_state : Type.
Variable random_seed : Z -> rng_state.
Variable standard_normal : rng_state -> npfloat * rng_state.
Variable argsort : array -> list nat.

(** [if seed is not None: N.random.seed(seed)]. *)
Definition reseed (seed : option Z) (g : rng_state) : rng_state :=
  match seed with Some s => random_seed s | None => g end.

(** *** add_efac and add_equad *)

Definition add_efac (psr : tempopulsar) (efac : npfloat) (seed : option Z)
    (g : rng_state) : result pulsar * rng_state :=
  let g := reseed seed g in
  let '(r, g) := randn standard_normal (nobs (base psr)) g in
  (noise <- broadcast2 np_mul
              (map (fun e => efac * e * (Fin 1e-6 / day)) (toaerrs psr)) r ;;
   stoas' <- iadd (stoas (base psr)) noise ;;
   Ok (set_stoas (base psr) stoas'), g).

Definition add_equad (psr : pulsar) (equad : npfloat) (seed : option Z)
    (g : rng_state) : result pulsar * rng_state :=
  let g := reseed seed g in
  let '(r, g) := randn standard_normal (nobs psr) g in
  (stoas' <- iadd (stoas psr) (map (fun x => equad / day * x) r) ;;
   Ok (set_stoas psr stoas'), g).

(** *** quantize_fast and add_jitter *)

(** One round of the loop over [isort[1:]]: the index joins the last
    bucket, or opens a new one.  The test is on the difference as the
    program computes it: rounded there, exact here. *)
Definition bucket_step (times : array) (dt : npfloat)
    (st : array * list (list nat)) (i : nat) : array * list (list nat) :=
  let '(bucket_ref, bucket_ind) := st in
  if get times i - last bucket_ref NaN <? dt
  then (bucket_ref, removelast bucket_ind ++ [last bucket_ind [] ++ [i]])
  else (bucket_ref ++ [get times i], bucket_ind ++ [[i]]).

(** The buckets of indices, in the order they are opened. *)
Definition quantize_buckets (times : array) (dt : npfloat)
    : result (list (list nat)) :=
  match argsort times with
  | [] => Raise IndexError
  | i0 :: rest =>
      Ok (snd (fold_left (bucket_step times dt) rest ([get times i0], [[i0]])))
  end.

(** [U[l, i] = 1] for the bucket [l] of number [i]. *)
Definition mark_bucket (U : matrix) (il : nat * list nat) : matrix :=
  let '(i, l) := il in
  fold_left (fun U r => mat_set r i (Fin 1) U) l U.

Definition quantize_fast (times : array) (dt : npfloat) : result (array * matrix) :=
  bucket_ind <- quantize_buckets times dt ;;
  let t := map (fun l => N_mean (map (get times) l)) bucket_ind in
  let U := N_zeros2 (length times) (length bucket_ind) in
  let U :=
    fold_left mark_bucket (combine (seq 0 (length bucket_ind)) bucket_ind) U in
  Ok (t, U).

(** [add_jitter]; [U.shape[1]], the number of buckets, is the length of
    [t]. *)
Definition add_jitter (psr : pulsar) (equad coarsegrain : npfloat)
    (seed : option Z) (g : rng_state) : result pulsar * rng_state :=
  let g := reseed seed g in
  match quantize_fast (toas psr) (Fin 0.1) with
  | Raise e => (Raise e, g)
  | Ok (t, U) =>
      let '(r, g) := randn standard_normal (length t) g in
      (stoas' <- iadd (stoas psr) (map (fun d => equad / day * d) (mat_vec U r)) ;;
       Ok (set_stoas psr stoas'), g)
  end.

(** *** add_rednoise and add_dm *)

(** Lines 207-225: [N.dot(F, y)], and the state of the generator after
    the [2 * components] draws of [y]. *)
Definition fourier_series (t : array) (nrows : nat) (A gamma : npfloat)
    (components : Z) (g : rng_state) : result array * rng_state :=
  match fourier_design t nrows components with
  | Raise e => (Raise e, g)
  | Ok (F, f, T) =>
      let prior := fourier_prior A gamma T f in
      let '(r, g) := randn standard_normal (2 * Z.to_nat components) g in
      let y := arr_mul (map np_sqrt prior) r in
      (Ok (mat_vec F y), g)
  end.

Definition add_rednoise (psr : pulsar) (A gamma : npfloat) (components : Z)
    (seed : option Z) (g : rng_state) : result pulsar * rng_state :=
  let g := reseed seed g in
  match fourier_series (toas psr) (nobs psr) A gamma components g with
  | (Raise e, g) => (Raise e, g)
  | (Ok d, g) =>
      (stoas' <- iadd (stoas psr) (map (fun dk => Fin 1 / day * dk) d) ;;
       Ok (set_stoas psr stoas'), g)
  end.

Definition add_dm (psr : tempopulsar) (A gamma : npfloat) (components : Z)
    (seed : option Z) (g : rng_state) : result pulsar * rng_state :=
  let g := reseed seed g in
  let v := map (fun fr => DMk / fr ** Fin 2) (freqs psr) in
  match fourier_series (toas (base psr)) (nobs (base psr)) A gamma components g with
  | (Raise e, g) => (Raise e, g)
  | (Ok d, g) =>
      (noise <- broadcast2 np_mul (map (fun vk => Fin 1 / day * vk) v) d ;;
       stoas' <- iadd (stoas (base psr)) noise ;;
       Ok (set_stoas (base psr) stoas'), g)
  end.

End Injectors.

(** *** quantize *)

(** [N.bincount(x, minlength)]: how often each of [0 .. n-1] occurs in
    [x], for [n] the larger of [minlength] and one more than the largest
    element. *)
Definition N_bincount (x : list nat) (minlength : nat) : list nat :=
  let n := match x with
           | [] => minlength
           | _ => Nat.max minlength (S (list_max x))
           end in
  map (count_occ Nat.eq_dec x) (seq 0 n).

(** [a[mask]] for a boolean mask. *)
Definition select {A : Type} (mask : list bool) (a : list A) : list A :=
  map snd (filter fst (combine mask a)).

Section Binning.

(** [N.arange(start, stop, step)] and [N.digitize(x, bins)], which
    returns one bin number per element of [x]. *)
Variable arange : npfloat -> npfloat -> npfloat -> result array.
Variable digitize : array -> array -> result (list nat).

(** One round of the loop over [enumerate(counts)], with the state
    [(t, U, j)]: for a bin that is not empty, the rows of the mask
    [indices == i] get a 1 in column [j], [t[j]] the mean of the times of
    the mask, and [j] moves on.  A mask of another length than [times],
    or a [j] that is no column, is an [IndexError]. *)
Definition quantize_step (times : array) (indices : list nat)
    (st : result (array * matrix * nat)) (ic : nat * nat)
    : result (array * matrix * nat) :=
  ' (t, U, j) <- st ;;
  let '(i, c) := ic in
  if Nat.ltb 0 c then
    let mask := map (Nat.eqb i) indices in
    if Nat.eqb (length mask) (length times) && Nat.ltb j (length t) then
      Ok (list_set j (N_mean (select mask times)) t,
          map (fun '(row, m) => if m : bool then list_set j (Fin 1) row else row)
              (combine U mask),
          S j)
    else Raise IndexError
  else Ok (t, U, j).

Definition quantize (times : array) (dt : npfloat) : result (array * matrix) :=
  mn <- arr_min times ;;
  mx <- arr_max times ;;
  bins <- arange mn (mx + dt) dt ;;
  indices <- digitize times bins ;;
  let counts := N_bincount indices (length bins + 1) in
  let bign := length times in
  let smalln := length (filter (Nat.ltb 0) counts) in
  tUj <- fold_left (quantize_step times indices)
           (combine (seq 0 (length counts)) counts)
           (Ok (N_zeros smalln, N_zeros2 bign smalln, 0%nat)) ;;
  Ok (fst (fst tUj), snd (fst tUj)).

End Binning.

(** ** The specification's words

    Sky Direction: a unit vector derived from (declination, right
    ascension) via [theta = pi/2 - dec], [phi = ra]; the overlap
    reduction value of a pair from [xi = (1 - p_i . p_j)/2]; the
    polarisation basis and the propagation direction of a source. *)

Local Open Scope R_scope.

Definition vec3 : Type := (R * R * R)%type.

Definition direction (ra dec : R) : vec3 :=
  let theta := PI / 2 - dec in
  let phi := ra in
  (sin theta * cos phi, sin theta * sin phi, cos theta).

Definition dot3 (p q : vec3) : R :=
  let '(p1, p2, p3) := p in
  let '(q1, q2, q3) := q in
  p1 * q1 + p2 * q2 + p3 * q3.

Definition orf_formula (xi : R) : R := 3 * (1 / 3 + xi * (ln xi - 1 / 6)).

(** The polarisation basis and the propagation direction of a source at
    polar angle [gwtheta] and azimuth [gwphi]. *)
Definition basis_m (gwphi : R) : vec3 := (- sin gwphi, cos gwphi, 0).

Definition basis_n (gwtheta gwphi : R) : vec3 :=
  (- cos gwtheta * cos gwphi, - cos gwtheta * sin gwphi, sin gwtheta).

Definition propagation (gwtheta gwphi : R) : vec3 :=
  (- sin gwtheta * cos gwphi, - sin gwtheta * sin gwphi, - cos gwtheta).

(** The three evolution policies and the flags that select them: full
    evolution when [evolve] is set; the phase approximation when it is
    not and [phase_approx] is set; monochromatic when both are off. *)
Inductive evolution_policy : Type :=
| FullEvolution
| PhaseApproximation
| Monochromatic.

Definition policy_of_flags (evolve phase_approx : bool) : evolution_policy :=
  match evolve, phase_approx with
  | true, _ => FullEvolution
  | false, true => PhaseApproximation
  | false, false => Monochromatic
  end.

(** The chirp of the angular frequency after a time [t], and the phase
    that goes with a chirped frequency [omega]. *)
Definition chirp_omega (w0 fac1 t : npfloat) : npfloat :=
  (w0 * (Fin 1 - fac1 * t) ** Fin (-3 / 8))%np.

Definition chirp_phase (phase0 fac2 w053 omega : npfloat) : npfloat :=
  (phase0 + fac2 * (w053 - omega ** Fin (-5 / 3)))%np.

(** The real number a finite float stands for. *)
Definition to_R (a : npfloat) : R :=
  match a with Fin x => x | _ => 0 end.

Definition finite_position (p : pulsar) : Prop :=
  is_finite (RAJ p) = true /\ is_finite (DECJ p) = true.

(** The sky direction of a pulsar at a finite position. *)
Definition skydir (p : pulsar) : vec3 := direction (to_R (RAJ p)) (to_R (DECJ p)).

(** A pulsar with at least one epoch, all of them finite. *)
Definition finite_epochs (p : pulsar) : Prop :=
  toas p <> [] /\ Forall (fun t => is_finite t = true) (toas p).

(** [lo] is the smallest and [hi] the largest epoch of the pulsars, in seconds. *)
Definition min_epoch (psr : list pulsar) (lo : R) : Prop :=
  (forall p t, In p psr -> In t (toas p) -> lo <= to_R t * 86400)
  /\ exists p t, In p psr /\ In t (toas p) /\ lo = to_R t * 86400.

Definition max_epoch (psr : list pulsar) (hi : R) : Prop :=
  (forall p t, In p psr -> In t (toas p) -> to_R t * 86400 <= hi)
  /\ exists p t, In p psr /\ In t (toas p) /\ hi = to_R t * 86400.

(** The pulsar at index [i] of a list. *)
Definition psr_at (psr : list pulsar) (i : nat) : pulsar :=
  nth i psr (mkPulsar "" NaN NaN [] []).

(** A matrix of [r] rows and [c] columns. *)
Definition shape (r c : nat) (M : matrix) : Prop :=
  length M = r /\ Forall (fun row => length row = c) M.

(** ** Inputs the properties are exercised on *)

(** A pulsar on the celestial equator and one at the north pole. *)
Definition psr_equator : pulsar := mkPulsar "EQ" (Fin 0) (Fin 0) [Fin 53000; Fin 53010] [Fin 53000; Fin 53010].
Definition psr_pole : pulsar := mkPulsar "NP" (Fin 0) (Fin (PI / 2)) [Fin 53005] [Fin 53005].

(** The default arguments of [createGWB_clean] with a seed, for an
    amplitude and a spectral index. *)
Definition gwb_default (seed : option Z) : gwb_args :=
  mkGwb (Fin 1e-15) (Fin 4.33) false seed false (Fin 1e-9) (Fin 1) (Fin 1)
        (Some 600%Z) (Fin 10).

(** Stand-ins for the library routines: a counter as generator state, a
    factorisation and a transform that hand their argument back, an
    interpolant that is zero. *)
Definition counter_seed (s : Z) : nat := Z.to_nat s.
Definition counter_normal (g : nat) : npfloat * nat := (Fin (INR g), S g).
Definition trivial_cholesky (M : matrix) : result matrix := Ok M.
Definition trivial_ifft (row : list complex) : list complex := row.
Definition zero_interp (x y : array) (v : npfloat) : npfloat := Fin 0.

(** A source at [gwtheta = 0], [gwphi = 0], pulsar term disabled. *)
Definition cgw_polar : cgw_args :=
  mkCgw (Fin 0) (Fin 0) (Fin 1e9) (Fin 100) (Fin 1e-8) (Fin 0) (Fin 0) (Fin 0)
        (Fin 1) None false false false (Fin 0).

Local Open Scope np_scope.

(** The direction the loops of [computeORFMatrix] hold in a buffer for
    pulsar [k], and the value they store at [(ll, kk)]. *)
Definition phat_at (pphi ptheta : array) (k : nat) : array :=
  [np_cos (get pphi k) * np_sin (get ptheta k);
   np_sin (get pphi k) * np_sin (get ptheta k);
   np_cos (get ptheta k)].

Definition orf_entry (pphi ptheta : array) (ll kk : nat) : npfloat :=
  if Nat.eqb ll kk then Fin 2
  else orf_value (phat_at pphi ptheta ll) (phat_at pphi ptheta kk).

(** The arguments of [add_cgw] with another pulsar distance and pulsar
    phase. *)
Definition with_distance (a : cgw_args) (pd : npfloat) (pp : option npfloat)
    : cgw_args :=
  mkCgw (gwtheta a) (gwphi a) (mc a) (dist a) (fgw a) (phase0 a) (psi a) (inc a)
        pd pp (psrTerm a) (evolve a) (phase_approx a) (tref a).

(** [createGWB_clean] asked for [npts] points and a lowest frequency
    [1/(howml T)], seeded with 3, all else as by default. *)
Definition gwb_with (npts : Z) (howml : R) : gwb_args :=
  mkGwb (Fin 1e-15) (Fin 4.33) false (Some 3%Z) false (Fin 1e-9) (Fin 1) (Fin 1)
        (Some npts) (Fin howml).

(** A pulsar without observations. *)
Definition psr_unobserved : pulsar := mkPulsar "E" (Fin 0) (Fin 1) [] [].

(** The pulsar on the equator with errors of half a microsecond and
    observing frequencies of 1440 and 2000 MHz. *)
Definition tpsr_equator : tempopulsar :=
  mkTempo psr_equator [Fin 0.5; Fin 0.5] [Fin 1440; Fin 2000].

(** An order of the indices that sorts an array already in ascending
    order. *)
Definition index_order (a : array) : list nat := seq 0 (length a).

(** The entry of the Fourier design matrix for the epoch of index [k]
    and the column [col], and the frequency of that column: the columns
    [2 i] and [2 i + 1] hold the cosine and the sine of the harmonic
    [i + 1]. *)
Definition fourier_entry (x : array) (k col : nat) : npfloat :=
  let w := Fin 2 * np_pi * Fin (INR (col / 2 + 1)) in
  if Nat.even col then np_cos (w * get x k) else np_sin (w * get x k).

Definition fourier_freq (T : npfloat) (col : nat) : npfloat :=
  Fin (INR (col / 2 + 1)) / T.

(** What the loop over [isort[1:]] keeps: the buckets, laid end to end,
    are the indices taken so far, in order; no bucket is empty; the
    reference of a bucket is the time of its first index; and every
    other index of a bucket passed the test against that reference. *)
Definition buckets_inv (times : array) (dt : npfloat) (seen : list nat)
    (st : array * list (list nat)) : Prop :=
  concat (snd st) = seen
  /\ snd st <> []
  /\ Forall (fun b => b <> []) (snd st)
  /\ fst st = map (fun b => get times (hd 0%nat b)) (snd st)
  /\ Forall (fun b => forall i, In i (tl b) ->
                        (get times i - get times (hd 0%nat b) <? dt) = true) (snd st).

(** The first index of a bucket failed the test against the reference
    of the bucket before it. *)
Fixpoint bucket_gaps (times : array) (dt : npfloat) (inds : list (list nat)) : Prop :=
  match inds with
  | b1 :: rest =>
      match rest with
      | b2 :: _ => (get times (hd 0%nat b2) - get times (hd 0%nat b1) <? dt) = false
      | [] => True
      end /\ bucket_gaps times dt rest
  | [] => True
  end.

(** The column of [U] that [quantize] gives the bin [b]: the number of
    bins before [b] that are not empty. *)
Definition col_of (counts : list nat) (b : nat) : nat :=
  length (filter (Nat.ltb 0) (firstn b counts)).

(** [N.arange] and [N.digitize] for times that span less than one step
    [dt > 0]: the two edges [min] and [min + dt], and every time in the
    bin of number 1 between them. *)
Definition arange_two (start stop step : npfloat) : result array :=
  Ok [start; start + step].

Definition digitize_inner (x bins : array) : result (list nat) :=
  Ok (map (fun _ => 1%nat) x).

(** The array of a vector of three real numbers. *)
Definition arr3 (p : vec3) : array :=
  let '(p1, p2, p3) := p in [Fin p1; Fin p2; Fin p3].

(** [xip] of line 536 for two direction buffers: the number
    [orf_value] takes the logarithm of. *)
Definition orf_xip (phati phatj : array) : npfloat :=
  (Fin 1 - N_sum (arr_mul phati phatj)) / Fin 2.

(** The seeds [N.random.seed] accepts: none, or an integer of 32 bits.
    On any other seed numpy raises [ValueError]; [random_seed] stands
    for the call on a seed it accepts. *)
Definition seed_accepted (seed : option Z) : Prop :=
  match seed with
  | Some s => (0 <= s < 2 ^ 32)%Z
  | None => True
  end.

(** The arguments on which the operations of [createGWB_clean] on Python
    numbers raise nothing: a seed that is accepted, and a non-zero
    [power] under [turnover], where line 478 divides 1 by it. *)
Definition gwb_scalars_defined (a : gwb_args) : Prop :=
  seed_accepted (seed a) /\ (turnover a = true -> power a <> Fin 0).

(** * Properties *)

Unset Implicit Arguments.

(** ** Arithmetic of [npfloat] *)

Lemma Rsign_pos (x : R) : (0 < x)%R -> Rsign x = Gt.
Proof.
  intros H. unfold Rsign. destruct (total_order_T x 0) as [[Hlt | Heq] | Hgt]; trivial; lra.
Qed.

Lemma Rsign_neg (x : R) : (x < 0)%R -> Rsign x = Lt.
Proof.
  intros H. unfold Rsign. destruct (total_order_T x 0) as [[Hlt | Heq] | Hgt]; trivial; lra.
Qed.

Lemma Rsign_zero : Rsign 0 = Eq.
Proof.
  unfold Rsign. destruct (total_order_T 0 0) as [[Hlt | Heq] | Hgt]; trivial; lra.
Qed.

Lemma Rsign_Eq_inv (x : R) : Rsign x = Eq -> x = 0%R.
Proof.
  unfold Rsign. destruct (total_order_T x 0) as [[Hlt | Heq] | Hgt]; congruence.
Qed.

Lemma Rsign_Gt_inv (x : R) : Rsign x = Gt -> (0 < x)%R.
Proof.
  unfold Rsign. destruct (total_order_T x 0) as [[Hlt | Heq] | Hgt]; try congruence; lra.
Qed.

Lemma Rsign_Lt_inv (x : R) : Rsign x = Lt -> (x < 0)%R.
Proof.
  unfold Rsign. destruct (total_order_T x 0) as [[Hlt | Heq] | Hgt]; congruence.
Qed.

Lemma np_mul_comm (a b : npfloat) : a * b = b * a.
Proof.
  destruct a, b; simpl; trivial. now rewrite Rmult_comm.
Qed.

Lemma np_add_comm (a b : npfloat) : a + b = b + a.
Proof.
  destruct a, b; simpl; trivial. now rewrite Rplus_comm.
Qed.

Lemma np_div_nonzero (x y : R) : y <> 0%R -> Fin x / Fin y = Fin (x / y).
Proof.
  intros H. simpl. destruct (Rsign y) eqn:E; trivial.
  apply Rsign_Eq_inv in E. contradiction.
Qed.

Lemma np_div_zero_zero : Fin 0 / Fin 0 = NaN.
Proof. simpl. now rewrite Rsign_zero. Qed.

Lemma np_log_pos (x : R) : (0 < x)%R -> np_log (Fin x) = Fin (ln x).
Proof. intros H. simpl. now rewrite Rsign_pos. Qed.

Lemma np_log_zero : np_log (Fin 0) = NInf.
Proof. simpl. now rewrite Rsign_zero. Qed.

(** Finite operands of the total operations. *)
Lemma np_add_fin (x y : R) : Fin x + Fin y = Fin (x + y).
Proof. reflexivity. Qed.

Lemma np_sub_fin (x y : R) : Fin x - Fin y = Fin (x - y).
Proof. reflexivity. Qed.

Lemma np_mul_fin (x y : R) : Fin x * Fin y = Fin (x * y).
Proof. reflexivity. Qed.

Lemma np_opp_fin (x : R) : - Fin x = Fin (- x).
Proof. reflexivity. Qed.

Lemma np_sin_fin (x : R) : np_sin (Fin x) = Fin (sin x).
Proof. reflexivity. Qed.

Lemma np_cos_fin (x : R) : np_cos (Fin x) = Fin (cos x).
Proof. reflexivity. Qed.

(** A [nan] operand makes every arithmetic result [nan]. *)
Lemma np_mul_nan_l (a : npfloat) : NaN * a = NaN.
Proof. now destruct a. Qed.

Lemma np_mul_nan_r (a : npfloat) : a * NaN = NaN.
Proof. now destruct a. Qed.

Lemma np_add_nan_l (a : npfloat) : NaN + a = NaN.
Proof. now destruct a. Qed.

Lemma np_add_nan_r (a : npfloat) : a + NaN = NaN.
Proof. now destruct a. Qed.

Lemma np_sub_nan_l (a : npfloat) : NaN - a = NaN.
Proof. now destruct a. Qed.

Lemma np_sub_nan_r (a : npfloat) : a - NaN = NaN.
Proof. now destruct a. Qed.

Lemma np_div_nan_l (a : npfloat) : NaN / a = NaN.
Proof. now destruct a. Qed.

Lemma np_opp_nan : - NaN = NaN.
Proof. reflexivity. Qed.

Create Rewrite HintDb np.

#[global] Hint Rewrite np_add_fin np_sub_fin np_mul_fin np_opp_fin np_sin_fin np_cos_fin
  np_mul_nan_l np_mul_nan_r np_add_nan_l np_add_nan_r np_sub_nan_l np_sub_nan_r
  np_div_nan_l np_opp_nan : np.

(** The square of a finite value. *)
Lemma Int_part_IZR (z : Z) : Int_part (IZR z) = z.
Proof.
  unfold Int_part. rewrite <- (up_tech (IZR z) z); [lia | lra | rewrite plus_IZR; lra].
Qed.

Lemma frac_part_IZR (z : Z) : frac_part (IZR z) = 0%R.
Proof. unfold frac_part. rewrite Int_part_IZR. lra. Qed.

Lemma is_integer_2 : is_integer 2 = true.
Proof.
  unfold is_integer. destruct (Req_dec_T (frac_part 2) 0) as [_ | H]; trivial.
  exfalso. apply H. exact (frac_part_IZR 2).
Qed.

Lemma is_odd_integer_2 : is_odd_integer 2 = false.
Proof.
  unfold is_odd_integer. rewrite is_integer_2. simpl.
  replace 2%R with (IZR 2) by reflexivity. now rewrite Int_part_IZR.
Qed.

Lemma Rpower_2 (x : R) : (0 < x)%R -> Rpower x 2 = (x * x)%R.
Proof.
  intros H. replace 2%R with (INR 2) by (simpl; lra).
  rewrite Rpower_pow by assumption. simpl. ring.
Qed.

Lemma np_pow_2 (x : R) : Fin x ** Fin 2 = Fin (x ^ 2).
Proof.
  unfold np_pow. rewrite (Rsign_pos 2) by lra.
  destruct (Rsign x) eqn:E.
  - apply Rsign_Eq_inv in E. subst. f_equal. simpl. ring.
  - rewrite is_integer_2, is_odd_integer_2. f_equal.
    assert (x < 0)%R.
    { unfold Rsign in E. destruct (total_order_T x 0) as [[? | ?] | ?]; congruence. }
    rewrite Rpower_2 by lra. simpl. ring.
  - assert (0 < x)%R.
    { unfold Rsign in E. destruct (total_order_T x 0) as [[? | ?] | ?]; congruence. }
    f_equal. rewrite Rpower_2 by lra. simpl. ring.
Qed.

Arguments np_add : simpl never.
Arguments np_sub : simpl never.
Arguments np_mul : simpl never.
Arguments np_div : simpl never.
Arguments np_opp : simpl never.
Arguments np_pow : simpl never.
Arguments np_log : simpl never.
Arguments np_sin : simpl never.
Arguments np_cos : simpl never.

(** ** Arrays and matrices *)

Lemma length_list_set {A : Type} (i : nat) (v : A) (l : list A) :
  length (list_set i v l) = length l.
Proof.
  revert i. induction l as [| h t IH]; intros [| i]; simpl; auto.
Qed.

Lemma nth_list_set_eq {A : Type} (i : nat) (v d : A) (l : list A) :
  (i < length l)%nat -> nth i (list_set i v l) d = v.
Proof.
  revert i. induction l as [| h t IH]; intros [| i] H; simpl in *; try lia; auto.
  apply IH. lia.
Qed.

Lemma nth_list_set_neq {A : Type} (i j : nat) (v d : A) (l : list A) :
  i <> j -> nth j (list_set i v l) d = nth j l d.
Proof.
  revert i j. induction l as [| h t IH]; intros [| i] [| j] H; simpl; auto; try lia.
Qed.

Lemma shape_row (r c : nat) (M : matrix) (i : nat) :
  shape r c M -> (i < r)%nat -> length (nth i M []) = c.
Proof.
  intros [Hr Hc] Hi. rewrite Forall_forall in Hc. apply Hc. apply nth_In. lia.
Qed.

Lemma shape_mat_set (r c i j : nat) (v : npfloat) (M : matrix) :
  shape r c M -> shape r c (mat_set i j v M).
Proof.
  intros [Hr Hc]. unfold mat_set. split.
  - now rewrite length_list_set.
  - rewrite Forall_forall in *. intros row Hin.
    destruct (In_nth _ _ [] Hin) as [k [Hk Hnth]].
    rewrite length_list_set in Hk.
    destruct (Nat.eq_dec i k) as [-> | Hne].
    + rewrite nth_list_set_eq in Hnth by assumption. subst row.
      rewrite length_list_set. apply Hc. now apply nth_In.
    + rewrite nth_list_set_neq in Hnth by assumption. subst row.
      apply Hc. now apply nth_In.
Qed.

Lemma mat_get_mat_set (r c i j : nat) (v : npfloat) (M : matrix) (i' j' : nat) :
  shape r c M -> (i < r)%nat -> (j < c)%nat ->
  mat_get (mat_set i j v M) i' j' =
  if Nat.eqb i' i && Nat.eqb j' j then v else mat_get M i' j'.
Proof.
  intros HM Hi Hj. unfold mat_get, mat_set, get.
  destruct (Nat.eqb_spec i' i) as [-> | Hne]; simpl.
  - rewrite nth_list_set_eq by (destruct HM; lia).
    destruct (Nat.eqb_spec j' j) as [-> | Hnej].
    + apply nth_list_set_eq. rewrite (shape_row r c); assumption.
    + apply nth_list_set_neq. auto.
  - rewrite nth_list_set_neq by auto. reflexivity.
Qed.

Lemma shape_zeros (r c : nat) : shape r c (N_zeros2 r c).
Proof.
  unfold N_zeros2, N_zeros. split.
  - apply repeat_length.
  - rewrite Forall_forall. intros row Hin. apply repeat_spec in Hin. subst.
    apply repeat_length.
Qed.

Lemma fill_phat_length3 (buf : array) (pphi ptheta : npfloat) :
  length buf = 3%nat ->
  fill_phat buf pphi ptheta =
  [np_cos pphi * np_sin ptheta; np_sin pphi * np_sin ptheta; np_cos ptheta].
Proof.
  destruct buf as [| a [| b [| c [| d t]]]]; simpl; intros H; try discriminate.
  reflexivity.
Qed.

(** ** The loops of computeORFMatrix *)

Section ORFLoops.

Variables (npsr : nat) (pphi ptheta : array).


Lemma orf_inner_step (ll kk : nat) (ORF : matrix) (phatj : array) :
  length phatj = 3%nat ->
  orf_inner pphi ptheta (phat_at pphi ptheta ll) ll (ORF, phatj) kk =
  (mat_set ll kk (orf_entry pphi ptheta ll kk) ORF, phat_at pphi ptheta kk).
Proof.
  intros H. unfold orf_inner, orf_entry.
  rewrite (fill_phat_length3 _ _ _ H). fold (phat_at pphi ptheta kk).
  now destruct (Nat.eqb ll kk).
Qed.

(** After [k] rounds of the inner loop, row [ll] holds its first [k]
    entries and nothing else has changed. *)
Lemma orf_inner_loop (ll : nat) (ORF : matrix) (phatj : array) (k : nat) :
  shape npsr npsr ORF -> (ll < npsr)%nat -> (k <= npsr)%nat -> length phatj = 3%nat ->
  exists ORF' phatj',
    fold_left (orf_inner pphi ptheta (phat_at pphi ptheta ll) ll) (seq 0 k) (ORF, phatj) = (ORF', phatj')
    /\ shape npsr npsr ORF' /\ length phatj' = 3%nat
    /\ forall i j, mat_get ORF' i j =
         if Nat.eqb i ll && Nat.ltb j k then orf_entry pphi ptheta ll j else mat_get ORF i j.
Proof.
  intros HM Hll Hk Hb. induction k as [| k IH].
  - exists ORF, phatj. simpl. split; [reflexivity |]. split; [assumption |].
    split; [assumption |]. intros i j. now rewrite andb_false_r.
  - destruct IH as (ORF' & phatj' & Hfold & HM' & Hb' & Hget); [lia |].
    rewrite seq_S, fold_left_app, Hfold. cbn [fold_left Nat.add].
    rewrite (orf_inner_step _ _ _ _ Hb').
    exists (mat_set ll k (orf_entry pphi ptheta ll k) ORF'), (phat_at pphi ptheta k).
    split; [reflexivity |]. split; [apply shape_mat_set; assumption |].
    split; [reflexivity |]. intros i j. rewrite (mat_get_mat_set npsr npsr) by (trivial; lia).
    rewrite Hget.
    destruct (Nat.eqb_spec i ll) as [-> | Hi]; simpl; trivial.
    destruct (Nat.eqb_spec j k) as [-> | Hj].
    + now rewrite (proj2 (Nat.ltb_lt k (S k))) by lia.
    + destruct (Nat.ltb_spec j k), (Nat.ltb_spec j (S k)); trivial; lia.
Qed.

(** After [k] rounds of the outer loop, the first [k] rows are filled. *)
Lemma orf_outer_loop (ORF : matrix) (phati phatj : array) (k : nat) :
  shape npsr npsr ORF -> (k <= npsr)%nat ->
  length phati = 3%nat -> length phatj = 3%nat ->
  exists ORF' phati' phatj',
    fold_left (orf_outer npsr pphi ptheta) (seq 0 k) (ORF, phati, phatj)
      = (ORF', phati', phatj')
    /\ shape npsr npsr ORF' /\ length phati' = 3%nat /\ length phatj' = 3%nat
    /\ forall i j, (j < npsr)%nat ->
         mat_get ORF' i j = if Nat.ltb i k then orf_entry pphi ptheta i j else mat_get ORF i j.
Proof.
  intros HM Hk Hbi Hbj. induction k as [| k IH].
  - exists ORF, phati, phatj. simpl. repeat (split; [assumption || reflexivity |]).
    reflexivity.
  - destruct IH as (ORF' & phati' & phatj' & Hfold & HM' & Hbi' & Hbj' & Hget); [lia |].
    rewrite seq_S, fold_left_app, Hfold. cbn [fold_left Nat.add]. unfold orf_outer.
    rewrite (fill_phat_length3 _ _ _ Hbi'). fold (phat_at pphi ptheta k).
    destruct (orf_inner_loop k ORF' phatj' npsr HM') as (ORF2 & phatj2 & Hin & HM2 & Hb2 & Hget2);
      trivial; try lia.
    rewrite Hin. exists ORF2, (phat_at pphi ptheta k), phatj2.
    split; [reflexivity |]. split; [assumption |]. split; [reflexivity |].
    split; [assumption |]. intros i j Hj. rewrite Hget2, Hget by assumption.
    rewrite (proj2 (Nat.ltb_lt j npsr)) by assumption. rewrite andb_true_r.
    destruct (Nat.eqb_spec i k) as [-> | Hi].
    + now rewrite (proj2 (Nat.ltb_lt k (S k))) by lia.
    + destruct (Nat.ltb_spec i k), (Nat.ltb_spec i (S k)); trivial; lia.
Qed.

End ORFLoops.

(** The matrix [computeORFMatrix] returns, entry by entry. *)
Lemma computeORFMatrix_entries (psr : list pulsar) :
  let pphi := map (fun p => RAJ p) psr in
  let ptheta := map (fun p => np_pi / Fin 2 - DECJ p) psr in
  shape (length psr) (length psr) (computeORFMatrix psr)
  /\ forall i j, (i < length psr)%nat -> (j < length psr)%nat ->
       mat_get (computeORFMatrix psr) i j = orf_entry pphi ptheta i j.
Proof.
  intros pphi ptheta. unfold computeORFMatrix.
  destruct (orf_outer_loop (length psr) pphi ptheta
              (N_zeros2 (length psr) (length psr)) (N_zeros 3) (N_zeros 3) (length psr))
    as (ORF' & phati' & phatj' & Hfold & HM' & _ & _ & Hget);
    trivial; try apply shape_zeros.
  fold pphi ptheta. rewrite Hfold. split; trivial.
  intros i j Hi Hj. rewrite Hget by assumption.
  now rewrite (proj2 (Nat.ltb_lt i (length psr))).
Qed.

(** ** Sky geometry *)

Lemma direction_unit (ra dec : R) :
  dot3 (direction ra dec) (direction ra dec) = 1%R.
Proof.
  unfold direction, dot3.
  pose proof (sin2_cos2 (PI / 2 - dec)) as Ht.
  pose proof (sin2_cos2 ra) as Hp.
  unfold Rsqr in *. nra.
Qed.

Lemma get_map_psr (f : pulsar -> npfloat) (psr : list pulsar) (i : nat) :
  (i < length psr)%nat -> get (map f psr) i = f (psr_at psr i).
Proof.
  intros Hi. unfold get, psr_at.
  rewrite (nth_indep _ NaN (f (mkPulsar "" NaN NaN [] []))) by (now rewrite length_map).
  apply map_nth.
Qed.

Lemma finite_position_at (psr : list pulsar) (i : nat) :
  Forall finite_position psr -> (i < length psr)%nat ->
  RAJ (psr_at psr i) = Fin (to_R (RAJ (psr_at psr i)))
  /\ DECJ (psr_at psr i) = Fin (to_R (DECJ (psr_at psr i))).
Proof.
  intros Hall Hi. rewrite Forall_forall in Hall.
  destruct (Hall (psr_at psr i)) as [Hra Hdec]; [now apply nth_In |].
  destruct (RAJ (psr_at psr i)), (DECJ (psr_at psr i)); simpl in *; try discriminate.
  now split.
Qed.

(** The buffer of a pulsar at a finite position holds its sky direction. *)
Lemma phat_at_finite (psr : list pulsar) (i : nat) :
  Forall finite_position psr -> (i < length psr)%nat ->
  let '(p1, p2, p3) := skydir (psr_at psr i) in
  phat_at (map (fun p => RAJ p) psr) (map (fun p => np_pi / Fin 2 - DECJ p) psr) i
  = [Fin p1; Fin p2; Fin p3].
Proof.
  intros Hall Hi. unfold phat_at, skydir, direction.
  rewrite (get_map_psr (fun p => RAJ p)), (get_map_psr (fun p => np_pi / Fin 2 - DECJ p))
    by assumption.
  destruct (finite_position_at psr i Hall Hi) as [-> ->]. simpl to_R.
  unfold np_pi. rewrite np_div_nonzero by lra. autorewrite with np.
  rewrite (Rmult_comm (cos (to_R (RAJ (psr_at psr i))))).
  rewrite (Rmult_comm (sin (to_R (RAJ (psr_at psr i))))).
  reflexivity.
Qed.

Lemma arr_mul_comm (a b : array) : arr_mul a b = arr_mul b a.
Proof.
  revert b. induction a as [| x a IH]; intros [| y b]; simpl; trivial.
  now rewrite np_mul_comm, IH.
Qed.

Lemma orf_entry_sym (pphi ptheta : array) (i j : nat) :
  orf_entry pphi ptheta i j = orf_entry pphi ptheta j i.
Proof.
  unfold orf_entry. rewrite (Nat.eqb_sym j i).
  destruct (Nat.eqb i j); trivial.
  unfold orf_value. now rewrite arr_mul_comm.
Qed.

(** ** C1: the overlap reduction matrix *)

Lemma orf_value_xip (p q : array) :
  orf_value p q
  = Fin 3 * (Fin 1 / Fin 3 + orf_xip p q * (np_log (orf_xip p q) - Fin 1 / Fin 6)).
Proof. reflexivity. Qed.

(** The stored value of a pair for which [xip] came out positive. *)
Lemma orf_value_positive (p q : array) (x : R) :
  orf_xip p q = Fin x -> (0 < x)%R -> orf_value p q = Fin (orf_formula x).
Proof.
  intros Hx Hpos. rewrite orf_value_xip, Hx.
  rewrite np_log_pos by exact Hpos. rewrite !np_div_nonzero by lra.
  autorewrite with np. unfold orf_formula. reflexivity.
Qed.

Lemma phat_at_skydir (psr : list pulsar) (i : nat) :
  Forall finite_position psr -> (i < length psr)%nat ->
  phat_at (map (fun p => RAJ p) psr) (map (fun p => np_pi / Fin 2 - DECJ p) psr) i
  = arr3 (skydir (psr_at psr i)).
Proof.
  intros Hfin Hi. pose proof (phat_at_finite psr i Hfin Hi) as H.
  unfold arr3. now destruct (skydir (psr_at psr i)) as [[p1 p2] p3].
Qed.


Lemma skydir_equator : skydir psr_equator = (1, 0, 0)%R.
Proof.
  unfold skydir, psr_equator, direction. simpl.
  replace (PI / 2 - 0)%R with (PI / 2)%R by lra.
  rewrite sin_PI2, cos_PI2, sin_0, cos_0. repeat f_equal; lra.
Qed.

Lemma skydir_pole : skydir psr_pole = (0, 0, 1)%R.
Proof.
  unfold skydir, psr_pole, direction. simpl.
  replace (PI / 2 - PI / 2)%R with 0%R by lra.
  rewrite sin_0, cos_0. repeat f_equal; lra.
Qed.


(** ** The antenna pattern of add_cgw *)

Lemma N_dot3_fin (a1 a2 a3 b1 b2 b3 : R) :
  N_dot [Fin a1; Fin a2; Fin a3] [Fin b1; Fin b2; Fin b3]
  = Fin (dot3 (a1, a2, a3) (b1, b2, b3)).
Proof.
  unfold N_dot, N_sum, dot3. cbn [arr_mul fold_left]. autorewrite with np.
  f_equal. ring.
Qed.

(** The antenna factors at finite angles, before the divisions. *)
Lemma cgw_antenna_finite (psr : pulsar) (ra dec gt gp : R) :
  RAJ psr = Fin ra -> DECJ psr = Fin dec ->
  let p := direction ra dec in
  let dm := dot3 (basis_m gp) p in
  let dn := dot3 (basis_n gt gp) p in
  let dom := dot3 (propagation gt gp) p in
  cgw_antenna psr (Fin gt) (Fin gp)
  = (Fin (0.5 * (dm ^ 2 - dn ^ 2)) / Fin (1 + dom),
     Fin (dm * dn) / Fin (1 + dom),
     Fin (- dom)).
Proof.
  intros Hra Hdec p dm dn dom.
  unfold cgw_antenna, cgw_m, cgw_n, cgw_omhat, cgw_phat. rewrite Hra, Hdec.
  unfold np_pi. rewrite np_div_nonzero by lra. autorewrite with np.
  rewrite !N_dot3_fin. rewrite !np_pow_2. autorewrite with np.
  reflexivity.
Qed.

(** The three source vectors are orthonormal: the components of a
    vector along them carry its whole length. *)
Lemma basis_components (gt gp : R) (p : vec3) :
  ((dot3 (basis_m gp) p) ^ 2 + (dot3 (basis_n gt gp) p) ^ 2
   + (dot3 (propagation gt gp) p) ^ 2 = dot3 p p)%R.
Proof.
  destruct p as [[p1 p2] p3]. unfold basis_m, basis_n, propagation, dot3.
  pose proof (sin2_cos2 gt) as Ht. pose proof (sin2_cos2 gp) as Hp.
  unfold Rsqr in Ht, Hp.
  set (a := sin gt) in *. set (b := cos gt) in *.
  set (c := sin gp) in *. set (d := cos gp) in *.
  transitivity
    (((c * c + d * d) * (p1 * p1 + p2 * p2)
      + (a * a + b * b) * ((d * p1 + c * p2) * (d * p1 + c * p2) + p3 * p3)
      - (d * p1 + c * p2) * (d * p1 + c * p2)))%R.
  - ring.
  - rewrite Ht, Hp. ring.
Qed.

(** Where the denominator [1 + omhat . phat] vanishes, so do both
    numerators. *)
Lemma antenna_numerators_vanish (gt gp ra dec : R) :
  let p := direction ra dec in
  (1 + dot3 (propagation gt gp) p = 0)%R ->
  dot3 (basis_m gp) p = 0%R /\ dot3 (basis_n gt gp) p = 0%R.
Proof.
  intros p Hden.
  pose proof (basis_components gt gp p) as Hsum.
  unfold p in Hsum at 4 5. rewrite direction_unit in Hsum. fold p in Hsum.
  set (dm := dot3 (basis_m gp) p) in *. set (dn := dot3 (basis_n gt gp) p) in *.
  set (dom := dot3 (propagation gt gp) p) in *.
  assert (Hdom : dom = (-1)%R) by lra. rewrite Hdom in Hsum.
  assert (Hz : (dm * dm + dn * dn = 0)%R) by (simpl in Hsum; lra).
  pose proof (Rle_0_sqr dm) as H1. pose proof (Rle_0_sqr dn) as H2.
  unfold Rsqr in H1, H2. split; nra.
Qed.

Lemma np_div_0_0 (x y : R) : x = 0%R -> y = 0%R -> Fin x / Fin y = NaN.
Proof. intros -> ->. apply np_div_zero_zero. Qed.

(** With a vanishing denominator both antenna factors are [nan]. *)
Lemma cgw_antenna_singular (psr : pulsar) (ra dec gt gp : R) :
  RAJ psr = Fin ra -> DECJ psr = Fin dec ->
  (1 + dot3 (propagation gt gp) (direction ra dec) = 0)%R ->
  cgw_antenna psr (Fin gt) (Fin gp)
  = (NaN, NaN, Fin (- dot3 (propagation gt gp) (direction ra dec))).
Proof.
  intros Hra Hdec Hden.
  rewrite (cgw_antenna_finite psr ra dec gt gp Hra Hdec).
  destruct (antenna_numerators_vanish gt gp ra dec Hden) as [Hm Hn].
  rewrite Hm, Hn. rewrite !np_div_0_0; trivial; simpl; lra.
Qed.

(** [nan] antenna factors make the residual [nan], whatever the waveform. *)
Lemma cgw_combine_nan (psrTerm : bool) (r : npfloat * npfloat * npfloat * npfloat) :
  cgw_combine psrTerm NaN NaN r = NaN.
Proof.
  destruct r as [[[rplus rcross] rplus_p] rcross_p]. unfold cgw_combine.
  destruct psrTerm; now autorewrite with np.
Qed.

Lemma cgw_res_singular (psr : pulsar) (a : cgw_args) (cosMu : npfloat) :
  cgw_antenna psr (gwtheta a) (gwphi a) = (NaN, NaN, cosMu) ->
  cgw_res psr a = map (fun _ => NaN) (toas psr).
Proof.
  intros Hant. unfold cgw_res. apply map_ext. intros t.
  unfold cgw_res_at. rewrite Hant. apply cgw_combine_nan.
Qed.

Lemma propagation_polar : propagation 0 0 = (0, 0, -1)%R.
Proof.
  unfold propagation. rewrite sin_0, cos_0. repeat f_equal; lra.
Qed.

Lemma direction_pole (ra : R) : direction ra (PI / 2) = (0, 0, 1)%R.
Proof.
  unfold direction. replace (PI / 2 - PI / 2)%R with 0%R by lra.
  rewrite sin_0, cos_0. repeat f_equal; lra.
Qed.

Lemma direction_equator : direction 0 0 = (1, 0, 0)%R.
Proof. exact skydir_equator. Qed.

(** A source straight above a pulsar at the pole: the denominator is 0. *)
Lemma polar_denominator (ra : R) :
  (1 + dot3 (propagation 0 0) (direction ra (PI / 2)) = 0)%R.
Proof. rewrite propagation_polar, direction_pole. unfold dot3. lra. Qed.

Lemma arr_add_nan (a b : array) :
  length a = length b -> Forall (fun y => y = NaN) b ->
  arr_add a b = map (fun _ => NaN) a.
Proof.
  revert b. induction a as [| x a IH]; intros [| y b] Hlen Hall; simpl in *;
    try discriminate; trivial.
  inversion Hall as [| ? ? Hy Hb]; subst.
  rewrite np_add_nan_r. f_equal. apply IH; [lia | assumption].
Qed.

(** ** C5: the antenna factors *)

(** The four vectors of lines 304-325 at finite angles, and their scalar
    products with the pulsar direction. *)
Lemma cgw_vectors_finite (psr : pulsar) (ra dec gt gp : R) :
  RAJ psr = Fin ra -> DECJ psr = Fin dec ->
  cgw_phat psr = arr3 (direction ra dec)
  /\ cgw_m (Fin gp) = arr3 (basis_m gp)
  /\ cgw_n (Fin gt) (Fin gp) = arr3 (basis_n gt gp)
  /\ cgw_omhat (Fin gt) (Fin gp) = arr3 (propagation gt gp).
Proof.
  intros Hra Hdec. unfold cgw_phat, cgw_m, cgw_n, cgw_omhat. rewrite Hra, Hdec.
  unfold np_pi. rewrite np_div_nonzero by lra. autorewrite with np.
  unfold arr3, direction, basis_m, basis_n, propagation. repeat split.
Qed.

Lemma cgw_dots_finite (psr : pulsar) (ra dec gt gp : R) :
  RAJ psr = Fin ra -> DECJ psr = Fin dec ->
  N_dot (cgw_m (Fin gp)) (cgw_phat psr) = Fin (dot3 (basis_m gp) (direction ra dec))
  /\ N_dot (cgw_n (Fin gt) (Fin gp)) (cgw_phat psr)
     = Fin (dot3 (basis_n gt gp) (direction ra dec))
  /\ N_dot (cgw_omhat (Fin gt) (Fin gp)) (cgw_phat psr)
     = Fin (dot3 (propagation gt gp) (direction ra dec)).
Proof.
  intros Hra Hdec.
  destruct (cgw_vectors_finite psr ra dec gt gp Hra Hdec) as (-> & -> & -> & ->).
  unfold arr3, direction, basis_m, basis_n, propagation.
  rewrite !N_dot3_fin. repeat split.
Qed.



(** ** C2 and C8: a vanishing antenna denominator *)

(** C2, as the code has it.  With [gwtheta = 0], [gwphi = 0] and a pulsar
    at polar angle 0 ([DECJ = pi/2]) the numerators of the antenna
    factors and their denominator [1 + omhat . phat] are all 0: [f_plus]
    and [f_cross] are both [nan] (0/0) and the residual is [nan] at
    every epoch, with or without the pulsar term. *)
Theorem add_cgw_source_above_pulsar (psr : pulsar) (a : cgw_args) (ra : R) :
  RAJ psr = Fin ra -> DECJ psr = Fin (PI / 2) ->
  gwtheta a = Fin 0 -> gwphi a = Fin 0 ->
  cgw_antenna psr (gwtheta a) (gwphi a) = (NaN, NaN, Fin 1)
  /\ cgw_res psr a = map (fun _ => NaN) (toas psr).
Proof.
  intros Hra Hdec Hgt Hgp.
  assert (Hant : cgw_antenna psr (gwtheta a) (gwphi a) = (NaN, NaN, Fin 1)).
  { rewrite Hgt, Hgp.
    rewrite (cgw_antenna_singular psr ra (PI / 2) 0 0 Hra Hdec (polar_denominator ra)).
    rewrite propagation_polar, direction_pole. unfold dot3.
    repeat f_equal. lra. }
  split; [exact Hant |]. exact (cgw_res_singular psr a (Fin 1) Hant).
Qed.

Lemma add_cgw_source_above_pulsar_witness :
  cgw_antenna psr_pole (gwtheta cgw_polar) (gwphi cgw_polar) = (NaN, NaN, Fin 1)
  /\ cgw_res psr_pole cgw_polar = map (fun _ => NaN) (toas psr_pole).
Proof.
  apply (add_cgw_source_above_pulsar psr_pole cgw_polar 0); reflexivity.
Defined.

(** C2 fails as stated: at that very configuration the antenna factors
    are not 0 and the residual is not 0. *)
Lemma add_cgw_polar_not_zero :
  fst (fst (cgw_antenna psr_pole (Fin 0) (Fin 0))) <> Fin 0
  /\ snd (fst (cgw_antenna psr_pole (Fin 0) (Fin 0))) <> Fin 0
  /\ ~ Forall (fun r => r = Fin 0) (cgw_res psr_pole cgw_polar).
Proof.
  pose proof (cgw_antenna_singular psr_pole 0 (PI / 2) 0 0 eq_refl eq_refl
                (polar_denominator 0)) as Hant.
  rewrite (cgw_res_singular psr_pole cgw_polar _ Hant). rewrite Hant. simpl.
  repeat split; try discriminate.
  intros Hall. inversion Hall as [| ? ? Hr _]. discriminate Hr.
Qed.

(** A value that is not finite stays so through the arithmetic. *)
Lemma div_zero_not_finite (a : npfloat) : is_finite (a / Fin 0) = false.
Proof.
  destruct a as [x | | |]; unfold np_div; rewrite ?Rsign_zero; trivial.
  now destruct (Rsign x).
Qed.

Lemma mul_not_finite_l (a b : npfloat) :
  is_finite a = false -> is_finite (a * b) = false.
Proof.
  destruct a as [x | | |], b as [y | | |]; try discriminate; intros _; trivial;
    unfold np_mul, inf_scaled; now destruct (Rsign y).
Qed.

Lemma opp_not_finite (a : npfloat) : is_finite a = false -> is_finite (- a) = false.
Proof. now destruct a. Qed.

Lemma add_not_finite (a b : npfloat) :
  is_finite a = false \/ is_finite b = false -> is_finite (a + b) = false.
Proof.
  destruct a as [x | | |], b as [y | | |]; intros [H | H]; try discriminate; trivial.
Qed.

Lemma div_not_finite_l (a b : npfloat) :
  is_finite a = false -> is_finite (a / b) = false.
Proof.
  destruct a as [x | | |], b as [y | | |]; try discriminate; intros _; trivial;
    unfold np_div; now destruct (Rsign y).
Qed.

Lemma cgw_combine_not_finite (psrTerm : bool) (fplus fcross : npfloat)
    (r : npfloat * npfloat * npfloat * npfloat) :
  is_finite fplus = false -> is_finite fcross = false ->
  is_finite (cgw_combine psrTerm fplus fcross r) = false.
Proof.
  intros Hp Hc. destruct r as [[[rplus rcross] rplus_p] rcross_p].
  unfold cgw_combine. destruct psrTerm.
  - apply add_not_finite. left. now apply mul_not_finite_l.
  - unfold np_sub. apply add_not_finite. left.
    apply mul_not_finite_l. now apply opp_not_finite.
Qed.

Lemma arr_add_not_finite (a b : array) :
  Forall (fun y => is_finite y = false) b ->
  Forall (fun s => is_finite s = false) (arr_add a b).
Proof.
  intros Hb. revert a. induction Hb as [| y b Hy Hb IH]; intros [| x a]; cbn [arr_add];
    constructor; [apply add_not_finite; now right | apply IH].
Qed.

(** A source straight above a pulsar at the pole: the denominator the
    code computes is 0. *)
Lemma polar_computed_denominator :
  Fin 1 + N_dot (cgw_omhat (Fin 0) (Fin 0)) (cgw_phat psr_pole) = Fin 0.
Proof.
  destruct (cgw_dots_finite psr_pole 0 (PI / 2) 0 0 eq_refl eq_refl) as (_ & _ & ->).
  rewrite propagation_polar, direction_pole. unfold dot3. autorewrite with np.
  f_equal. lra.
Qed.

(** C8, as the code has it.  Where the denominator [1 + omhat . phat]
    comes out as 0 the generator makes no test of it: both antenna
    factors are quotients by zero, hence not finite ([inf] or [nan]),
    so is the residual of every epoch, and a call that returns has
    stored a value that is not finite in every site arrival time. *)
Theorem add_cgw_singular_silent (psr : pulsar) (a : cgw_args) :
  Fin 1 + N_dot (cgw_omhat (gwtheta a) (gwphi a)) (cgw_phat psr) = Fin 0 ->
  is_finite (fst (fst (cgw_antenna psr (gwtheta a) (gwphi a)))) = false
  /\ is_finite (snd (fst (cgw_antenna psr (gwtheta a) (gwphi a)))) = false
  /\ Forall (fun r => is_finite r = false) (cgw_res psr a)
  /\ forall psr', add_cgw psr a = Ok psr' ->
       Forall (fun s => is_finite s = false) (stoas psr').
Proof.
  intros Hden.
  assert (Hant : is_finite (fst (fst (cgw_antenna psr (gwtheta a) (gwphi a)))) = false
                 /\ is_finite (snd (fst (cgw_antenna psr (gwtheta a) (gwphi a)))) = false).
  { unfold cgw_antenna. cbn [fst snd]. rewrite Hden.
    split; apply div_zero_not_finite. }
  destruct Hant as [Hp Hc].
  assert (Hres : Forall (fun r => is_finite r = false) (cgw_res psr a)).
  { unfold cgw_res. rewrite Forall_forall. intros r Hr. apply in_map_iff in Hr.
    destruct Hr as (t & <- & _). unfold cgw_res_at.
    destruct (cgw_antenna psr (gwtheta a) (gwphi a)) as [[fp fc] cm].
    now apply cgw_combine_not_finite. }
  split; [exact Hp |]. split; [exact Hc |]. split; [exact Hres |].
  assert (Hday : Forall (fun y => is_finite y = false)
                   (map (fun r => r / Fin 86400) (cgw_res psr a))).
  { rewrite Forall_forall in *. intros y Hy. apply in_map_iff in Hy.
    destruct Hy as (r & <- & Hr). apply div_not_finite_l. now apply Hres. }
  intros psr' Hrun. unfold add_cgw, iadd in Hrun.
  destruct (Nat.eqb _ _).
  - cbn [bind] in Hrun. injection Hrun as <-. cbn [stoas].
    now apply arr_add_not_finite.
  - destruct (map (fun r => r / Fin 86400) (cgw_res psr a)) as [| y [| z l]];
      try discriminate.
    cbn [bind] in Hrun. injection Hrun as <-. cbn [stoas].
    inversion Hday as [| ? ? Hy _]; subst.
    rewrite Forall_forall. intros s Hs. apply in_map_iff in Hs.
    destruct Hs as (x & <- & _). apply add_not_finite. now right.
Qed.

Lemma add_cgw_singular_silent_witness :
  is_finite (fst (fst (cgw_antenna psr_pole (gwtheta cgw_polar) (gwphi cgw_polar)))) = false
  /\ is_finite (snd (fst (cgw_antenna psr_pole (gwtheta cgw_polar) (gwphi cgw_polar))))
     = false
  /\ Forall (fun r => is_finite r = false) (cgw_res psr_pole cgw_polar)
  /\ forall psr', add_cgw psr_pole cgw_polar = Ok psr' ->
       Forall (fun s => is_finite s = false) (stoas psr').
Proof.
  apply (add_cgw_singular_silent psr_pole cgw_polar).
  exact polar_computed_denominator.
Defined.

(** C8 fails as stated: with the pulsar exactly opposite to the
    propagation direction the call raises nothing and stores [nan]. *)
Lemma add_cgw_antialigned_returns :
  Fin 1 + N_dot (cgw_omhat (Fin 0) (Fin 0)) (cgw_phat psr_pole) = Fin 0
  /\ (forall e, add_cgw psr_pole cgw_polar <> Raise e)
  /\ exists psr', add_cgw psr_pole cgw_polar = Ok psr' /\ stoas psr' = [NaN].
Proof.
  pose proof (cgw_antenna_singular psr_pole 0 (PI / 2) 0 0 eq_refl eq_refl
                (polar_denominator 0)) as Hant.
  assert (Hadd : add_cgw psr_pole cgw_polar
                 = Ok (mkPulsar "NP" (Fin 0) (Fin (PI / 2)) [Fin 53005] [NaN])).
  { unfold add_cgw. rewrite (cgw_res_singular psr_pole cgw_polar _ Hant). simpl.
    unfold iadd. simpl. now autorewrite with np. }
  split; [| split].
  - unfold cgw_omhat, cgw_phat, psr_pole. cbn [RAJ DECJ].
    unfold np_pi. rewrite np_div_nonzero by lra. autorewrite with np.
    rewrite N_dot3_fin. autorewrite with np. f_equal.
    replace (PI / 2 - PI / 2)%R with 0%R by lra.
    rewrite sin_0, cos_0. unfold dot3. lra.
  - intros e. rewrite Hadd. discriminate.
  - eexists. split; [exact Hadd | reflexivity].
Qed.

(** ** C3: the evolution policies *)

(** C3.  Every call applies exactly one of three evolution policies,
    selected by [evolve] and [phase_approx]: chirped frequency and phase
    at observer and pulsar when [evolve] is set; the observer frequency
    held at [w0] and the pulsar-term frequency chirped when only
    [phase_approx] is set; and [omega_p = omega = pi fgw] with phases
    linear in time when both are off. *)
Theorem cgw_state_policy (psr : pulsar) (a : cgw_args) (t : npfloat) :
  let cosMu := snd (cgw_antenna psr (gwtheta a) (gwphi a)) in
  let s := cgw_prepare a cosMu in
  let toas := t * Fin 86400 - tref a in
  let tp := toas - s_pd s * (Fin 1 - cosMu) in
  cgw_state_at psr a t =
  match policy_of_flags (evolve a) (phase_approx a) with
  | FullEvolution =>
      let omega := chirp_omega (s_w0 s) (s_fac1 s) toas in
      let omega_p := chirp_omega (s_w0 s) (s_fac1 s) tp in
      (omega, omega_p,
       chirp_phase (s_phase0 s) (s_fac2 s) (s_w053 s) omega,
       chirp_phase (s_phase0 s) (s_fac2 s) (s_w053 s) omega_p)
  | PhaseApproximation =>
      let omega_p :=
        s_w0 s * (Fin 1 + s_fac1 s * s_pd s * (Fin 1 - cosMu)) ** Fin (-3 / 8) in
      (s_w0 s, omega_p, s_phase0 s + s_w0 s * toas,
       chirp_phase (s_phase0 s) (s_fac2 s) (s_w053 s) omega_p + omega_p * toas)
  | Monochromatic =>
      let omega := np_pi * fgw a in
      (omega, omega, phase0 a / Fin 2 + omega * toas, phase0 a / Fin 2 + omega * tp)
  end.
Proof.
  unfold cgw_state_at.
  destruct (cgw_antenna psr (gwtheta a) (gwphi a)) as [[fplus fcross] cosMu].
  cbn [snd]. unfold cgw_evolution, policy_of_flags.
  destruct (evolve a), (phase_approx a); try reflexivity.
Qed.

(** ** C4: the residual with and without the pulsar term *)

Lemma get_map (f : npfloat -> npfloat) (l : array) (i : nat) :
  (i < length l)%nat -> get (map f l) i = f (get l i).
Proof.
  intros Hi. unfold get.
  rewrite (nth_indep _ NaN (f NaN)) by (now rewrite length_map).
  apply map_nth.
Qed.

Lemma get_arr_add (a b : array) (i : nat) :
  length a = length b -> (i < length a)%nat ->
  get (arr_add a b) i = get a i + get b i.
Proof.
  revert b i. induction a as [| x a IH]; intros [| y b] i Hlen Hi; simpl in *;
    try discriminate; try lia.
  destruct i as [| i]; [reflexivity |].
  exact (IH b i ltac:(lia) ltac:(lia)).
Qed.

(** C4.  With the pulsar term the residual at each epoch is
    [fplus (rplus_p - rplus) + fcross (rcross_p - rcross)]; without it,
    [- fplus rplus - fcross rcross]; and a call that returns has added a
    day-based copy of it to the pulsar's site arrival time of that
    epoch. *)
Theorem add_cgw_residual (psr : pulsar) (a : cgw_args) (i : nat) :
  (i < length (toas psr))%nat -> length (stoas psr) = length (toas psr) ->
  let t := get (toas psr) i in
  let fplus := fst (fst (cgw_antenna psr (gwtheta a) (gwphi a))) in
  let fcross := snd (fst (cgw_antenna psr (gwtheta a) (gwphi a))) in
  let rplus := fst (fst (fst (cgw_waves_at psr a t))) in
  let rcross := snd (fst (fst (cgw_waves_at psr a t))) in
  let rplus_p := snd (fst (cgw_waves_at psr a t)) in
  let rcross_p := snd (cgw_waves_at psr a t) in
  let res_i :=
    if psrTerm a
    then fplus * (rplus_p - rplus) + fcross * (rcross_p - rcross)
    else - fplus * rplus - fcross * rcross in
  get (cgw_res psr a) i = res_i
  /\ forall psr', add_cgw psr a = Ok psr' ->
       get (stoas psr') i = get (stoas psr) i + res_i / Fin 86400.
Proof.
  intros Hi Hlen t fplus fcross rplus rcross rplus_p rcross_p res_i.
  assert (Hres : get (cgw_res psr a) i = res_i).
  { unfold cgw_res. rewrite get_map by assumption. fold t.
    unfold cgw_res_at, res_i, fplus, fcross, rplus, rcross, rplus_p, rcross_p.
    destruct (cgw_antenna psr (gwtheta a) (gwphi a)) as [[fp fc] cosMu].
    destruct (cgw_waves_at psr a t) as [[[rp rc] rpp] rcp]. reflexivity. }
  split; [exact Hres |]. intros psr' Hrun.
  unfold add_cgw, iadd in Hrun. rewrite length_map in Hrun.
  assert (Hl : length (cgw_res psr a) = length (stoas psr)).
  { unfold cgw_res. rewrite length_map. now symmetry. }
  rewrite (proj2 (Nat.eqb_eq _ _) Hl) in Hrun. cbn [bind] in Hrun.
  injection Hrun as <-.
  cbn [stoas]. rewrite get_arr_add by (rewrite ?length_map; lia).
  rewrite get_map by lia. now rewrite Hres.
Qed.

Lemma add_cgw_residual_witness :
  let psr := psr_equator in
  let a := cgw_polar in
  let t := get (toas psr) 0 in
  let fplus := fst (fst (cgw_antenna psr (gwtheta a) (gwphi a))) in
  let fcross := snd (fst (cgw_antenna psr (gwtheta a) (gwphi a))) in
  let rplus := fst (fst (fst (cgw_waves_at psr a t))) in
  let rcross := snd (fst (fst (cgw_waves_at psr a t))) in
  let res_0 := - fplus * rplus - fcross * rcross in
  (exists psr', add_cgw psr a = Ok psr')
  /\ get (cgw_res psr a) 0 = res_0
  /\ forall psr', add_cgw psr a = Ok psr' ->
       get (stoas psr') 0 = get (stoas psr) 0 + res_0 / Fin 86400.
Proof.
  split; [eexists; reflexivity |].
  apply (add_cgw_residual psr_equator cgw_polar 0); [simpl; lia | reflexivity].
Defined.

(** ** C7: coincident pulsars *)

Lemma np_mul_0_ninf : Fin 0 * NInf = NaN.
Proof. unfold np_mul, inf_scaled. now rewrite Rsign_zero. Qed.

(** The stored value of a pair whose directions have [xi = 0]. *)
Lemma orf_value_coincident (p q : vec3) :
  dot3 p q = 1%R ->
  let '(p1, p2, p3) := p in
  let '(q1, q2, q3) := q in
  orf_value [Fin p1; Fin p2; Fin p3] [Fin q1; Fin q2; Fin q3] = NaN.
Proof.
  destruct p as [[p1 p2] p3], q as [[q1 q2] q3]. unfold dot3. intros Heq.
  unfold orf_value, N_sum. cbn [arr_mul fold_left]. autorewrite with np.
  rewrite !np_div_nonzero by lra.
  replace ((1 - (0 + p1 * q1 + p2 * q2 + p3 * q3)) / 2)%R with 0%R by lra.
  rewrite np_log_zero.
  replace (NInf - Fin (1 / 6)) with NInf by reflexivity.
  rewrite np_mul_0_ninf. now autorewrite with np.
Qed.

(** The stored value of a pair whose [xip] came out as 0. *)
Lemma orf_value_zero (p q : array) : orf_xip p q = Fin 0 -> orf_value p q = NaN.
Proof.
  intros Hx. rewrite orf_value_xip, Hx. rewrite np_log_zero.
  replace (NInf - Fin 1 / Fin 6) with NInf
    by (rewrite np_div_nonzero by lra; reflexivity).
  rewrite np_mul_0_ninf. now autorewrite with np.
Qed.

(** C7, as the code has it.  For two pulsars at one sky position the
    construction detects nothing and raises nothing: it returns the
    N x N matrix, and the entry of the pair is the value of
    [3 (1/3 + xip (log xip - 1/6))] as numpy evaluates it at the [xip]
    it computed from the one direction taken twice; where that [xip] is
    exactly 0 the entry is [nan] (0 times minus infinity). *)
Theorem computeORFMatrix_coincident (psr : list pulsar) (i j : nat) :
  (i < length psr)%nat -> (j < length psr)%nat -> i <> j ->
  RAJ (psr_at psr i) = RAJ (psr_at psr j) ->
  DECJ (psr_at psr i) = DECJ (psr_at psr j) ->
  let pphi := map (fun p => RAJ p) psr in
  let ptheta := map (fun p => np_pi / Fin 2 - DECJ p) psr in
  let phat := phat_at pphi ptheta i in
  let M := computeORFMatrix psr in
  shape (length psr) (length psr) M
  /\ phat_at pphi ptheta j = phat
  /\ mat_get M i j
     = Fin 3 * (Fin 1 / Fin 3
                + orf_xip phat phat * (np_log (orf_xip phat phat) - Fin 1 / Fin 6))
  /\ mat_get M j i = mat_get M i j
  /\ (orf_xip phat phat = Fin 0 -> mat_get M i j = NaN).
Proof.
  intros Hi Hj Hne Hra Hdec pphi ptheta phat M. subst M.
  destruct (computeORFMatrix_entries psr) as [Hshape Hget].
  fold pphi ptheta in Hget.
  assert (Hsame : phat_at pphi ptheta j = phat).
  { unfold phat, phat_at, pphi, ptheta.
    rewrite !(get_map_psr (fun p => RAJ p)) by assumption.
    rewrite !(get_map_psr (fun p => np_pi / Fin 2 - DECJ p)) by assumption.
    now rewrite Hra, Hdec. }
  assert (Hij : mat_get (computeORFMatrix psr) i j = orf_value phat phat).
  { rewrite Hget by assumption. unfold orf_entry.
    rewrite (proj2 (Nat.eqb_neq i j) Hne). fold phat. now rewrite Hsame. }
  split; [exact Hshape |]. split; [exact Hsame |].
  split; [rewrite Hij; apply orf_value_xip |]. split.
  - rewrite !Hget by assumption. apply orf_entry_sym.
  - intros Hx. rewrite Hij. now apply orf_value_zero.
Qed.

Lemma computeORFMatrix_coincident_witness :
  let psr := [psr_pole; psr_pole] in
  let pphi := map (fun p => RAJ p) psr in
  let ptheta := map (fun p => np_pi / Fin 2 - DECJ p) psr in
  let phat := phat_at pphi ptheta 0 in
  let M := computeORFMatrix psr in
  shape 2 2 M
  /\ phat_at pphi ptheta 1 = phat
  /\ mat_get M 0 1
     = Fin 3 * (Fin 1 / Fin 3
                + orf_xip phat phat * (np_log (orf_xip phat phat) - Fin 1 / Fin 6))
  /\ mat_get M 1 0 = mat_get M 0 1
  /\ (orf_xip phat phat = Fin 0 -> mat_get M 0 1 = NaN).
Proof.
  apply (computeORFMatrix_coincident [psr_pole; psr_pole] 0 1);
    try (simpl; lia); reflexivity.
Defined.

(** C7 fails as stated: no input makes the construction raise; for two
    pulsars at one position a matrix comes back with a [nan] in it. *)
Lemma computeORFMatrix_coincident_nan :
  skydir (psr_at [psr_pole; psr_pole] 0) = skydir (psr_at [psr_pole; psr_pole] 1)
  /\ exists M : matrix,
       computeORFMatrix [psr_pole; psr_pole] = M
       /\ is_finite (mat_get M 0 1) = false.
Proof.
  split; [reflexivity |]. eexists. split; [reflexivity |].
  destruct (computeORFMatrix_entries [psr_pole; psr_pole]) as [_ Hget].
  rewrite Hget by (simpl; lia). unfold orf_entry. cbn [Nat.eqb].
  assert (Hfin : Forall finite_position [psr_pole; psr_pole]) by (repeat constructor).
  pose proof (phat_at_finite [psr_pole; psr_pole] 0 Hfin ltac:(simpl; lia)) as H0.
  pose proof (phat_at_finite [psr_pole; psr_pole] 1 Hfin ltac:(simpl; lia)) as H1.
  assert (Hone : dot3 (skydir psr_pole) (skydir psr_pole) = 1%R) by apply direction_unit.
  pose proof (orf_value_coincident _ _ Hone) as Hval.
  unfold psr_at in H0, H1. cbn [nth] in H0, H1.
  destruct (skydir psr_pole) as [[p1 p2] p3].
  now rewrite H0, H1, Hval.
Qed.

(** ** The time span of createGWB_clean *)

Lemma np_ltb_fin (x y : R) : (Fin x <? Fin y) = true <-> (x < y)%R.
Proof.
  unfold np_ltb. destruct (Rlt_dec x y); split; trivial; try discriminate; contradiction.
Qed.

Lemma np_minimum_fin (x y : R) : np_minimum (Fin x) (Fin y) = Fin (Rmin x y).
Proof.
  unfold np_minimum, np_ltb, Rmin. simpl.
  destruct (Rlt_dec y x), (Rle_dec x y); trivial; try lra; f_equal; lra.
Qed.

Lemma np_maximum_fin (x y : R) : np_maximum (Fin x) (Fin y) = Fin (Rmax x y).
Proof.
  unfold np_maximum, np_ltb, Rmax. simpl.
  destruct (Rlt_dec x y), (Rle_dec x y); trivial; try lra; f_equal; lra.
Qed.

Lemma fold_minimum_spec (l : array) (x : R) :
  Forall (fun t => is_finite t = true) l ->
  exists m : R,
    fold_left np_minimum l (Fin x) = Fin m
    /\ (m <= x)%R /\ (forall t, In t l -> (m <= to_R t)%R)
    /\ (m = x \/ In (Fin m) l).
Proof.
  revert x. induction l as [| t l IH]; intros x Hfin.
  - exists x. simpl. split; [reflexivity |]. split; [lra |].
    split; [intros t [] | now left].
  - inversion Hfin as [| ? ? Ht Hl]; subst.
    destruct t as [y | | |]; try discriminate. cbn [fold_left].
    rewrite np_minimum_fin.
    destruct (IH (Rmin x y) Hl) as (m & Hfold & Hle & Hall & Hin).
    exists m. split; [exact Hfold |].
    pose proof (Rmin_l x y). pose proof (Rmin_r x y).
    split; [lra |]. split.
    + intros t [<- | Ht']; [simpl; lra | now apply Hall].
    + destruct Hin as [-> | Hin]; [| right; now right].
      unfold Rmin. destruct (Rle_dec x y); [now left | right; now left].
Qed.

Lemma fold_maximum_spec (l : array) (x : R) :
  Forall (fun t => is_finite t = true) l ->
  exists m : R,
    fold_left np_maximum l (Fin x) = Fin m
    /\ (x <= m)%R /\ (forall t, In t l -> (to_R t <= m)%R)
    /\ (m = x \/ In (Fin m) l).
Proof.
  revert x. induction l as [| t l IH]; intros x Hfin.
  - exists x. simpl. split; [reflexivity |]. split; [lra |].
    split; [intros t [] | now left].
  - inversion Hfin as [| ? ? Ht Hl]; subst.
    destruct t as [y | | |]; try discriminate. cbn [fold_left].
    rewrite np_maximum_fin.
    destruct (IH (Rmax x y) Hl) as (m & Hfold & Hle & Hall & Hin).
    exists m. split; [exact Hfold |].
    pose proof (Rmax_l x y). pose proof (Rmax_r x y).
    split; [lra |]. split.
    + intros t [<- | Ht']; [simpl; lra | now apply Hall].
    + destruct Hin as [-> | Hin]; [| right; now right].
      unfold Rmax. destruct (Rle_dec x y); [right; now left | now left].
Qed.

(** The minimum of a non-empty array of finite values. *)
Lemma arr_min_spec (l : array) :
  l <> [] -> Forall (fun t => is_finite t = true) l ->
  exists m : R,
    arr_min l = Ok (Fin m)
    /\ (forall t, In t l -> (m <= to_R t)%R) /\ In (Fin m) l.
Proof.
  intros Hne Hfin. destruct l as [| t l]; [contradiction |].
  inversion Hfin as [| ? ? Ht Hl]; subst.
  destruct t as [x | | |]; try discriminate.
  destruct (fold_minimum_spec l x Hl) as (m & Hfold & Hle & Hall & Hin).
  exists m. simpl. rewrite Hfold. split; [reflexivity |]. split.
  - intros t [<- | Ht']; [simpl; lra | now apply Hall].
  - destruct Hin as [-> | Hin]; [now left | now right].
Qed.

Lemma arr_max_spec (l : array) :
  l <> [] -> Forall (fun t => is_finite t = true) l ->
  exists m : R,
    arr_max l = Ok (Fin m)
    /\ (forall t, In t l -> (to_R t <= m)%R) /\ In (Fin m) l.
Proof.
  intros Hne Hfin. destruct l as [| t l]; [contradiction |].
  inversion Hfin as [| ? ? Ht Hl]; subst.
  destruct t as [x | | |]; try discriminate.
  destruct (fold_maximum_spec l x Hl) as (m & Hfold & Hle & Hall & Hin).
  exists m. simpl. rewrite Hfold. split; [reflexivity |]. split.
  - intros t [<- | Ht']; [simpl; lra | now apply Hall].
  - destruct Hin as [-> | Hin]; [now left | now right].
Qed.

Lemma mapM_spec {A B : Type} (f : A -> result B) (P : A -> B -> Prop) (l : list A) :
  (forall x, In x l -> exists y, f x = Ok y /\ P x y) ->
  exists ys, mapM f l = Ok ys /\ Forall2 P l ys.
Proof.
  induction l as [| x l IH]; intros H.
  - exists []. split; [reflexivity | constructor].
  - destruct (H x (or_introl eq_refl)) as (y & Hy & HP).
    destruct IH as (ys & Hys & Hall); [intros z Hz; apply H; now right |].
    exists (y :: ys). simpl. rewrite Hy. simpl. rewrite Hys. simpl.
    split; [reflexivity | now constructor].
Qed.

Lemma Forall2_in_left {A B : Type} (P : A -> B -> Prop) (l : list A) (ys : list B) (x : A) :
  Forall2 P l ys -> In x l -> exists y, In y ys /\ P x y.
Proof.
  induction 1 as [| a b l ys Hab Hall IH]; intros Hin; [contradiction |].
  destruct Hin as [<- | Hin].
  - exists b. split; [now left | assumption].
  - destruct (IH Hin) as (y & Hy & HP). exists y. split; [now right | assumption].
Qed.

Lemma Forall2_in_right {A B : Type} (P : A -> B -> Prop) (l : list A) (ys : list B) (y : B) :
  Forall2 P l ys -> In y ys -> exists x, In x l /\ P x y.
Proof.
  induction 1 as [| a b l ys Hab Hall IH]; intros Hin; [contradiction |].
  destruct Hin as [<- | Hin].
  - exists a. split; [now left | assumption].
  - destruct (IH Hin) as (x & Hx & HP). exists x. split; [now right | assumption].
Qed.

(** Lines 434-436 on pulsars with finite epochs: [start] is the smallest
    epoch in seconds less one day, [stop] the largest plus one day. *)
Lemma gwb_span_spec (psr : list pulsar) :
  psr <> [] -> Forall finite_epochs psr ->
  exists lo hi : R,
    gwb_span psr = Ok (Fin (lo - 86400), Fin (hi + 86400))
    /\ min_epoch psr lo /\ max_epoch psr hi.
Proof.
  intros Hne Hfin. rewrite Forall_forall in Hfin.
  set (Pmin := fun (p : pulsar) (v : npfloat) =>
         exists m : R, v = Fin (m * 86400)
           /\ (forall t, In t (toas p) -> (m <= to_R t)%R) /\ In (Fin m) (toas p)).
  set (Pmax := fun (p : pulsar) (v : npfloat) =>
         exists m : R, v = Fin (m * 86400)
           /\ (forall t, In t (toas p) -> (to_R t <= m)%R) /\ In (Fin m) (toas p)).
  destruct (mapM_spec (fun p => m <- arr_min (toas p) ;; Ok (m * Fin 86400)) Pmin psr)
    as (los & Hlos & Hlos2).
  { intros p Hp. destruct (Hfin p Hp) as [Hn Hf].
    destruct (arr_min_spec (toas p) Hn Hf) as (m & Hm & Hle & Hin).
    exists (Fin (m * 86400)). rewrite Hm. split; [reflexivity |]. now exists m. }
  destruct (mapM_spec (fun p => m <- arr_max (toas p) ;; Ok (m * Fin 86400)) Pmax psr)
    as (his & Hhis & Hhis2).
  { intros p Hp. destruct (Hfin p Hp) as [Hn Hf].
    destruct (arr_max_spec (toas p) Hn Hf) as (m & Hm & Hle & Hin).
    exists (Fin (m * 86400)). rewrite Hm. split; [reflexivity |]. now exists m. }
  assert (Hlos_ne : los <> []).
  { intros ->. inversion Hlos2. subst. now apply Hne. }
  assert (Hhis_ne : his <> []).
  { intros ->. inversion Hhis2. subst. now apply Hne. }
  assert (Hlos_fin : Forall (fun t => is_finite t = true) los).
  { rewrite Forall_forall. intros v Hv.
    destruct (Forall2_in_right _ _ _ _ Hlos2 Hv) as (p & _ & m & -> & _). reflexivity. }
  assert (Hhis_fin : Forall (fun t => is_finite t = true) his).
  { rewrite Forall_forall. intros v Hv.
    destruct (Forall2_in_right _ _ _ _ Hhis2 Hv) as (p & _ & m & -> & _). reflexivity. }
  destruct (arr_min_spec los Hlos_ne Hlos_fin) as (lo & Hlo & Hlo_le & Hlo_in).
  destruct (arr_max_spec his Hhis_ne Hhis_fin) as (hi & Hhi & Hhi_le & Hhi_in).
  exists lo, hi. split; [| split].
  - unfold gwb_span. rewrite Hlos. cbn [bind]. rewrite Hlo. cbn [bind].
    rewrite Hhis. cbn [bind]. rewrite Hhi. cbn [bind]. reflexivity.
  - split.
    + intros p t Hp Ht.
      destruct (Forall2_in_left _ _ _ _ Hlos2 Hp) as (v & Hv & m & -> & Hm & _).
      specialize (Hlo_le _ Hv). specialize (Hm _ Ht). simpl in Hlo_le. lra.
    + destruct (Forall2_in_right _ _ _ _ Hlos2 Hlo_in) as (p & Hp & m & Heq & _ & Hin).
      exists p, (Fin m). inversion Heq. now repeat split.
  - split.
    + intros p t Hp Ht.
      destruct (Forall2_in_left _ _ _ _ Hhis2 Hp) as (v & Hv & m & -> & Hm & _).
      specialize (Hhi_le _ Hv). specialize (Hm _ Ht). simpl in Hhi_le. lra.
    + destruct (Forall2_in_right _ _ _ _ Hhis2 Hhi_in) as (p & Hp & m & Heq & _ & Hin).
      exists p, (Fin m). inversion Heq. now repeat split.
Qed.

(** ** The frequency grid of createGWB_clean *)

Lemma Rceil_bounds (x : R) : (x <= IZR (Rceil x) < x + 1)%R.
Proof.
  unfold Rceil. rewrite opp_IZR.
  destruct (base_Int_part (- x)) as [H1 H2]. lra.
Qed.

Lemma INR_to_nat (z : Z) : (0 <= z)%Z -> INR (Z.to_nat z) = IZR z.
Proof. intros H. rewrite INR_IZR_INZ. now rewrite Z2Nat.id. Qed.

Lemma get_map_seq (g : nat -> npfloat) (n i : nat) :
  (i < n)%nat -> get (map g (seq 0 n)) i = g i.
Proof.
  intros Hi. unfold get.
  rewrite (nth_indep _ NaN (g 0%nat)) by (now rewrite length_map, length_seq).
  rewrite map_nth. now rewrite seq_nth.
Qed.

(** Lines 460-462 for a positive duration [d], [npts = n] and
    [howml = h] with more than one grid point. *)
Lemma gwb_freqs_spec (d h : R) (n : Z) :
  (0 < d)%R -> (0 < n)%Z -> (0 < h)%R -> (2 < IZR n * h)%R ->
  let step := (1 / (d * h))%R in
  let nyquist := (1 / (2 * (d / IZR n)))%R in
  exists f : array,
    gwb_freqs (Fin d) (Fin d / Fin (IZR n)) (Fin h) = Ok f
    /\ length f = Z.to_nat (Rceil (IZR n * h / 2))
    /\ (2 <= length f)%nat
    /\ get f 0 = get f 1
    /\ (forall i, (1 <= i < length f)%nat -> get f i = Fin (INR i * step))
    /\ (forall i, (i < length f)%nat -> (to_R (get f i) < nyquist)%R)
    /\ (nyquist <= INR (length f) * step)%R.
Proof.
  intros Hd Hn Hh Hnh step nyquist.
  assert (Hn' : (0 < IZR n)%R) by (now apply IZR_lt).
  assert (Hdt : (0 < d / IZR n)%R) by (now apply Rdiv_lt_0_compat).
  assert (Hdh : (0 < d * h)%R) by (now apply Rmult_lt_0_compat).
  assert (Hstep : (0 < step)%R) by (unfold step; apply Rdiv_lt_0_compat; lra).
  assert (Hq : ((nyquist - 0) / step = IZR n * h / 2)%R).
  { unfold nyquist, step. field. repeat split; lra. }
  set (Nf := Z.to_nat (Rceil (IZR n * h / 2))).
  destruct (Rceil_bounds (IZR n * h / 2)) as [Hc1 Hc2].
  assert (Hc : (2 <= Rceil (IZR n * h / 2))%Z).
  { assert (H1 : (1 < Rceil (IZR n * h / 2))%Z) by (apply lt_IZR; lra). lia. }
  assert (HNf : (2 <= Nf)%nat) by (unfold Nf; lia).
  assert (HNfR : INR Nf = IZR (Rceil (IZR n * h / 2))).
  { unfold Nf. apply INR_to_nat. lia. }
  set (g := fun i : nat => Fin (0 + INR i * step)).
  assert (Hraw : N_arange (Fin 0) (Fin 1 / (Fin 2 * (Fin d / Fin (IZR n))))
                   (Fin 1 / (Fin d * Fin h)) = Ok (map g (seq 0 Nf))).
  { unfold N_arange. rewrite (np_div_nonzero d) by lra. autorewrite with np.
    rewrite !np_div_nonzero by lra. autorewrite with np.
    fold nyquist step. rewrite np_div_nonzero by lra. rewrite Hq. fold Nf.
    reflexivity. }
  exists (list_set 0 (g 1%nat) (map g (seq 0 Nf))).
  assert (Hlen : length (list_set 0 (g 1%nat) (map g (seq 0 Nf))) = Nf).
  { now rewrite length_list_set, length_map, length_seq. }
  split; [| split; [exact Hlen | split; [now rewrite Hlen |] ] ].
  - unfold gwb_freqs. rewrite Hraw. cbn [bind].
    destruct Nf as [| [| k]]; try lia. reflexivity.
  - assert (Hget : forall i, (1 <= i < Nf)%nat ->
               get (list_set 0 (g 1%nat) (map g (seq 0 Nf))) i = Fin (INR i * step)).
    { intros i Hi. unfold get. rewrite nth_list_set_neq by lia.
      fold (get (map g (seq 0 Nf)) i). rewrite get_map_seq by lia.
      unfold g. f_equal. lra. }
    assert (Hget0 : get (list_set 0 (g 1%nat) (map g (seq 0 Nf))) 0 = Fin (INR 1 * step)).
    { unfold get. rewrite nth_list_set_eq by (rewrite length_map, length_seq; lia).
      unfold g. f_equal. lra. }
    rewrite Hlen. split; [| split; [exact Hget | split] ].
    + rewrite Hget0. symmetry. apply Hget. lia.
    + intros i Hi.
      assert (Hi' : (INR i * step < nyquist)%R \/ i = 0%nat).
      { destruct i as [| i]; [now right | left].
        assert (Hle : (INR (S i) <= INR Nf - 1)%R).
        { replace 1%R with (INR 1) by reflexivity.
          rewrite <- minus_INR by lia. apply le_INR. lia. }
        assert (Hlt : (INR (S i) < (nyquist - 0) / step)%R) by (rewrite Hq; lra).
        apply (Rmult_lt_compat_r step) in Hlt; [| exact Hstep].
        replace ((nyquist - 0) / step * step)%R with nyquist in Hlt by (field; lra).
        exact Hlt. }
      destruct Hi' as [Hlt | ->].
      * destruct (Nat.eq_dec i 0) as [-> | Hne].
        -- rewrite Hget0. simpl to_R.
           assert (H1 : (INR 1 * step < nyquist)%R).
           { assert (Hlt1 : (INR 1 < (nyquist - 0) / step)%R) by (rewrite Hq; simpl; lra).
             apply (Rmult_lt_compat_r step) in Hlt1; [| exact Hstep].
             replace ((nyquist - 0) / step * step)%R with nyquist in Hlt1 by (field; lra).
             exact Hlt1. }
           exact H1.
        -- rewrite Hget by lia. exact Hlt.
      * rewrite Hget0. simpl to_R.
        assert (Hlt1 : (INR 1 < (nyquist - 0) / step)%R) by (rewrite Hq; simpl; lra).
        apply (Rmult_lt_compat_r step) in Hlt1; [| exact Hstep].
        replace ((nyquist - 0) / step * step)%R with nyquist in Hlt1 by (field; lra).
        exact Hlt1.
    + rewrite HNfR.
      assert (Hge : ((nyquist - 0) / step <= IZR (Rceil (IZR n * h / 2)))%R)
        by (rewrite Hq; lra).
      apply (Rmult_le_compat_r step) in Hge; [| lra].
      replace ((nyquist - 0) / step * step)%R with nyquist in Hge by (field; lra).
      exact Hge.
Qed.

(** ** The setup of createGWB_clean *)

Lemma min_le_max_epoch (psr : list pulsar) (lo hi : R) :
  min_epoch psr lo -> max_epoch psr hi -> (lo <= hi)%R.
Proof.
  intros [Hlo _] [Hhi (p & t & Hp & Ht & _)].
  specialize (Hlo p t Hp Ht). specialize (Hhi p t Hp Ht). lra.
Qed.

Section SetupProperties.

Variable cholesky : matrix -> result matrix.

(** Lines 431-465 for pulsars with finite epochs, [npts = n] and
    [howml = h]: the whole setup, as soon as the factorisation succeeds. *)
Lemma gwb_prepare_spec (psr : list pulsar) (a : gwb_args) (n : Z) (h : R) :
  psr <> [] -> Forall finite_epochs psr ->
  npts a = Some n -> (0 < n)%Z ->
  howml a = Fin h -> (0 < h)%R -> (2 < IZR n * h)%R ->
  exists lo hi : R,
    min_epoch psr lo /\ max_epoch psr hi
    /\ let start := (lo - 86400)%R in
       let stop := (hi + 86400)%R in
       let dur := (stop - start)%R in
       let ORF := if noCorr a then N_diag2 (length psr) else computeORFMatrix psr in
       forall M : matrix, cholesky ORF = Ok M ->
       exists f : array,
         gwb_prepare cholesky psr a
         = Ok (mkSetup (Fin start) (Fin stop) (Fin dur) n
                 (N_linspace (Fin start) (Fin stop) n) (Fin (dur / IZR n)) ORF f M)
         /\ (2 <= length f)%nat
         /\ get f 0 = get f 1
         /\ (forall i, (1 <= i < length f)%nat ->
               get f i = Fin (INR i * (1 / (dur * h))))
         /\ (forall i, (i < length f)%nat ->
               (to_R (get f i) < 1 / (2 * (dur / IZR n)))%R)
         /\ (1 / (2 * (dur / IZR n)) <= INR (length f) * (1 / (dur * h)))%R.
Proof.
  intros Hne Hfin Hnpts Hn Hhowml Hh Hnh.
  destruct (gwb_span_spec psr Hne Hfin) as (lo & hi & Hspan & Hlo & Hhi).
  exists lo, hi. split; [exact Hlo |]. split; [exact Hhi |].
  intros start stop dur ORF M HM.
  pose proof (min_le_max_epoch psr lo hi Hlo Hhi) as Hle.
  assert (Hdur : (0 < dur)%R) by (unfold dur, stop, start; lra).
  assert (Hn' : (0 < IZR n)%R) by (now apply IZR_lt).
  destruct (gwb_freqs_spec dur h n Hdur Hn Hh Hnh)
    as (f & Hf & _ & Hlen & H01 & Hgrid & Hnyq & Hlast).
  exists f. split; [| repeat split; assumption].
  unfold gwb_prepare. rewrite Hspan. cbn [bind].
  autorewrite with np. fold start stop dur.
  unfold gwb_npts. rewrite Hnpts. cbn [bind].
  rewrite Hhowml. rewrite Hf. cbn [bind]. fold ORF. rewrite HM. cbn [bind].
  rewrite np_div_nonzero by lra. reflexivity.
Qed.

End SetupProperties.

(** ** C6: the time span and the frequency grid *)


Lemma finite_epochs_inputs : Forall finite_epochs [psr_equator; psr_pole].
Proof.
  repeat constructor; try discriminate.
Qed.


(** ** C10: the epochs lie inside the time grid *)

Lemma last_list_set {A : Type} (k : nat) (v d : A) (l : list A) :
  length l = S k -> last (list_set k v l) d = v.
Proof.
  revert k. induction l as [| x l IH]; intros k Hlen; [discriminate |].
  destruct k as [| k].
  - destruct l; [reflexivity | discriminate].
  - simpl in Hlen. injection Hlen as Hlen. cbn [list_set].
    specialize (IH k Hlen). destruct l as [| y l]; [discriminate |].
    cbn [list_set] in *. destruct k; exact IH.
Qed.

Lemma hd_list_set {A : Type} (k : nat) (v d : A) (l : list A) :
  (1 <= k)%nat -> hd d (list_set k v l) = hd d l.
Proof.
  intros Hk. destruct k as [| k]; [lia |]. now destruct l.
Qed.

(** A grid of two points or more starts at [start] and ends at [stop]. *)
Lemma N_linspace_ends (a b : R) (n : Z) :
  (2 <= n)%Z ->
  hd NaN (N_linspace (Fin a) (Fin b) n) = Fin a
  /\ last (N_linspace (Fin a) (Fin b) n) NaN = Fin b
  /\ length (N_linspace (Fin a) (Fin b) n) = Z.to_nat n.
Proof.
  intros Hn. unfold N_linspace.
  destruct (Z.to_nat n) as [| [| k]] eqn:E; try lia.
  assert (Hn1 : IZR (n - 1) <> 0%R).
  { apply not_0_IZR. lia. }
  autorewrite with np. rewrite np_div_nonzero by exact Hn1.
  split; [| split].
  - rewrite hd_list_set by lia. cbn [seq map hd]. autorewrite with np.
    f_equal. simpl. ring.
  - apply last_list_set. now rewrite length_map, length_seq.
  - now rewrite length_list_set, length_map, length_seq.
Qed.

Lemma existsb_false {A : Type} (f : A -> bool) (l : list A) :
  (forall x, In x l -> f x = false) -> existsb f l = false.
Proof.
  induction l as [| x l IH]; intros H; [reflexivity |]. simpl.
  rewrite (H x (or_introl eq_refl)). apply IH. intros y Hy. apply H. now right.
Qed.

(** Points between the ends of a grid pass the bounds test. *)
Lemma out_of_bounds_inside (x x_new : array) (lo hi : R) :
  hd NaN x = Fin lo -> last x NaN = Fin hi ->
  (forall v, In v x_new -> exists r : R, v = Fin r /\ (lo <= r <= hi)%R) ->
  out_of_bounds x x_new = false.
Proof.
  intros Hhd Hlast Hin. unfold out_of_bounds. rewrite Hhd, Hlast.
  rewrite !existsb_false; trivial.
  - intros v Hv. destruct (Hin v Hv) as (r & -> & Hr).
    unfold np_ltb. destruct (Rlt_dec hi r); trivial. lra.
  - intros v Hv. destruct (Hin v Hv) as (r & -> & Hr).
    unfold np_ltb. destruct (Rlt_dec r lo); trivial. lra.
Qed.

(** C10.  For a non-empty list of pulsars with finite epochs every
    epoch, in seconds, lies strictly between [start] and [stop], the
    ends of the time grid, so the linear interpolation onto each
    pulsar's epochs passes its bounds test and returns. *)
Theorem gwb_epochs_inside_grid (cholesky : matrix -> result matrix)
    (interp_value : array -> array -> npfloat -> npfloat)
    (psr : list pulsar) (a : gwb_args) (n : Z) (h : R) :
  psr <> [] -> Forall finite_epochs psr ->
  npts a = Some n -> (2 <= n)%Z ->
  howml a = Fin h -> (0 < h)%R -> (2 < IZR n * h)%R ->
  exists lo hi : R,
    min_epoch psr lo /\ max_epoch psr hi
    /\ let start := (lo - 86400)%R in
       let stop := (hi + 86400)%R in
       (forall p t, In p psr -> In t (toas p) ->
          (start < to_R t * 86400 < stop)%R)
       /\ forall M : matrix,
            cholesky (if noCorr a then N_diag2 (length psr) else computeORFMatrix psr) = Ok M ->
            exists s : gwb_setup,
              gwb_prepare cholesky psr a = Ok s
              /\ hd NaN (g_ut s) = Fin start /\ last (g_ut s) NaN = Fin stop
              /\ forall p, In p psr ->
                   let x_new := map (fun t => t * Fin 86400) (toas p) in
                   out_of_bounds (g_ut s) x_new = false
                   /\ forall y : array, length y = length (g_ut s) ->
                        interp1d interp_value (g_ut s) y x_new
                        = Ok (map (interp_value (g_ut s) y) x_new).
Proof.
  intros Hne Hfin Hnpts Hn Hhowml Hh Hnh.
  destruct (gwb_prepare_spec cholesky psr a n h Hne Hfin Hnpts ltac:(lia) Hhowml Hh Hnh)
    as (lo & hi & Hlo & Hhi & Hprep).
  exists lo, hi. split; [exact Hlo |]. split; [exact Hhi |].
  intros start stop.
  assert (Hin : forall p t, In p psr -> In t (toas p) ->
                  (start < to_R t * 86400 < stop)%R).
  { intros p t Hp Ht. destruct Hlo as [Hlo _], Hhi as [Hhi _].
    specialize (Hlo p t Hp Ht). specialize (Hhi p t Hp Ht).
    unfold start, stop. lra. }
  split; [exact Hin |]. intros M HM.
  destruct (Hprep M HM) as (f & Hrun & _).
  eexists. split; [exact Hrun |]. cbn [g_ut].
  destruct (N_linspace_ends (lo - 86400) (hi + 86400) n Hn) as (Hhd & Hlast & _).
  split; [exact Hhd |]. split; [exact Hlast |].
  intros p Hp. set (x_new := map (fun t => t * Fin 86400) (toas p)).
  assert (Hb : out_of_bounds (N_linspace (Fin (lo - 86400)) (Fin (hi + 86400)) n) x_new
               = false).
  { apply (out_of_bounds_inside _ _ (lo - 86400) (hi + 86400) Hhd Hlast).
    intros v Hv. unfold x_new in Hv. apply in_map_iff in Hv.
    destruct Hv as (t & <- & Ht).
    rewrite Forall_forall in Hfin. destruct (Hfin p Hp) as [_ Hft].
    rewrite Forall_forall in Hft. specialize (Hft t Ht).
    destruct t as [r | | |]; try discriminate.
    exists (r * 86400)%R. split; [reflexivity |].
    specialize (Hin p (Fin r) Hp Ht). simpl in Hin. unfold start, stop in Hin. lra. }
  split; [exact Hb |].
  intros y Hy. unfold interp1d. rewrite Hy, Nat.eqb_refl. cbn [negb].
  now rewrite Hb.
Qed.

Lemma gwb_epochs_inside_grid_witness :
  let psr := [psr_equator; psr_pole] in
  exists lo hi : R,
    min_epoch psr lo /\ max_epoch psr hi
    /\ let start := (lo - 86400)%R in
       let stop := (hi + 86400)%R in
       (forall p t, In p psr -> In t (toas p) ->
          (start < to_R t * 86400 < stop)%R)
       /\ forall M : matrix,
            trivial_cholesky (computeORFMatrix psr) = Ok M ->
            exists s : gwb_setup,
              gwb_prepare trivial_cholesky psr (gwb_default (Some 42%Z)) = Ok s
              /\ hd NaN (g_ut s) = Fin start /\ last (g_ut s) NaN = Fin stop
              /\ forall p, In p psr ->
                   let x_new := map (fun t => t * Fin 86400) (toas p) in
                   out_of_bounds (g_ut s) x_new = false
                   /\ forall y : array, length y = length (g_ut s) ->
                        interp1d zero_interp (g_ut s) y x_new
                        = Ok (map (zero_interp (g_ut s) y) x_new).
Proof.
  apply (gwb_epochs_inside_grid trivial_cholesky zero_interp [psr_equator; psr_pole]
           (gwb_default (Some 42%Z)) 600 10);
    try reflexivity; try lra; try lia; try discriminate.
  exact finite_epochs_inputs.
Defined.

(** ** C9: the random draws and the seed *)

Section DrawOrder.

Variable rng_state : Type.
Variable standard_normal : rng_state -> npfloat * rng_state.

Lemma advance_add (i j : nat) (g : rng_state) :
  advance standard_normal (i + j) g
  = advance standard_normal j (advance standard_normal i g).
Proof.
  revert g. induction i as [| i IH]; intros g; [reflexivity |].
  simpl. apply IH.
Qed.

Lemma draw_at_advance (i k : nat) (g : rng_state) :
  draw_at standard_normal (advance standard_normal i g) k
  = draw_at standard_normal g (i + k).
Proof. unfold draw_at. now rewrite advance_add. Qed.

(** [randn n] is the next [n] draws of the stream, in order. *)
Lemma randn_spec (n : nat) (g : rng_state) :
  randn standard_normal n g
  = (map (draw_at standard_normal g) (seq 0 n), advance standard_normal n g).
Proof.
  revert g. induction n as [| n IH]; intros g; [reflexivity |].
  cbn [randn]. destruct (standard_normal g) as [x g1] eqn:E.
  rewrite IH. cbn [seq map advance]. rewrite E. cbn [snd].
  f_equal. f_equal.
  - unfold draw_at. cbn [advance]. now rewrite E.
  - rewrite <- seq_shift, map_map. apply map_ext. intros k.
    change g1 with (snd (x, g1)). rewrite <- E.
    change (snd (standard_normal g)) with (advance standard_normal 1 g).
    apply draw_at_advance.
Qed.

Lemma map_combine_maps {A B C D : Type} (f : A -> B) (f' : A -> C)
    (h : B * C -> D) (l : list A) :
  map h (combine (map f l) (map f' l)) = map (fun k => h (f k, f' k)) l.
Proof.
  induction l as [| x l IH]; [reflexivity |]. simpl. now rewrite IH.
Qed.

(** One row of [w]: [Nf] draws for the real parts, then [Nf] draws for
    the imaginary parts. *)
Lemma gwb_draw_row_spec (Nf : nat) (g : rng_state) :
  gwb_draw_row standard_normal Nf g
  = (map (fun k => complex_draw standard_normal g k (Nf + k)) (seq 0 Nf),
     advance standard_normal (2 * Nf) g).
Proof.
  unfold gwb_draw_row. rewrite !randn_spec.
  rewrite <- advance_add. replace (Nf + Nf)%nat with (2 * Nf)%nat by lia.
  f_equal.
  rewrite (map_combine_maps (draw_at standard_normal g)
             (draw_at standard_normal (advance standard_normal Nf g))).
  apply map_ext. intros k. unfold complex_draw. now rewrite draw_at_advance.
Qed.

(** The rows of [w] are filled pulsar by pulsar: row [ll] takes the
    draws [2 Nf ll .. 2 Nf (ll + 1) - 1] of the stream. *)
Lemma gwb_draw_loop (Npulsars Nf : nat) (g : rng_state) (w0 : list (list complex))
    (k : nat) :
  length w0 = Npulsars -> (k <= Npulsars)%nat ->
  exists w : list (list complex),
    fold_left
      (fun '(w, g) ll =>
         let '(row, g) := gwb_draw_row standard_normal Nf g in (list_set ll row w, g))
      (seq 0 k) (w0, g)
    = (w, advance standard_normal (2 * Nf * k) g)
    /\ length w = Npulsars
    /\ forall ll, (ll < k)%nat ->
         nth ll w []
         = map (fun i => complex_draw standard_normal g (2 * Nf * ll + i)
                           (2 * Nf * ll + Nf + i)) (seq 0 Nf).
Proof.
  intros Hlen Hk. induction k as [| k IH].
  - exists w0. rewrite Nat.mul_0_r. split; [reflexivity |]. split; [exact Hlen |].
    intros ll Hll. lia.
  - destruct IH as (w & Hfold & Hw & Hrows); [lia |].
    rewrite seq_S, fold_left_app, Hfold. cbn [fold_left Nat.add].
    rewrite gwb_draw_row_spec. rewrite <- advance_add.
    replace (2 * Nf * k + 2 * Nf)%nat with (2 * Nf * S k)%nat by lia.
    eexists. split; [reflexivity |]. split; [now rewrite length_list_set |].
    intros ll Hll. destruct (Nat.eq_dec ll k) as [-> | Hne].
    + rewrite nth_list_set_eq by lia. apply map_ext. intros i.
      unfold complex_draw. rewrite !draw_at_advance.
      now replace (2 * Nf * k + (Nf + i))%nat with (2 * Nf * k + Nf + i)%nat by lia.
    + rewrite nth_list_set_neq by lia. apply Hrows. lia.
Qed.

Lemma gwb_draw_spec (Npulsars Nf : nat) (g : rng_state) :
  exists w : list (list complex),
    gwb_draw standard_normal Npulsars Nf g
    = (w, advance standard_normal (2 * Nf * Npulsars) g)
    /\ forall ll i, (ll < Npulsars)%nat -> (i < Nf)%nat ->
         nth i (nth ll w []) c_zero
         = complex_draw standard_normal g (2 * Nf * ll + i) (2 * Nf * ll + Nf + i).
Proof.
  destruct (gwb_draw_loop Npulsars Nf g (repeat (repeat c_zero Nf) Npulsars) Npulsars)
    as (w & Hfold & _ & Hrows); [apply repeat_length | lia |].
  exists w. split; [exact Hfold |].
  intros ll i Hll Hi. rewrite Hrows by assumption.
  rewrite (nth_indep _ c_zero
             (complex_draw standard_normal g (2 * Nf * ll + 0) (2 * Nf * ll + Nf + 0)))
    by (now rewrite length_map, length_seq).
  rewrite (map_nth (fun i => complex_draw standard_normal g (2 * Nf * ll + i)
                               (2 * Nf * ll + Nf + i)) (seq 0 Nf) 0%nat i).
  now rewrite seq_nth.
Qed.

End DrawOrder.

(** C9.  Two runs with one seed (not [None]) and the same inputs return
    the same residual arrays, whatever state the generator was in before
    each run: the seed resets it, and row [ll] of the random series is
    made of the draws [2 Nf ll .. 2 Nf (ll + 1) - 1] that follow the seed,
    pulsar by pulsar. *)
Theorem createGWB_clean_seeded (rng_state : Type)
    (random_seed : Z -> rng_state)
    (standard_normal : rng_state -> npfloat * rng_state)
    (cholesky : matrix -> result matrix) (ifft : list complex -> list complex)
    (interp_value : array -> array -> npfloat -> npfloat)
    (psr : list pulsar) (a : gwb_args) (sd : Z) (g1 g2 : rng_state) :
  seed a = Some sd ->
  createGWB_clean random_seed standard_normal cholesky ifft interp_value psr a g1
  = createGWB_clean random_seed standard_normal cholesky ifft interp_value psr a g2
  /\ forall s : gwb_setup,
       gwb_prepare cholesky psr a = Ok s ->
       let Nf := length (g_f s) in
       exists w : list (list complex),
         createGWB_clean random_seed standard_normal cholesky ifft interp_value psr a g1
         = (gwb_finish ifft interp_value psr a s w,
            advance standard_normal (2 * Nf * length psr) (random_seed sd))
         /\ forall ll i, (ll < length psr)%nat -> (i < Nf)%nat ->
              nth i (nth ll w []) c_zero
              = complex_draw standard_normal (random_seed sd)
                  (2 * Nf * ll + i) (2 * Nf * ll + Nf + i).
Proof.
  intros Hseed. unfold createGWB_clean. rewrite Hseed. split; [reflexivity |].
  intros s Hs. rewrite Hs.
  destruct (gwb_draw_spec rng_state standard_normal (length psr) (length (g_f s))
              (random_seed sd)) as (w & Hdraw & Hrows).
  exists w. rewrite Hdraw. split; [reflexivity | exact Hrows].
Qed.

Lemma createGWB_clean_seeded_witness :
  let psr := [psr_equator; psr_pole] in
  let a := gwb_default (Some 42%Z) in
  createGWB_clean counter_seed counter_normal trivial_cholesky trivial_ifft zero_interp
    psr a 0%nat
  = createGWB_clean counter_seed counter_normal trivial_cholesky trivial_ifft zero_interp
      psr a 7%nat
  /\ forall s : gwb_setup,
       gwb_prepare trivial_cholesky psr a = Ok s ->
       let Nf := length (g_f s) in
       exists w : list (list complex),
         createGWB_clean counter_seed counter_normal trivial_cholesky trivial_ifft
           zero_interp psr a 0%nat
         = (gwb_finish trivial_ifft zero_interp psr a s w,
            advance counter_normal (2 * Nf * length psr) (counter_seed 42))
         /\ forall ll i, (ll < length psr)%nat -> (i < Nf)%nat ->
              nth i (nth ll w []) c_zero
              = complex_draw counter_normal (counter_seed 42)
                  (2 * Nf * ll + i) (2 * Nf * ll + Nf + i).
Proof.
  apply (createGWB_clean_seeded nat counter_seed counter_normal trivial_cholesky
           trivial_ifft zero_interp [psr_equator; psr_pole] (gwb_default (Some 42%Z))
           42%Z 0%nat 7%nat).
  reflexivity.
Defined.

(** * Further properties of the code *)

(** ** The range of the overlap reduction values *)

Lemma ln_le_minus_1 (y : R) : (0 < y)%R -> (ln y <= y - 1)%R.
Proof.
  intros Hy. destruct (Req_dec (ln y) 0) as [H0 | Hne].
  - assert (y = 1)%R.
    { rewrite <- (exp_ln y Hy). rewrite H0. apply exp_0. }
    subst. rewrite ln_1. lra.
  - pose proof (exp_ineq1 (ln y) Hne) as H. rewrite exp_ln in H by assumption. lra.
Qed.

Lemma orf_formula_bounds (xi : R) :
  (0 < xi <= 1)%R -> (1 - 3 * exp (- 5 / 6) <= orf_formula xi < 1)%R.
Proof.
  intros [Hpos Hle]. unfold orf_formula.
  assert (Hln : (ln xi <= 0)%R).
  { destruct (Req_dec xi 1) as [-> | Hne]; [rewrite ln_1; lra |].
    rewrite <- ln_1. left. apply ln_increasing; lra. }
  split; [| nra].
  set (c := exp (- 5 / 6)).
  assert (Hc : (0 < c)%R) by apply exp_pos.
  assert (Hy : (0 < c * / xi)%R).
  { apply Rmult_lt_0_compat; [assumption | now apply Rinv_0_lt_compat]. }
  pose proof (ln_le_minus_1 _ Hy) as H.
  rewrite ln_mult in H; [| assumption | now apply Rinv_0_lt_compat].
  rewrite ln_Rinv in H by assumption.
  unfold c in H at 1. rewrite ln_exp in H.
  assert (Hx : (xi * (c * / xi) = c)%R) by (field; lra).
  assert (Hm : (xi * (- 5 / 6 + - ln xi) <= xi * (c * / xi - 1))%R).
  { apply Rmult_le_compat_l; lra. }
  nra.
Qed.

(** X1.  The entry of two different pulsars for which the [xip] of line
    536 came out as a number [x] with [0 < x <= 1] is a finite number
    [v] with [1 - 3 exp(-5/6) <= v <= 1]: it never reaches the diagonal
    value 2, and its smallest value is taken at [x = exp(-5/6)]. *)
Theorem computeORFMatrix_offdiag_bounded (psr : list pulsar) (i j : nat) (x : R) :
  (i < length psr)%nat -> (j < length psr)%nat -> i <> j ->
  let pphi := map (fun p => RAJ p) psr in
  let ptheta := map (fun p => np_pi / Fin 2 - DECJ p) psr in
  orf_xip (phat_at pphi ptheta i) (phat_at pphi ptheta j) = Fin x ->
  (0 < x <= 1)%R ->
  exists v : R,
    mat_get (computeORFMatrix psr) i j = Fin v
    /\ (1 - 3 * exp (- 5 / 6) <= v <= 1)%R
    /\ (x = exp (- 5 / 6) -> v = 1 - 3 * exp (- 5 / 6))%R.
Proof.
  intros Hi Hj Hne pphi ptheta Hx Hrange.
  destruct (computeORFMatrix_entries psr) as [_ Hget].
  rewrite Hget by assumption. unfold orf_entry.
  rewrite (proj2 (Nat.eqb_neq i j) Hne). fold pphi ptheta.
  rewrite (orf_value_positive _ _ x Hx) by lra.
  eexists. split; [reflexivity |].
  pose proof (orf_formula_bounds x Hrange) as Hb. split; [lra |].
  intros ->. unfold orf_formula. rewrite ln_exp. lra.
Qed.

Lemma orf_xip_equator_pole :
  let psr := [psr_equator; psr_pole] in
  orf_xip (phat_at (map (fun p => RAJ p) psr) (map (fun p => np_pi / Fin 2 - DECJ p) psr) 0)
          (phat_at (map (fun p => RAJ p) psr) (map (fun p => np_pi / Fin 2 - DECJ p) psr) 1)
  = Fin (1 / 2).
Proof.
  intros psr.
  assert (Hfin : Forall finite_position psr) by (repeat constructor).
  rewrite (phat_at_skydir psr 0 Hfin ltac:(simpl; lia)).
  rewrite (phat_at_skydir psr 1 Hfin ltac:(simpl; lia)).
  unfold psr, psr_at. cbn [nth]. rewrite skydir_equator, skydir_pole.
  unfold orf_xip, arr3, N_sum. cbn [arr_mul fold_left]. autorewrite with np.
  rewrite np_div_nonzero by lra. f_equal. lra.
Qed.

Lemma computeORFMatrix_offdiag_bounded_witness :
  exists v : R,
    mat_get (computeORFMatrix [psr_equator; psr_pole]) 0 1 = Fin v
    /\ (1 - 3 * exp (- 5 / 6) <= v <= 1)%R
    /\ (1 / 2 = exp (- 5 / 6) -> v = 1 - 3 * exp (- 5 / 6))%R.
Proof.
  apply (computeORFMatrix_offdiag_bounded [psr_equator; psr_pole] 0 1 (1 / 2));
    try (simpl; lia); try lra.
  exact orf_xip_equator_pole.
Defined.

(** ** The Earth term alone *)

(** X3.  Without the pulsar term the injected signal does not depend on
    the pulsar distance: [pdist] and [pphase] have no effect on what
    [add_cgw] returns. *)
Theorem add_cgw_earth_term_ignores_distance (psr : pulsar) (a : cgw_args)
    (pd : npfloat) (pp : option npfloat) :
  psrTerm a = false ->
  add_cgw psr (with_distance a pd pp) = add_cgw psr a.
Proof.
  intros Hterm. unfold add_cgw.
  assert (Hres : cgw_res psr (with_distance a pd pp) = cgw_res psr a).
  { unfold cgw_res. apply map_ext. intros t.
    unfold cgw_res_at, cgw_waves_at, cgw_state_at.
    cbn [with_distance gwtheta gwphi psrTerm evolve phase_approx psi inc tref].
    rewrite Hterm.
    destruct (cgw_antenna psr (gwtheta a) (gwphi a)) as [[fp fc] cm].
    unfold cgw_evolution. destruct (evolve a), (phase_approx a); reflexivity. }
  now rewrite Hres.
Qed.

Lemma add_cgw_earth_term_ignores_distance_witness :
  add_cgw psr_equator (with_distance cgw_polar (Fin 7) (Some (Fin 1)))
  = add_cgw psr_equator cgw_polar.
Proof.
  apply (add_cgw_earth_term_ignores_distance psr_equator cgw_polar). reflexivity.
Defined.

(** ** createGWB_clean: the calls that raise *)

Lemma arr_min_cases (l : array) :
  (l = [] /\ arr_min l = Raise ValueError) \/ (l <> [] /\ exists m, arr_min l = Ok m).
Proof.
  destruct l as [| x t]; [left; now split | right]. split; [discriminate |].
  eexists. reflexivity.
Qed.

(** A list traversal raises [ValueError] when one element does and no
    element raises anything else. *)
Lemma mapM_value_error {A B : Type} (f : A -> result B) (l : list A) :
  (forall x, In x l -> f x = Raise ValueError \/ exists y, f x = Ok y) ->
  (exists x, In x l /\ f x = Raise ValueError) ->
  mapM f l = Raise ValueError.
Proof.
  induction l as [| x l IH]; intros Hall (z & Hz & Hfz); [contradiction |].
  cbn [mapM]. destruct (Hall x (or_introl eq_refl)) as [Hx | (y & Hy)].
  - now rewrite Hx.
  - rewrite Hy. cbn [bind]. rewrite IH; trivial.
    + intros w Hw. apply Hall. now right.
    + destruct Hz as [<- | Hz]; [congruence |]. now exists z.
Qed.

Lemma gwb_span_no_epochs (psr : list pulsar) :
  psr = [] \/ (exists p, In p psr /\ toas p = []) ->
  gwb_span psr = Raise ValueError.
Proof.
  intros [-> | (p & Hp & Hempty)]; [reflexivity |].
  unfold gwb_span. rewrite mapM_value_error; trivial.
  - intros q _. destruct (arr_min_cases (toas q)) as [[_ ->] | [_ (m & ->)]];
      [now left | right; eexists; reflexivity].
  - exists p. split; [exact Hp |]. now rewrite Hempty.
Qed.

(** X4.  Called with no pulsar, or with a pulsar that has no epoch,
    [createGWB_clean] raises [ValueError] before any random number is
    drawn: the generator is left as the seed, if any, set it. *)
Theorem createGWB_clean_no_epochs (rng_state : Type)
    (random_seed : Z -> rng_state)
    (standard_normal : rng_state -> npfloat * rng_state)
    (cholesky : matrix -> result matrix) (ifft : list complex -> list complex)
    (interp_value : array -> array -> npfloat -> npfloat)
    (psr : list pulsar) (a : gwb_args) (g : rng_state) :
  psr = [] \/ (exists p, In p psr /\ toas p = []) ->
  createGWB_clean random_seed standard_normal cholesky ifft interp_value psr a g
  = (Raise ValueError, match seed a with Some s => random_seed s | None => g end).
Proof.
  intros H. unfold createGWB_clean, gwb_prepare.
  now rewrite (gwb_span_no_epochs psr H).
Qed.

Lemma createGWB_clean_no_epochs_witness :
  createGWB_clean counter_seed counter_normal trivial_cholesky trivial_ifft zero_interp
    [psr_equator; psr_unobserved] (gwb_default None) 5%nat
  = (Raise ValueError, 5%nat).
Proof.
  apply (createGWB_clean_no_epochs nat counter_seed counter_normal trivial_cholesky
           trivial_ifft zero_interp
           [psr_equator; psr_unobserved] (gwb_default None) 5%nat).
  right. eexists. split; [right; left; reflexivity | reflexivity].
Defined.

(** Lines 460-461 when the grid has one frequency at most. *)
Lemma gwb_freqs_short (d h : R) (n : Z) :
  (0 < d)%R -> (0 < n)%Z -> (0 < h)%R -> (IZR n * h <= 2)%R ->
  gwb_freqs (Fin d) (Fin d / Fin (IZR n)) (Fin h) = Raise IndexError.
Proof.
  intros Hd Hn Hh Hnh.
  assert (Hn' : (0 < IZR n)%R) by (now apply IZR_lt).
  assert (Hdt : (0 < d / IZR n)%R) by (now apply Rdiv_lt_0_compat).
  assert (Hdh : (0 < d * h)%R) by (now apply Rmult_lt_0_compat).
  assert (Hq : ((1 / (2 * (d / IZR n)) - 0) / (1 / (d * h)) = IZR n * h / 2)%R).
  { field. repeat split; lra. }
  destruct (Rceil_bounds (IZR n * h / 2)) as [_ Hc2].
  assert (Hc : (Rceil (IZR n * h / 2) < 2)%Z) by (apply lt_IZR; lra).
  unfold gwb_freqs, N_arange.
  rewrite (np_div_nonzero d) by lra. autorewrite with np.
  rewrite !np_div_nonzero by lra. autorewrite with np.
  assert (Hstep : (0 < 1 / (d * h))%R) by (apply Rdiv_lt_0_compat; lra).
  rewrite np_div_nonzero by lra. rewrite Hq.
  destruct (Z.to_nat (Rceil (IZR n * h / 2))) as [| [| k]] eqn:E; try reflexivity.
  lia.
Qed.

(** X5.  When [npts * howml <= 2] the frequency grid has less than two
    points and [f[0] = f[1]] raises [IndexError], before any random
    number is drawn and before the matrix is factorised. *)
Theorem createGWB_clean_one_frequency (rng_state : Type)
    (random_seed : Z -> rng_state)
    (standard_normal : rng_state -> npfloat * rng_state)
    (cholesky : matrix -> result matrix) (ifft : list complex -> list complex)
    (interp_value : array -> array -> npfloat -> npfloat)
    (psr : list pulsar) (a : gwb_args) (g : rng_state) (n : Z) (h : R) :
  psr <> [] -> Forall finite_epochs psr ->
  npts a = Some n -> (0 < n)%Z ->
  howml a = Fin h -> (0 < h)%R -> (IZR n * h <= 2)%R ->
  createGWB_clean random_seed standard_normal cholesky ifft interp_value psr a g
  = (Raise IndexError, match seed a with Some s => random_seed s | None => g end).
Proof.
  intros Hne Hfin Hnpts Hn Hhowml Hh Hnh.
  destruct (gwb_span_spec psr Hne Hfin) as (lo & hi & Hspan & Hlo & Hhi).
  pose proof (min_le_max_epoch psr lo hi Hlo Hhi) as Hle.
  unfold createGWB_clean, gwb_prepare. rewrite Hspan. cbn [bind].
  autorewrite with np. unfold gwb_npts. rewrite Hnpts. cbn [bind].
  rewrite Hhowml. rewrite gwb_freqs_short; trivial. lra.
Qed.

Lemma createGWB_clean_one_frequency_witness :
  createGWB_clean counter_seed counter_normal trivial_cholesky trivial_ifft zero_interp
    [psr_equator; psr_pole] (gwb_with 2 1) 5%nat
  = (Raise IndexError, counter_seed 3).
Proof.
  apply (createGWB_clean_one_frequency nat counter_seed counter_normal trivial_cholesky
           trivial_ifft zero_interp [psr_equator; psr_pole] (gwb_with 2 1) 5%nat 2 1);
    try reflexivity; try lra; try lia; try discriminate.
  exact finite_epochs_inputs.
Defined.

(** ** createGWB_clean: the packed spectrum *)

Lemma np_opp_involutive (a : npfloat) : - - a = a.
Proof. destruct a; unfold np_opp; trivial. f_equal. lra. Qed.

Lemma c_conj_involutive (z : complex) : c_conj (c_conj z) = z.
Proof.
  destruct z as [x y]. unfold c_conj. cbn [fst snd]. now rewrite np_opp_involutive.
Qed.

Lemma c_conj_zero : c_conj c_zero = c_zero.
Proof.
  unfold c_conj, c_zero. cbn [fst snd]. rewrite np_opp_fin. do 2 f_equal. lra.
Qed.

Lemma length_gwb_scale_row (C : array) (row : list complex) :
  length (gwb_scale_row C row) = Nat.min (length row) (length C).
Proof.
  unfold gwb_scale_row. now rewrite !length_list_set, length_map, length_combine.
Qed.

Lemma length_gwb_pack_row (Nf : nat) (row : list complex) :
  length row = Nf -> (2 <= Nf)%nat ->
  length (gwb_pack_row Nf row) = (2 * Nf - 2)%nat.
Proof.
  intros Hrow HNf. unfold gwb_pack_row.
  rewrite length_app, length_map, length_rev, length_skipn, !length_firstn. lia.
Qed.

(** The scaled row has its first and its last bin at zero. *)
Lemma gwb_scale_row_ends (C : array) (row : list complex) (Nf : nat) :
  length row = Nf -> length C = Nf -> (2 <= Nf)%nat ->
  nth 0 (gwb_scale_row C row) c_zero = c_zero
  /\ nth (Nf - 1) (gwb_scale_row C row) c_zero = c_zero.
Proof.
  intros Hrow HC HNf. unfold gwb_scale_row.
  set (sc := map _ (combine row C)).
  assert (Hsc : length sc = Nf).
  { unfold sc. rewrite length_map, length_combine. lia. }
  rewrite Hsc. split.
  - rewrite nth_list_set_neq by lia. apply nth_list_set_eq. lia.
  - apply nth_list_set_eq. rewrite length_list_set. lia.
Qed.

(** The packed row, bin by bin: the [Nf] bins, then the conjugates of
    the bins [Nf - 2] down to [1]. *)
Lemma gwb_pack_row_nth (Nf : nat) (row : list complex) (k : nat) :
  length row = Nf -> (2 <= Nf)%nat -> (k < 2 * Nf - 2)%nat ->
  nth k (gwb_pack_row Nf row) c_zero
  = if (k <? Nf)%nat then nth k row c_zero
    else c_conj (nth (2 * Nf - 2 - k) row c_zero).
Proof.
  intros Hrow HNf Hk. unfold gwb_pack_row.
  rewrite firstn_all2 by lia.
  destruct (Nat.ltb_spec k Nf) as [Hlt | Hge].
  - apply app_nth1. lia.
  - rewrite app_nth2 by lia. rewrite Hrow.
    set (mid := skipn 1 (firstn (Nf - 1) row)).
    assert (Hmid : length mid = (Nf - 2)%nat).
    { unfold mid. rewrite length_skipn, length_firstn. lia. }
    rewrite (nth_indep _ c_zero (c_conj c_zero))
      by (rewrite length_map, length_rev; lia).
    rewrite map_nth. f_equal.
    rewrite rev_nth by lia. unfold mid at 2. rewrite nth_skipn, nth_firstn.
    rewrite Hmid.
    rewrite (proj2 (Nat.ltb_lt _ _)) by lia. f_equal. lia.
Qed.

(** X6.  The row handed to the inverse transform has [2 Nf - 2] bins,
    its zero-frequency and its Nyquist bin are 0, and the bins above
    the Nyquist bin mirror those below it: bin [2 Nf - 2 - k] is the
    complex conjugate of bin [k]. *)
Theorem gwb_packed_row_hermitian (C : array) (row : list complex) (Nf : nat) :
  length row = Nf -> length C = Nf -> (2 <= Nf)%nat ->
  let packed := gwb_pack_row Nf (gwb_scale_row C row) in
  length packed = (2 * Nf - 2)%nat
  /\ nth 0 packed c_zero = c_zero
  /\ nth (Nf - 1) packed c_zero = c_zero
  /\ forall k, (1 <= k < 2 * Nf - 2)%nat ->
       nth (2 * Nf - 2 - k) packed c_zero = c_conj (nth k packed c_zero).
Proof.
  intros Hrow HC HNf packed.
  assert (Hs : length (gwb_scale_row C row) = Nf).
  { rewrite length_gwb_scale_row. lia. }
  destruct (gwb_scale_row_ends C row Nf Hrow HC HNf) as [H0 HN].
  assert (Hlen : length packed = (2 * Nf - 2)%nat).
  { apply length_gwb_pack_row; assumption. }
  assert (HN' : nth (Nf - 1) packed c_zero = c_zero).
  { unfold packed. rewrite gwb_pack_row_nth by (trivial; lia).
    rewrite (proj2 (Nat.ltb_lt _ _)) by lia. exact HN. }
  split; [exact Hlen |]. split; [| split; [exact HN' |] ].
  - unfold packed. rewrite gwb_pack_row_nth by (trivial; lia).
    rewrite (proj2 (Nat.ltb_lt _ _)) by lia. exact H0.
  - intros k Hk. unfold packed.
    rewrite !gwb_pack_row_nth by (trivial; lia).
    destruct (Nat.ltb_spec k Nf) as [Hlt | Hge].
    + destruct (Nat.ltb_spec (2 * Nf - 2 - k) Nf) as [Hlt' | Hge'].
      * assert (k = Nf - 1)%nat by lia. subst k.
        replace (2 * Nf - 2 - (Nf - 1))%nat with (Nf - 1)%nat by lia.
        rewrite HN. now rewrite c_conj_zero.
      * f_equal. f_equal. lia.
    + rewrite (proj2 (Nat.ltb_lt _ _)) by lia. now rewrite c_conj_involutive.
Qed.

Lemma gwb_packed_row_hermitian_witness :
  let C := [Fin 1; Fin 1; Fin 1; Fin 1] in
  let row := [(Fin 1, Fin 2); (Fin 3, Fin 4); (Fin 5, Fin 6); (Fin 7, Fin 8)] in
  let packed := gwb_pack_row 4 (gwb_scale_row C row) in
  length packed = 6%nat
  /\ nth 0 packed c_zero = c_zero
  /\ nth 3 packed c_zero = c_zero
  /\ forall k, (1 <= k < 6)%nat ->
       nth (6 - k) packed c_zero = c_conj (nth k packed c_zero).
Proof.
  apply (gwb_packed_row_hermitian [Fin 1; Fin 1; Fin 1; Fin 1]
           [(Fin 1, Fin 2); (Fin 3, Fin 4); (Fin 5, Fin 6); (Fin 7, Fin 8)] 4);
    try reflexivity; lia.
Defined.

(** ** createGWB_clean: the length of the time series *)

(** Line 500 on a row that is long enough, and on one that is not. *)
Lemma gwb_shorten_ok (n : nat) (row : array) :
  (n + 10 <= length row)%nat ->
  exists piece, gwb_shorten n row = Ok piece /\ length piece = n.
Proof.
  intros Hlen. unfold gwb_shorten.
  assert (Hp : length (firstn n (skipn 10 row)) = n).
  { rewrite length_firstn, length_skipn. lia. }
  rewrite Hp, Nat.eqb_refl. eexists. split; [reflexivity | exact Hp].
Qed.

Lemma gwb_shorten_short (n : nat) (row : array) :
  (0 < n)%nat -> (length row < n + 10)%nat -> (exists k, length row = 2 * k)%nat ->
  gwb_shorten n row = Raise ValueError.
Proof.
  intros Hn Hlen (k & Hk). unfold gwb_shorten.
  assert (Hp : length (firstn n (skipn 10 row)) = (length row - 10)%nat).
  { rewrite length_firstn, length_skipn. lia. }
  rewrite (proj2 (Nat.eqb_neq _ _)) by lia.
  destruct (firstn n (skipn 10 row)) as [| y [| z t]]; trivial.
  simpl in Hp. lia.
Qed.

(** The rows of [Res_t] have the [2 Nf - 2] entries of the packed
    spectrum, as long as the inverse transform keeps the length. *)
Lemma gwb_time_rows (ifft : list complex -> list complex) (dt : npfloat)
    (C : array) (M : matrix) (w : list (list complex)) (Nf : nat) :
  (forall row, length (ifft row) = length row) ->
  length C = Nf -> (2 <= Nf)%nat ->
  let Res_t :=
    map (fun row => map (fun z => c_real (c_div_real z dt)) (ifft row))
      (map (gwb_pack_row Nf) (map (gwb_scale_row C) (c_dot M w Nf))) in
  length Res_t = length M
  /\ Forall (fun row => length row = (2 * Nf - 2)%nat) Res_t.
Proof.
  intros Hifft HC HNf Res_t. split.
  - unfold Res_t, c_dot. now rewrite !length_map.
  - unfold Res_t. rewrite Forall_forall. intros row Hin.
    apply in_map_iff in Hin. destruct Hin as (r2 & <- & Hin).
    apply in_map_iff in Hin. destruct Hin as (r1 & <- & Hin).
    apply in_map_iff in Hin. destruct Hin as (r0 & <- & Hin).
    unfold c_dot in Hin. apply in_map_iff in Hin. destruct Hin as (Mrow & <- & _).
    rewrite length_map, Hifft. apply length_gwb_pack_row; trivial.
    rewrite length_gwb_scale_row, length_map, length_seq. lia.
Qed.

(** The number of frequencies against [npts * howml]. *)
Lemma gwb_grid_size (dur h : R) (n : Z) (Nf : nat) :
  (0 < dur)%R -> (0 < n)%Z -> (0 < h)%R -> (2 <= Nf)%nat ->
  (INR (Nf - 1) * (1 / (dur * h)) < 1 / (2 * (dur / IZR n)))%R ->
  (1 / (2 * (dur / IZR n)) <= INR Nf * (1 / (dur * h)))%R ->
  (INR (2 * Nf - 2) < IZR n * h <= INR (2 * Nf))%R.
Proof.
  intros Hd Hn Hh HNf Hlt Hle.
  assert (Hn' : (0 < IZR n)%R) by (now apply IZR_lt).
  assert (Hdh : (0 < dur * h)%R) by (now apply Rmult_lt_0_compat).
  assert (Hq : (1 / (2 * (dur / IZR n)) * (dur * h) = IZR n * h / 2)%R).
  { field. lra. }
  apply (Rmult_lt_compat_r (dur * h)) in Hlt; [| exact Hdh].
  apply (Rmult_le_compat_r (dur * h)) in Hle; [| lra].
  rewrite Hq in Hlt, Hle.
  replace (INR (Nf - 1) * (1 / (dur * h)) * (dur * h))%R with (INR (Nf - 1)) in Hlt
    by (field; lra).
  replace (INR Nf * (1 / (dur * h)) * (dur * h))%R with (INR Nf) in Hle
    by (field; lra).
  replace (2 * Nf - 2)%nat with (2 * (Nf - 1))%nat by lia.
  rewrite !mult_INR. simpl INR. lra.
Qed.

(** The epochs of a pulsar pass the bounds test of the interpolation. *)
Lemma gwb_epochs_in_bounds (psr : list pulsar) (lo hi : R) (n : Z) (p : pulsar) :
  Forall finite_epochs psr -> min_epoch psr lo -> max_epoch psr hi ->
  (2 <= n)%Z -> In p psr ->
  out_of_bounds (N_linspace (Fin (lo - 86400)) (Fin (hi + 86400)) n)
    (map (fun t => t * Fin 86400) (toas p)) = false.
Proof.
  intros Hfin [Hlo _] [Hhi _] Hn Hp.
  destruct (N_linspace_ends (lo - 86400) (hi + 86400) n Hn) as (Hhd & Hlast & _).
  apply (out_of_bounds_inside _ _ (lo - 86400) (hi + 86400) Hhd Hlast).
  intros v Hv. apply in_map_iff in Hv. destruct Hv as (t & <- & Ht).
  rewrite Forall_forall in Hfin. destruct (Hfin p Hp) as [_ Hft].
  rewrite Forall_forall in Hft. specialize (Hft t Ht).
  destruct t as [r | | |]; try discriminate.
  exists (r * 86400)%R. split; [reflexivity |].
  specialize (Hlo p (Fin r) Hp Ht). specialize (Hhi p (Fin r) Hp Ht).
  simpl in Hlo, Hhi. lra.
Qed.

Lemma Forall2_at {A B : Type} (P : A -> B -> Prop) (l : list A) (ys : list B)
    (da : A) (db : B) (i : nat) :
  Forall2 P l ys -> (i < length l)%nat -> P (nth i l da) (nth i ys db).
Proof.
  intros H. revert i. induction H as [| a b l ys Hab Hall IH]; intros i Hi.
  - simpl in Hi. lia.
  - destruct i as [| i]; [exact Hab |]. simpl. apply IH. simpl in Hi. lia.
Qed.


Lemma shape_ORF_inputs : computeORFMatrix [psr_equator; psr_pole] <> [].
Proof.
  destruct (computeORFMatrix_entries [psr_equator; psr_pole]) as [[Hlen _] _].
  intros Heq. rewrite Heq in Hlen. discriminate.
Qed.


(** X8.  When [npts (howml - 1) >= 14], with [npts >= 2], finite epochs,
    a seed that numpy accepts, a [power] other than 0 under [turnover],
    a factorisation that succeeds and keeps the number of rows, and an
    inverse transform that keeps the length, [createGWB_clean] returns:
    one residual array per pulsar, with one entry per epoch of that
    pulsar.  (The bound leaves room for one frequency bin less than
    [npts howml / 2], rounded up.) *)
Theorem createGWB_clean_returns (rng_state : Type)
    (random_seed : Z -> rng_state)
    (standard_normal : rng_state -> npfloat * rng_state)
    (cholesky : matrix -> result matrix) (ifft : list complex -> list complex)
    (interp_value : array -> array -> npfloat -> npfloat)
    (psr : list pulsar) (a : gwb_args) (g : rng_state) (n : Z) (h : R) (M : matrix) :
  psr <> [] -> Forall finite_epochs psr ->
  npts a = Some n -> (2 <= n)%Z ->
  howml a = Fin h -> (0 < h)%R -> (14 <= IZR n * (h - 1))%R ->
  gwb_scalars_defined a ->
  (forall row, length (ifft row) = length row) ->
  cholesky (if noCorr a then N_diag2 (length psr) else computeORFMatrix psr) = Ok M ->
  length M = length psr ->
  exists res : list array,
    fst (createGWB_clean random_seed standard_normal cholesky ifft interp_value psr a g)
    = Ok res
    /\ length res = length psr
    /\ forall i, (i < length psr)%nat ->
         length (nth i res []) = length (toas (psr_at psr i)).
Proof.
  intros Hne Hfin Hnpts Hn Hhowml Hh Hbig _ Hifft HM HMlen.
  assert (Hn' : (2 <= IZR n)%R) by (now apply IZR_le).
  assert (Hnh : (2 < IZR n * h)%R) by nra.
  destruct (gwb_prepare_spec cholesky psr a n h Hne Hfin Hnpts ltac:(lia) Hhowml Hh Hnh)
    as (lo & hi & Hlo & Hhi & Hprep).
  destruct (Hprep M HM) as (f & Hrun & Hlen & H01 & Hgrid & Hnyq & Hlast).
  pose proof (min_le_max_epoch psr lo hi Hlo Hhi) as Hle.
  set (dur := (hi + 86400 - (lo - 86400))%R) in *.
  assert (Hdur : (0 < dur)%R) by (unfold dur; lra).
  assert (Hsize : (INR (2 * length f - 2) < IZR n * h <= INR (2 * length f))%R).
  { apply (gwb_grid_size dur h n (length f)); trivial; try lia.
    specialize (Hnyq (length f - 1)%nat ltac:(lia)).
    rewrite Hgrid in Hnyq by lia. exact Hnyq. }
  assert (Hlong : (Z.to_nat n + 10 <= 2 * length f - 2)%nat).
  { assert (H12 : (Z.to_nat n + 12 <= 2 * length f)%nat).
    { apply INR_le. rewrite plus_INR, INR_to_nat by lia.
      replace (INR 12) with 12%R by (simpl; lra). lra. }
    lia. }
  destruct (N_linspace_ends (lo - 86400) (hi + 86400) n Hn) as (_ & _ & Hut).
  unfold createGWB_clean. rewrite Hrun.
  destruct (gwb_draw standard_normal (length psr) _ _) as [w g'].
  cbn [fst]. unfold gwb_finish. cbn [g_f g_dur g_M g_dt g_npts g_ut].
  rewrite (proj2 (Z.ltb_ge n 0)) by lia.
  destruct (gwb_time_rows ifft (Fin (dur / IZR n)) (gwb_spectrum a f (Fin dur)) M w
              (length f) Hifft) as [HR1 HR2]; [unfold gwb_spectrum; apply length_map | lia |].
  set (Res_t := map _ (map (gwb_pack_row (length f)) _)) in *.
  set (ut := N_linspace (Fin (lo - 86400)) (Fin (hi + 86400)) n) in *.
  match goal with
  | |- exists res, mapM ?F0 _ = _ /\ _ => set (F := F0)
  end.
  destruct (mapM_spec F (fun pr y => length y = length (toas (fst pr)))
              (combine psr Res_t)) as (res & Hres & Hall).
  { intros [p row] Hin.
    pose proof (in_combine_l _ _ _ _ Hin) as Hp.
    pose proof (in_combine_r _ _ _ _ Hin) as Hrow.
    rewrite Forall_forall in HR2. specialize (HR2 row Hrow).
    destruct (gwb_shorten_ok (Z.to_nat n) row) as (piece & Hpiece & Hpl); [lia |].
    eexists. unfold F. rewrite Hpiece. cbn [bind]. unfold interp1d.
    rewrite Hut, Hpl, Nat.eqb_refl. cbn [negb].
    unfold ut. rewrite (gwb_epochs_in_bounds psr lo hi n p Hfin Hlo Hhi Hn Hp).
    split; [reflexivity |]. cbn [fst]. now rewrite !length_map. }
  exists res. split; [exact Hres |].
  pose proof (Forall2_length Hall) as Hl. rewrite length_combine in Hl.
  split; [lia |]. intros i Hi.
  pose proof (Forall2_at _ _ _ (mkPulsar "" NaN NaN [] [], []) [] i Hall) as Hi'.
  rewrite combine_nth in Hi' by lia. cbn [fst] in Hi'.
  unfold psr_at. apply Hi'. rewrite length_combine. lia.
Qed.

Lemma length_ORF_inputs : length (computeORFMatrix [psr_equator; psr_pole]) = 2%nat.
Proof.
  now destruct (computeORFMatrix_entries [psr_equator; psr_pole]) as [[Hlen _] _].
Qed.

Lemma createGWB_clean_returns_witness :
  exists res : list array,
    fst (createGWB_clean counter_seed counter_normal trivial_cholesky trivial_ifft
           zero_interp [psr_equator; psr_pole] (gwb_with 600 10) 5%nat)
    = Ok res
    /\ length res = 2%nat
    /\ forall i, (i < 2)%nat ->
         length (nth i res []) = length (toas (psr_at [psr_equator; psr_pole] i)).
Proof.
  apply (createGWB_clean_returns nat counter_seed counter_normal
           trivial_cholesky trivial_ifft zero_interp [psr_equator; psr_pole]
           (gwb_with 600 10) 5%nat 600 10 (computeORFMatrix [psr_equator; psr_pole]));
    try reflexivity; try lra; try lia; try discriminate;
    try exact finite_epochs_inputs; try exact length_ORF_inputs.
  split; [cbn; lia | discriminate].
Defined.

(** ** createGWB_clean: uncorrelated noise, and the time grid *)

Lemma mapM_Forall2_ext {A B : Type} (f : A -> result B) (eqv : A -> A -> Prop)
    (l l' : list A) :
  Forall2 eqv l l' -> (forall x x', eqv x x' -> f x = f x') ->
  mapM f l = mapM f l'.
Proof.
  intros H Hext. induction H as [| x x' l l' Hx Hall IH]; [reflexivity |].
  cbn [mapM]. now rewrite (Hext x x' Hx), IH.
Qed.

Lemma mapM_combine_ext {A B C : Type} (F : A * B -> result C) (eqv : A -> A -> Prop)
    (l l' : list A) (R : list B) :
  Forall2 eqv l l' -> (forall x x' r, eqv x x' -> F (x, r) = F (x', r)) ->
  mapM F (combine l R) = mapM F (combine l' R).
Proof.
  intros H Hext. revert R. induction H as [| x x' l l' Hx Hall IH]; intros R;
    [reflexivity |].
  destruct R as [| r R]; [reflexivity |].
  cbn [combine mapM]. now rewrite (Hext x x' r Hx), IH.
Qed.

Lemma gwb_span_same_epochs (psr psr' : list pulsar) :
  Forall2 (fun p q => toas p = toas q) psr psr' -> gwb_span psr = gwb_span psr'.
Proof.
  intros H. unfold gwb_span.
  rewrite (mapM_Forall2_ext (fun p => m <- arr_min (toas p) ;; Ok (m * Fin 86400))
             _ psr psr' H) by (intros x x' Hx; now rewrite Hx).
  rewrite (mapM_Forall2_ext (fun p => m <- arr_max (toas p) ;; Ok (m * Fin 86400))
             _ psr psr' H) by (intros x x' Hx; now rewrite Hx).
  reflexivity.
Qed.

(** [N.diag(N.ones(n)*2)], entry by entry. *)
Lemma N_diag2_entries (n i j : nat) :
  (i < n)%nat -> (j < n)%nat ->
  mat_get (N_diag2 n) i j = if Nat.eqb i j then Fin 2 else Fin 0.
Proof.
  intros Hi Hj. unfold mat_get, N_diag2.
  rewrite (nth_indep _ [] (list_set 0 (Fin 1 * Fin 2) (N_zeros n)))
    by (now rewrite length_map, length_seq).
  rewrite (map_nth (fun i => list_set i (Fin 1 * Fin 2) (N_zeros n)) (seq 0 n) 0%nat i).
  rewrite seq_nth by assumption. cbn [Nat.add]. unfold get.
  destruct (Nat.eqb_spec i j) as [-> | Hne].
  - rewrite nth_list_set_eq by (unfold N_zeros; now rewrite repeat_length).
    rewrite np_mul_fin. f_equal. lra.
  - rewrite nth_list_set_neq by assumption. unfold N_zeros.
    apply nth_repeat_lt. assumption.
Qed.

(** X9.  With [noCorr] set the sky positions are never read: pulsar
    lists with the same epochs give the same result and leave the
    generator in the same state, and the matrix that is factorised has
    2 on its diagonal and 0 elsewhere. *)
Theorem createGWB_clean_noCorr_ignores_positions (rng_state : Type)
    (random_seed : Z -> rng_state)
    (standard_normal : rng_state -> npfloat * rng_state)
    (cholesky : matrix -> result matrix) (ifft : list complex -> list complex)
    (interp_value : array -> array -> npfloat -> npfloat)
    (psr psr' : list pulsar) (a : gwb_args) (g : rng_state) :
  noCorr a = true ->
  Forall2 (fun p q => toas p = toas q) psr psr' ->
  createGWB_clean random_seed standard_normal cholesky ifft interp_value psr a g
  = createGWB_clean random_seed standard_normal cholesky ifft interp_value psr' a g
  /\ forall s, gwb_prepare cholesky psr a = Ok s ->
       forall i j, (i < length psr)%nat -> (j < length psr)%nat ->
         mat_get (g_ORF s) i j = if Nat.eqb i j then Fin 2 else Fin 0.
Proof.
  intros Hno Hsame.
  pose proof (Forall2_length Hsame) as Hlen.
  assert (Hprep : gwb_prepare cholesky psr a = gwb_prepare cholesky psr' a).
  { unfold gwb_prepare. rewrite Hno, Hlen.
    now rewrite (gwb_span_same_epochs psr psr' Hsame). }
  split.
  - unfold createGWB_clean. rewrite <- Hprep, <- Hlen.
    destruct (gwb_prepare cholesky psr a) as [s | e]; [| reflexivity].
    destruct (gwb_draw standard_normal (length psr) _ _) as [w g'].
    f_equal. unfold gwb_finish.
    destruct (g_npts s <? 0)%Z; [reflexivity |].
    apply (mapM_combine_ext _ (fun p q => toas p = toas q)); [exact Hsame |].
    intros x x' r Hx. now rewrite Hx.
  - intros s Hs i j Hi Hj. unfold gwb_prepare in Hs. rewrite Hno in Hs.
    destruct (gwb_span psr) as [[start stop] | e]; [| discriminate].
    cbn [bind] in Hs.
    destruct (gwb_npts a (stop - start)) as [[nptsf nptsn] | e]; [| discriminate].
    cbn [bind] in Hs.
    destruct (gwb_freqs _ _ _) as [f | e]; [| discriminate]. cbn [bind] in Hs.
    destruct (cholesky _) as [M | e]; [| discriminate]. cbn [bind] in Hs.
    injection Hs as <-. cbn [g_ORF]. now apply N_diag2_entries.
Qed.

Lemma createGWB_clean_noCorr_ignores_positions_witness :
  let a := mkGwb (Fin 1e-15) (Fin 4.33) true (Some 3%Z) false (Fin 1e-9) (Fin 1)
             (Fin 1) (Some 600%Z) (Fin 10) in
  let psr := [psr_equator; psr_pole] in
  let psr' := [mkPulsar "A" (Fin 1) (Fin 1) (toas psr_equator) [];
               mkPulsar "B" (Fin 2) (Fin 0) (toas psr_pole) []] in
  createGWB_clean counter_seed counter_normal trivial_cholesky trivial_ifft zero_interp
    psr a 5%nat
  = createGWB_clean counter_seed counter_normal trivial_cholesky trivial_ifft zero_interp
      psr' a 5%nat
  /\ forall s, gwb_prepare trivial_cholesky psr a = Ok s ->
       forall i j, (i < length psr)%nat -> (j < length psr)%nat ->
         mat_get (g_ORF s) i j = if Nat.eqb i j then Fin 2 else Fin 0.
Proof.
  apply (createGWB_clean_noCorr_ignores_positions nat counter_seed counter_normal
           trivial_cholesky trivial_ifft zero_interp); [reflexivity |].
  repeat constructor.
Defined.

Lemma nth_last_elem {A : Type} (l : list A) (d : A) :
  nth (length l - 1) l d = last l d.
Proof.
  destruct l as [| x l]; [reflexivity |].
  replace (length (x :: l) - 1)%nat with (length l) by (simpl; lia).
  revert x. induction l as [| y l IH]; intros x; [reflexivity |].
  change (nth (length l) (y :: l) d = last (y :: l) d). apply IH.
Qed.

(** The points of [N.linspace], the last one apart. *)
Lemma N_linspace_get (a b : R) (n : Z) (i : nat) :
  (2 <= n)%Z -> (i < Z.to_nat n - 1)%nat ->
  get (N_linspace (Fin a) (Fin b) n) i
  = Fin (a + INR i * ((b - a) / (IZR n - 1))).
Proof.
  intros Hn Hi. unfold N_linspace.
  destruct (Z.to_nat n) as [| [| k]] eqn:E; try lia.
  assert (Hn1 : IZR (n - 1) <> 0%R).
  { apply not_0_IZR. lia. }
  autorewrite with np. rewrite np_div_nonzero by exact Hn1.
  unfold get. rewrite nth_list_set_neq by lia.
  fold (get (map (fun i0 : nat => Fin (INR i0) * Fin ((b - a) / IZR (n - 1)) + Fin a)
               (seq 0 (S (S k)))) i).
  rewrite get_map_seq by lia. autorewrite with np. f_equal.
  rewrite minus_IZR. lra.
Qed.

(** X10.  For pulsars with finite epochs and [npts >= 2] the time grid
    [ut] has [npts] points spaced [dur/(npts - 1)] from [start] to
    [stop], whereas the sampling interval [dt = dur/npts] that scales the
    spectrum and the transform is strictly shorter. *)
Theorem gwb_grid_spacing (cholesky : matrix -> result matrix)
    (psr : list pulsar) (a : gwb_args) (n : Z) (h : R) :
  psr <> [] -> Forall finite_epochs psr ->
  npts a = Some n -> (2 <= n)%Z ->
  howml a = Fin h -> (0 < h)%R -> (2 < IZR n * h)%R ->
  exists lo hi : R,
    min_epoch psr lo /\ max_epoch psr hi
    /\ let start := (lo - 86400)%R in
       let stop := (hi + 86400)%R in
       let dur := (stop - start)%R in
       forall M : matrix,
         cholesky (if noCorr a then N_diag2 (length psr) else computeORFMatrix psr) = Ok M ->
         exists s : gwb_setup,
           gwb_prepare cholesky psr a = Ok s
           /\ length (g_ut s) = Z.to_nat n
           /\ (forall i, (i < Z.to_nat n - 1)%nat ->
                 get (g_ut s) i = Fin (start + INR i * (dur / (IZR n - 1))))
           /\ get (g_ut s) (Z.to_nat n - 1) = Fin stop
           /\ g_dt s = Fin (dur / IZR n)
           /\ (dur / IZR n < dur / (IZR n - 1))%R.
Proof.
  intros Hne Hfin Hnpts Hn Hhowml Hh Hnh.
  destruct (gwb_prepare_spec cholesky psr a n h Hne Hfin Hnpts ltac:(lia) Hhowml Hh Hnh)
    as (lo & hi & Hlo & Hhi & Hprep).
  exists lo, hi. split; [exact Hlo |]. split; [exact Hhi |].
  intros start stop dur M HM.
  destruct (Hprep M HM) as (f & Hrun & _).
  pose proof (min_le_max_epoch psr lo hi Hlo Hhi) as Hle.
  assert (Hdur : (0 < dur)%R) by (unfold dur, stop, start; lra).
  assert (Hn' : (2 <= IZR n)%R) by (now apply IZR_le).
  destruct (N_linspace_ends start stop n Hn) as (_ & Hlast & Hlen).
  eexists. split; [exact Hrun |]. cbn [g_ut g_dt].
  split; [exact Hlen |]. split; [| split; [| split; [reflexivity |] ] ].
  - intros i Hi. now rewrite N_linspace_get.
  - unfold get. rewrite <- Hlen. rewrite nth_last_elem. exact Hlast.
  - unfold Rdiv. apply Rmult_lt_compat_l; [exact Hdur |].
    apply Rinv_lt_contravar; [nra | lra].
Qed.

Lemma gwb_grid_spacing_witness :
  let psr := [psr_equator; psr_pole] in
  exists lo hi : R,
    min_epoch psr lo /\ max_epoch psr hi
    /\ let start := (lo - 86400)%R in
       let stop := (hi + 86400)%R in
       let dur := (stop - start)%R in
       forall M : matrix,
         trivial_cholesky (computeORFMatrix psr) = Ok M ->
         exists s : gwb_setup,
           gwb_prepare trivial_cholesky psr (gwb_with 600 10) = Ok s
           /\ length (g_ut s) = 600%nat
           /\ (forall i, (i < 599)%nat ->
                 get (g_ut s) i = Fin (start + INR i * (dur / (600 - 1))))
           /\ get (g_ut s) 599 = Fin stop
           /\ g_dt s = Fin (dur / 600)
           /\ (dur / 600 < dur / (600 - 1))%R.
Proof.
  apply (gwb_grid_spacing trivial_cholesky [psr_equator; psr_pole] (gwb_with 600 10)
           600 10);
    try reflexivity; try lra; try lia; try discriminate;
    try exact finite_epochs_inputs.
Defined.

(** ** add_line *)

Lemma length_arr_add (a b : array) :
  length a = length b -> length (arr_add a b) = length a.
Proof.
  revert b. induction a as [| x a IH]; intros [| y b] H; simpl in *;
    try discriminate; trivial.
  f_equal. apply IH. lia.
Qed.

Lemma iadd_same_length (a b : array) :
  length b = length a -> iadd a b = Ok (arr_add a b).
Proof. intros H. unfold iadd. now rewrite H, Nat.eqb_refl. Qed.

(** [a[:] += b] raises exactly when the shapes differ and [b] is not a
    single element; otherwise the length of [a] is kept. *)
Lemma iadd_cases (a b : array) :
  (length b <> length a /\ length b <> 1%nat /\ iadd a b = Raise ValueError)
  \/ ((length b = length a \/ length b = 1%nat)
      /\ exists a', iadd a b = Ok a' /\ length a' = length a).
Proof.
  unfold iadd. destruct (Nat.eqb_spec (length b) (length a)) as [Heq | Hne].
  - right. split; [now left |]. eexists. split; [reflexivity |].
    apply length_arr_add. now symmetry.
  - destruct b as [| y [| z b]].
    + left. split; [exact Hne | split; [simpl; lia | reflexivity] ].
    + right. split; [now right |]. eexists. split; [reflexivity |].
      apply length_map.
    + left. split; [exact Hne | split; [simpl; lia | reflexivity] ].
Qed.

(** X11.  [add_line] raises in two cases only, and then [ValueError]:
    when the pulsar has no epoch (the maximum of an empty array), and
    when the arrays of epochs and of arrival times differ in length and
    there is more than one epoch.  In every other case it returns the
    pulsar with its arrival times updated and nothing else changed. *)
Theorem add_line_errors (psr : pulsar) (f A offset : npfloat) :
  (toas psr = []
   \/ (length (toas psr) <> length (stoas psr) /\ length (toas psr) <> 1%nat) ->
   add_line psr f A offset = Raise ValueError)
  /\ (toas psr <> [] ->
      length (toas psr) = length (stoas psr) \/ length (toas psr) = 1%nat ->
      exists s', add_line psr f A offset = Ok (set_stoas psr s')
                 /\ length s' = length (stoas psr)).
Proof.
  unfold add_line.
  destruct (toas psr) as [| t0 ts] eqn:Et.
  - split; [reflexivity | intros H; now contradiction H].
  - cbn [arr_max arr_min bind].
    set (b := map (fun s => s / day) (map _ (t0 :: ts))).
    assert (Hb : length b = length (t0 :: ts)) by (unfold b; now rewrite !length_map).
    destruct (iadd_cases (stoas psr) b) as [(H1 & H2 & ->) | (H1 & s' & -> & Hs')].
    + split; [reflexivity |]. intros _ Hc. rewrite Hb in H1, H2. now destruct Hc.
    + split.
      * intros [Hc | [Hc1 Hc2]]; [discriminate |]. rewrite Hb in H1. now destruct H1.
      * intros _ _. exists s'. split; [reflexivity | exact Hs'].
Qed.

(** X12.  For finite epochs and finite [f], [A] and [offset], with one
    arrival time per epoch, [add_line] returns, and what it adds to a
    finite arrival time is at most [|A|/86400] days in size. *)
Theorem add_line_bounded (psr : pulsar) (f A offset : R) (i : nat) (s : R) :
  toas psr <> [] -> Forall (fun t => is_finite t = true) (toas psr) ->
  length (stoas psr) = length (toas psr) ->
  (i < length (toas psr))%nat ->
  get (stoas psr) i = Fin s ->
  exists (psr' : pulsar) (d : R),
    add_line psr (Fin f) (Fin A) (Fin offset) = Ok psr'
    /\ get (stoas psr') i = Fin (s + d)
    /\ (Rabs d <= Rabs A / 86400)%R.
Proof.
  intros Hne Hfin Hlen Hi Hs.
  destruct (arr_max_spec (toas psr) Hne Hfin) as (mx & Hmx & _).
  destruct (arr_min_spec (toas psr) Hne Hfin) as (mn & Hmn & _).
  unfold add_line. rewrite Hmx, Hmn. cbn [bind].
  rewrite iadd_same_length by (now rewrite !length_map).
  cbn [bind].
  rewrite Forall_forall in Hfin.
  assert (Hti : is_finite (get (toas psr) i) = true).
  { apply Hfin. unfold get. now apply nth_In. }
  destruct (get (toas psr) i) as [ti | | |] eqn:Eti; try discriminate.
  eexists. exists (A * cos (2 * PI * f * (24 * 3600) * (ti - offset * (mx - mn)))
                   / (24 * 3600))%R.
  split; [reflexivity |]. cbn [stoas set_stoas]. split.
  - rewrite get_arr_add by (rewrite ?length_map; lia).
    rewrite !get_map by (rewrite ?length_map; lia).
    rewrite Hs, Eti. unfold np_pi, day. autorewrite with np.
    rewrite np_div_nonzero by lra. now autorewrite with np.
  - set (c := cos _). pose proof (COS_bound (2 * PI * f * (24 * 3600)
                                             * (ti - offset * (mx - mn)))) as [Hc1 Hc2].
    fold c in Hc1, Hc2.
    unfold Rdiv. rewrite Rabs_mult, Rabs_mult.
    rewrite (Rabs_right (/ (24 * 3600))) by (apply Rle_ge; left; apply Rinv_0_lt_compat; lra).
    replace (/ 86400)%R with (/ (24 * 3600))%R by (f_equal; lra).
    apply Rmult_le_compat_r; [left; apply Rinv_0_lt_compat; lra |].
    assert (Hc : (Rabs c <= 1)%R) by (apply Rabs_le; lra).
    pose proof (Rabs_pos A). nra.
Qed.

Lemma add_line_bounded_witness :
  exists (psr' : pulsar) (d : R),
    add_line psr_equator (Fin 1e-8) (Fin 1e-6) (Fin 0.5) = Ok psr'
    /\ get (stoas psr') 1 = Fin (53010 + d)
    /\ (Rabs d <= Rabs 1e-6 / 86400)%R.
Proof.
  apply (add_line_bounded psr_equator 1e-8 1e-6 0.5 1 53010);
    try reflexivity; try discriminate; try (simpl; lia).
  repeat constructor.
Defined.

(** ** add_equad and add_efac *)

Lemma combine_repeat_map {A B C : Type} (op : A -> B -> C) (v : A) (r : list B) :
  map (fun '(x, y) => op x y) (combine (repeat v (length r)) r) = map (op v) r.
Proof.
  induction r as [| y r IH]; [reflexivity |]. simpl. now rewrite IH.
Qed.

Lemma get_seq_map (g : nat -> npfloat) (a : array) (n i : nat) :
  length a = n -> (i < n)%nat ->
  get (arr_add a (map g (seq 0 n))) i = get a i + g i.
Proof.
  intros Hlen Hi.
  rewrite get_arr_add by (rewrite ?length_map, ?length_seq; lia).
  now rewrite get_map_seq.
Qed.

Lemma get_map_combine (op : npfloat -> npfloat -> npfloat) (a b : array) (i : nat) :
  length a = length b -> (i < length a)%nat ->
  get (map (fun '(x, y) => op x y) (combine a b)) i = op (get a i) (get b i).
Proof.
  revert b i. induction a as [| x a IH]; intros [| y b] i Hlen Hi; simpl in *;
    try discriminate; try lia.
  destruct i as [| i]; [reflexivity |].
  exact (IH b i ltac:(lia) ltac:(lia)).
Qed.

Section InjectorDraws.

Variable rng_state : Type.
Variable random_seed : Z -> rng_state.
Variable standard_normal : rng_state -> npfloat * rng_state.

(** [add_equad] in closed form. *)
Lemma add_equad_spec (psr : pulsar) (equad : npfloat) (seed : option Z)
    (g : rng_state) :
  add_equad random_seed standard_normal psr equad seed g
  = (Ok (set_stoas psr
           (arr_add (stoas psr)
              (map (fun k => equad / day
                             * draw_at standard_normal (reseed random_seed seed g) k)
                   (seq 0 (nobs psr))))),
     advance standard_normal (nobs psr) (reseed random_seed seed g)).
Proof.
  unfold add_equad. rewrite randn_spec, map_map.
  rewrite iadd_same_length by (now rewrite length_map, length_seq).
  reflexivity.
Qed.

End InjectorDraws.

(** X13.  On a seed that numpy accepts, or none, [add_equad] raises
    nothing.  It takes one draw per arrival time from the generator,
    after the seed, if any, has reset it; arrival time [i] receives
    [equad/day] times the draw of index [i]. *)
Theorem add_equad_draws (rng_state : Type) (random_seed : Z -> rng_state)
    (standard_normal : rng_state -> npfloat * rng_state)
    (psr : pulsar) (equad : npfloat) (seed : option Z) (g : rng_state) :
  seed_accepted seed ->
  let g0 := reseed random_seed seed g in
  exists s' : array,
    add_equad random_seed standard_normal psr equad seed g
    = (Ok (set_stoas psr s'), advance standard_normal (nobs psr) g0)
    /\ length s' = nobs psr
    /\ forall i, (i < nobs psr)%nat ->
         get s' i = get (stoas psr) i + equad / day * draw_at standard_normal g0 i.
Proof.
  intros _ g0. rewrite add_equad_spec. fold g0. eexists. split; [reflexivity |]. split.
  - rewrite length_arr_add; [reflexivity |]. now rewrite length_map, length_seq.
  - intros i Hi. now apply get_seq_map.
Qed.

Lemma add_equad_draws_witness :
  let g0 := reseed counter_seed (Some 3%Z) 0%nat in
  exists s' : array,
    add_equad counter_seed counter_normal psr_equator (Fin 1e-6) (Some 3%Z) 0%nat
    = (Ok (set_stoas psr_equator s'), advance counter_normal (nobs psr_equator) g0)
    /\ length s' = nobs psr_equator
    /\ forall i, (i < nobs psr_equator)%nat ->
         get s' i
         = get (stoas psr_equator) i + Fin 1e-6 / day * draw_at counter_normal g0 i.
Proof.
  apply (add_equad_draws nat counter_seed counter_normal psr_equator (Fin 1e-6)
           (Some 3%Z) 0%nat).
  cbn. lia.
Defined.


(** X15.  With one error [c] (in microseconds) for every arrival time,
    [add_efac] with the factor [e] is [add_equad] with the rms
    [e c 1e-6] seconds: the same pulsar comes back and the generator is
    left in the same state. *)
Theorem add_efac_uniform_errors (rng_state : Type) (random_seed : Z -> rng_state)
    (standard_normal : rng_state -> npfloat * rng_state)
    (psr : tempopulsar) (e c : R) (seed : option Z) (g : rng_state) :
  toaerrs psr = repeat (Fin c) (nobs (base psr)) ->
  add_efac random_seed standard_normal psr (Fin e) seed g
  = add_equad random_seed standard_normal (base psr) (Fin (e * c * 1e-6)) seed g.
Proof.
  intros Herr. unfold add_efac, add_equad. rewrite Herr.
  rewrite randn_spec.
  set (r := map _ (seq 0 (nobs (base psr)))).
  assert (Hr : length r = nobs (base psr)) by (unfold r; now rewrite length_map, length_seq).
  unfold broadcast2. rewrite length_map, repeat_length, Hr, Nat.eqb_refl.
  rewrite map_repeat. rewrite <- Hr at 1. rewrite combine_repeat_map.
  cbn [bind]. do 3 f_equal. apply map_ext. intros x.
  unfold day. rewrite !np_div_nonzero by lra. autorewrite with np.
  f_equal. f_equal. field.
Qed.

Lemma add_efac_uniform_errors_witness :
  add_efac counter_seed counter_normal tpsr_equator (Fin 2) (Some 3%Z) 0%nat
  = add_equad counter_seed counter_normal psr_equator (Fin (2 * 0.5 * 1e-6))
      (Some 3%Z) 0%nat.
Proof.
  apply (add_efac_uniform_errors nat counter_seed counter_normal tpsr_equator 2 0.5).
  reflexivity.
Defined.



(** ** The Fourier design matrix of add_rednoise and add_dm *)

Lemma nth_map_combine {A B C : Type} (F : A -> B -> C) (a : list A) (b : list B)
    (i : nat) (da : A) (db : B) (dc : C) :
  length a = length b -> (i < length a)%nat ->
  nth i (map (fun '(x, y) => F x y) (combine a b)) dc = F (nth i a da) (nth i b db).
Proof.
  revert b i. induction a as [| x a IH]; intros [| y b] i Hlen Hi; simpl in *;
    try discriminate; try lia.
  destruct i as [| i]; [reflexivity |].
  exact (IH b i ltac:(lia) ltac:(lia)).
Qed.

Lemma get_list_set (j k : nat) (v : npfloat) (row : array) :
  (j < length row)%nat ->
  get (list_set j v row) k = if Nat.eqb k j then v else get row k.
Proof.
  intros Hj. unfold get. destruct (Nat.eqb_spec k j) as [-> | Hne].
  - now apply nth_list_set_eq.
  - apply nth_list_set_neq. auto.
Qed.

(** [M[:, j] = v] with one entry of [v] per row. *)
Lemma set_col_spec (r c j : nat) (v : array) (M : matrix) :
  shape r c M -> length v = r -> (j < c)%nat ->
  exists M', set_col j v M = Ok M'
    /\ shape r c M'
    /\ forall i k, (i < r)%nat ->
         mat_get M' i k = if Nat.eqb k j then get v i else mat_get M i k.
Proof.
  intros HM Hv Hj. pose proof HM as [Hr Hc]. unfold set_col.
  rewrite Hv, Hr, Nat.eqb_refl. eexists. split; [reflexivity |]. split; [split |].
  - rewrite length_map, length_combine. lia.
  - rewrite Forall_forall in *. intros row Hin.
    apply in_map_iff in Hin. destruct Hin as ([row0 x0] & <- & Hin).
    rewrite length_list_set. apply Hc. exact (in_combine_l _ _ _ _ Hin).
  - intros i k Hi. unfold mat_get.
    rewrite (nth_map_combine (fun row x => list_set j x row) M v i [] NaN) by lia.
    fold (get v i). apply get_list_set. rewrite (shape_row r c); assumption.
Qed.

Lemma mat_get_zeros (r c i k : nat) :
  (i < r)%nat -> (k < c)%nat -> mat_get (N_zeros2 r c) i k = Fin 0.
Proof.
  intros Hi Hk. unfold mat_get, N_zeros2, N_zeros, get.
  rewrite nth_repeat_lt by assumption. now apply nth_repeat_lt.
Qed.

Lemma even_double (i : nat) : Nat.even (2 * i) = true.
Proof. replace (2 * i)%nat with (0 + 2 * i)%nat by lia. now rewrite Nat.even_add_mul_2. Qed.

Lemma even_double_succ (i : nat) : Nat.even (2 * i + 1) = false.
Proof. replace (2 * i + 1)%nat with (1 + 2 * i)%nat by lia. now rewrite Nat.even_add_mul_2. Qed.

Lemma half_double (i : nat) : ((2 * i) / 2 = i)%nat.
Proof. rewrite Nat.mul_comm. now apply Nat.div_mul. Qed.

Lemma half_double_succ (i : nat) : ((2 * i + 1) / 2 = i)%nat.
Proof.
  rewrite (Nat.mul_comm 2 i), Nat.div_add_l by lia.
  rewrite (Nat.div_small 1 2) by lia. lia.
Qed.

(** After [k] rounds of the loop over [i] the first [2 k] columns of
    [F] and entries of [f] are filled. *)
Lemma fourier_loop (x : array) (T : npfloat) (nrows comps k : nat) :
  length x = nrows -> (k <= comps)%nat ->
  exists (F : matrix) (f : array),
    fold_left (fourier_step x T) (seq 0 k)
      (Ok (N_zeros2 nrows (2 * comps), N_zeros (2 * comps))) = Ok (F, f)
    /\ shape nrows (2 * comps) F /\ length f = (2 * comps)%nat
    /\ (forall i col, (i < nrows)%nat -> (col < 2 * comps)%nat ->
          mat_get F i col
          = if (col <? 2 * k)%nat then fourier_entry x i col else Fin 0)
    /\ (forall col, (col < 2 * comps)%nat ->
          get f col = if (col <? 2 * k)%nat then fourier_freq T col else Fin 0).
Proof.
  intros Hx Hk. induction k as [| k IH].
  - exists (N_zeros2 nrows (2 * comps)), (N_zeros (2 * comps)).
    split; [reflexivity |]. split; [apply shape_zeros |].
    split; [apply repeat_length |]. split.
    + intros i col Hi Hcol. now apply mat_get_zeros.
    + intros col Hcol. unfold get, N_zeros. now apply nth_repeat_lt.
  - destruct IH as (F & f & Hfold & HF & Hf & HgF & Hgf); [lia |].
    rewrite seq_S, fold_left_app, Hfold. cbn [fold_left Nat.add].
    unfold fourier_step. cbn [bind].
    destruct (set_col_spec nrows (2 * comps) (2 * k)
                (map (fun xk => np_cos (Fin 2 * np_pi * Fin (INR (k + 1)) * xk)) x) F)
      as (F1 & -> & HF1 & HgF1); trivial; [now rewrite length_map | lia |].
    cbn [bind].
    destruct (set_col_spec nrows (2 * comps) (2 * k + 1)
                (map (fun xk => np_sin (Fin 2 * np_pi * Fin (INR (k + 1)) * xk)) x) F1)
      as (F2 & -> & HF2 & HgF2); trivial; [now rewrite length_map | lia |].
    cbn [bind]. eexists. eexists. split; [reflexivity |].
    split; [exact HF2 |]. split; [now rewrite !length_list_set |]. split.
    + intros i col Hi Hcol. rewrite HgF2, HgF1, HgF by assumption.
      destruct (Nat.eqb_spec col (2 * k + 1)) as [-> | Hne1].
      * rewrite (proj2 (Nat.ltb_lt _ _)) by lia.
        unfold fourier_entry. rewrite even_double_succ, half_double_succ.
        now rewrite get_map by lia.
      * destruct (Nat.eqb_spec col (2 * k)) as [-> | Hne0].
        -- rewrite (proj2 (Nat.ltb_lt _ _)) by lia.
           unfold fourier_entry. rewrite even_double, half_double.
           now rewrite get_map by lia.
        -- destruct (Nat.ltb_spec col (2 * k)), (Nat.ltb_spec col (2 * S k));
             trivial; lia.
    + intros col Hcol. rewrite !get_list_set by (rewrite ?length_list_set; lia).
      rewrite Hgf by assumption.
      destruct (Nat.eqb_spec col (2 * k + 1)) as [-> | Hne1].
      * rewrite (proj2 (Nat.ltb_lt _ _)) by lia.
        unfold fourier_freq. now rewrite half_double_succ.
      * destruct (Nat.eqb_spec col (2 * k)) as [-> | Hne0].
        -- rewrite (proj2 (Nat.ltb_lt _ _)) by lia.
           unfold fourier_freq. now rewrite half_double.
        -- destruct (Nat.ltb_spec col (2 * k)), (Nat.ltb_spec col (2 * S k));
             trivial; lia.
Qed.

(** Lines 207-220 for a pulsar with one arrival time per epoch. *)
Lemma fourier_design_spec (t : array) (nrows : nat) (components : Z) :
  t <> [] -> length t = nrows -> (0 <= components)%Z ->
  exists (minx maxx : npfloat) (F : matrix) (f : array),
    arr_min t = Ok minx /\ arr_max t = Ok maxx
    /\ let x := map (fun tk => (tk - minx) / (maxx - minx)) t in
       let T := day / year * (maxx - minx) in
       let size := (2 * Z.to_nat components)%nat in
       fourier_design t nrows components = Ok (F, f, T)
       /\ shape nrows size F /\ length f = size
       /\ (forall i col, (i < nrows)%nat -> (col < size)%nat ->
             mat_get F i col = fourier_entry x i col)
       /\ (forall col, (col < size)%nat -> get f col = fourier_freq T col).
Proof.
  intros Hne Hlen Hc. destruct t as [| t0 ts]; [contradiction |].
  eexists. eexists.
  set (t := t0 :: ts) in *.
  set (minx := fold_left np_minimum ts t0).
  set (maxx := fold_left np_maximum ts t0).
  set (x := map (fun tk => (tk - minx) / (maxx - minx)) t).
  destruct (fourier_loop x (day / year * (maxx - minx)) nrows (Z.to_nat components)
              (Z.to_nat components)) as (F & f & Hfold & HF & Hf & HgF & Hgf);
    [unfold x; now rewrite length_map | lia |].
  exists F, f. split; [reflexivity |]. split; [reflexivity |].
  intros x' T size. subst x' T size.
  split; [| split; [exact HF | split; [exact Hf | split] ] ].
  - unfold fourier_design. cbn [arr_min arr_max bind t]. fold minx maxx.
    rewrite (proj2 (Z.ltb_ge components 0)) by lia.
    fold t. fold x. rewrite Hfold. reflexivity.
  - intros i col Hi Hcol. rewrite HgF by assumption.
    now rewrite (proj2 (Nat.ltb_lt _ _)).
  - intros col Hcol. rewrite Hgf by assumption.
    now rewrite (proj2 (Nat.ltb_lt _ _)).
Qed.

(** X17.  For a pulsar with at least one epoch and one row of [F] per
    epoch, the loop of [add_rednoise] (and of [add_dm]) ends with the
    columns [2 i] and [2 i + 1] of [F] holding [cos(2 pi (i+1) x)] and
    [sin(2 pi (i+1) x)] at the scaled epochs
    [x = (t - min t)/(max t - min t)], and with
    [f[2 i] = f[2 i + 1] = (i + 1)/T] for [T = (day/year)(max t - min t)]. *)
Theorem fourier_design_entries (t : array) (components : Z) :
  t <> [] -> (0 <= components)%Z ->
  exists (minx maxx : npfloat) (F : matrix) (f : array),
    arr_min t = Ok minx /\ arr_max t = Ok maxx
    /\ let x := map (fun tk => (tk - minx) / (maxx - minx)) t in
       let T := day / year * (maxx - minx) in
       fourier_design t (length t) components = Ok (F, f, T)
       /\ shape (length t) (2 * Z.to_nat components) F
       /\ length f = (2 * Z.to_nat components)%nat
       /\ forall i k, (i < Z.to_nat components)%nat -> (k < length t)%nat ->
            let w := Fin 2 * np_pi * Fin (INR (i + 1)) in
            mat_get F k (2 * i) = np_cos (w * get x k)
            /\ mat_get F k (2 * i + 1) = np_sin (w * get x k)
            /\ get f (2 * i) = Fin (INR (i + 1)) / T
            /\ get f (2 * i + 1) = Fin (INR (i + 1)) / T.
Proof.
  intros Hne Hc.
  destruct (fourier_design_spec t (length t) components Hne eq_refl Hc)
    as (minx & maxx & F & f & Hmin & Hmax & Hdes & HF & Hf & HgF & Hgf).
  exists minx, maxx, F, f. split; [exact Hmin |]. split; [exact Hmax |].
  intros x T. split; [exact Hdes |]. split; [exact HF |]. split; [exact Hf |].
  intros i k Hi Hk w.
  rewrite !HgF, !Hgf by lia. unfold fourier_entry, fourier_freq.
  rewrite even_double, even_double_succ, half_double, half_double_succ.
  repeat split; reflexivity.
Qed.

Lemma fourier_design_entries_witness :
  let t := toas psr_equator in
  exists (minx maxx : npfloat) (F : matrix) (f : array),
    arr_min t = Ok minx /\ arr_max t = Ok maxx
    /\ let x := map (fun tk => (tk - minx) / (maxx - minx)) t in
       let T := day / year * (maxx - minx) in
       fourier_design t 2 10 = Ok (F, f, T)
       /\ shape 2 20 F
       /\ length f = 20%nat
       /\ forall i k, (i < 10)%nat -> (k < 2)%nat ->
            let w := Fin 2 * np_pi * Fin (INR (i + 1)) in
            mat_get F k (2 * i) = np_cos (w * get x k)
            /\ mat_get F k (2 * i + 1) = np_sin (w * get x k)
            /\ get f (2 * i) = Fin (INR (i + 1)) / T
            /\ get f (2 * i + 1) = Fin (INR (i + 1)) / T.
Proof.
  apply (fourier_design_entries (toas psr_equator) 10); [discriminate | lia].
Defined.

(** ** add_rednoise and add_dm *)

Lemma np_add_zero_r (a : npfloat) : a + Fin 0 = a.
Proof. destruct a; unfold np_add; trivial. f_equal. lra. Qed.

Lemma arr_add_zeros (a b : array) :
  length a = length b -> Forall (fun y => y = Fin 0) b -> arr_add a b = a.
Proof.
  revert b. induction a as [| x a IH]; intros [| y b] Hlen Hall; simpl in *;
    try discriminate; trivial.
  inversion Hall as [| ? ? Hy Hb]; subst.
  rewrite np_add_zero_r. f_equal. apply IH; [lia | assumption].
Qed.

Lemma fold_add_nan (l : array) : fold_left np_add l NaN = NaN.
Proof.
  induction l as [| x l IH]; [reflexivity |]. cbn [fold_left].
  now rewrite np_add_nan_l.
Qed.

(** A scalar product whose first factor is [nan] is [nan]. *)
Lemma N_dot_nan_head (row y : array) :
  get row 0 = NaN -> row <> [] -> y <> [] -> N_dot row y = NaN.
Proof.
  intros H0 Hrow Hy. destruct row as [| r0 row]; [contradiction |].
  destruct y as [| y0 y]; [contradiction |].
  unfold get in H0. cbn [nth] in H0. subst r0.
  unfold N_dot, N_sum. cbn [arr_mul fold_left].
  rewrite np_mul_nan_l, np_add_nan_r. apply fold_add_nan.
Qed.

Lemma set_stoas_same (psr : pulsar) : set_stoas psr (stoas psr) = psr.
Proof. now destruct psr. Qed.

Lemma length_mat_vec (M : matrix) (y : array) : length (mat_vec M y) = length M.
Proof. apply length_map. Qed.

Section RedNoise.

Variable rng_state : Type.
Variable random_seed : Z -> rng_state.
Variable standard_normal : rng_state -> npfloat * rng_state.

(** Lines 207-225 when the design matrix is built: the series, and the
    generator after the [2 * components] draws. *)
Lemma fourier_series_spec (t : array) (nrows : nat) (A gamma : npfloat)
    (components : Z) (g : rng_state) (F : matrix) (f : array) (T : npfloat) :
  fourier_design t nrows components = Ok (F, f, T) ->
  fourier_series standard_normal t nrows A gamma components g
  = (Ok (mat_vec F
           (arr_mul (map np_sqrt (fourier_prior A gamma T f))
              (map (draw_at standard_normal g) (seq 0 (2 * Z.to_nat components))))),
     advance standard_normal (2 * Z.to_nat components) g).
Proof.
  intros Hdes. unfold fourier_series. rewrite Hdes, randn_spec. reflexivity.
Qed.

Lemma fourier_series_raises (t : array) (nrows : nat) (A gamma : npfloat)
    (components : Z) (g : rng_state) (e : exn) :
  fourier_design t nrows components = Raise e ->
  fourier_series standard_normal t nrows A gamma components g = (Raise e, g).
Proof. intros Hdes. unfold fourier_series. now rewrite Hdes. Qed.

End RedNoise.

Lemma fourier_design_raises (t : array) (nrows : nat) (components : Z) :
  t = [] \/ (components < 0)%Z ->
  fourier_design t nrows components = Raise ValueError.
Proof.
  intros H. unfold fourier_design. destruct t as [| t0 ts]; [reflexivity |].
  destruct H as [H | H]; [discriminate |].
  cbn [arr_min arr_max bind]. now rewrite (proj2 (Z.ltb_lt components 0)).
Qed.

(** X18.  [add_rednoise] and [add_dm] raise [ValueError] when the
    pulsar has no epoch or [components] is negative; no random number
    is drawn then, the generator is left as the seed, if any, set it. *)
Theorem add_rednoise_errors (rng_state : Type) (random_seed : Z -> rng_state)
    (standard_normal : rng_state -> npfloat * rng_state)
    (psr : tempopulsar) (A gamma : npfloat) (components : Z) (seed : option Z)
    (g : rng_state) :
  toas (base psr) = [] \/ (components < 0)%Z ->
  add_rednoise random_seed standard_normal (base psr) A gamma components seed g
  = (Raise ValueError, reseed random_seed seed g)
  /\ add_dm random_seed standard_normal psr A gamma components seed g
     = (Raise ValueError, reseed random_seed seed g).
Proof.
  intros H. unfold add_rednoise, add_dm.
  rewrite (fourier_series_raises rng_state standard_normal _ _ A gamma components _
             ValueError (fourier_design_raises _ _ _ H)).
  split; reflexivity.
Qed.

Lemma add_rednoise_errors_witness :
  add_rednoise counter_seed counter_normal (base tpsr_equator) (Fin 1e-14) (Fin 4.33)
    (-1) (Some 3%Z) 0%nat
  = (Raise ValueError, reseed counter_seed (Some 3%Z) 0%nat)
  /\ add_dm counter_seed counter_normal tpsr_equator (Fin 1e-14) (Fin 4.33)
       (-1) (Some 3%Z) 0%nat
     = (Raise ValueError, reseed counter_seed (Some 3%Z) 0%nat).
Proof.
  apply (add_rednoise_errors nat counter_seed counter_normal tpsr_equator).
  right. lia.
Defined.



Lemma length_arr_mul (a b : array) :
  length (arr_mul a b) = Nat.min (length a) (length b).
Proof.
  revert b. induction a as [| x a IH]; intros [| y b]; simpl; trivial.
  now rewrite IH.
Qed.





(** ** quantize_fast *)

Lemma last_map_nonempty {A B : Type} (h : A -> B) (l : list A) (a : A) (da : A) (db : B) :
  last (map h (l ++ [a])) db = h (last (l ++ [a]) da).
Proof. rewrite map_app. cbn [map]. now rewrite !last_last. Qed.

Lemma hd_snoc (b : list nat) (i : nat) : b <> [] -> hd 0%nat (b ++ [i]) = hd 0%nat b.
Proof. now destruct b. Qed.

Lemma tl_snoc (b : list nat) (i : nat) : b <> [] -> tl (b ++ [i]) = tl b ++ [i].
Proof. now destruct b. Qed.

Lemma bucket_step_inv (times : array) (dt : npfloat) (seen : list nat)
    (st : array * list (list nat)) (i : nat) :
  buckets_inv times dt seen st ->
  buckets_inv times dt (seen ++ [i]) (bucket_step times dt st i).
Proof.
  destruct st as [refs inds]. unfold buckets_inv. cbn [fst snd].
  intros (Hcat & Hne & Hall & Hrefs & Htest).
  destruct (exists_last Hne) as (init & b & ->).
  apply Forall_app in Hall. destruct Hall as [Hinit Hb].
  inversion Hb as [| ? ? Hbne _]; subst.
  apply Forall_app in Htest. destruct Htest as [Tinit Tb].
  inversion Tb as [| ? ? Tb' _]; subst.
  unfold bucket_step.
  rewrite (last_map_nonempty (fun b => get times (hd 0%nat b)) init b []).
  rewrite last_last, removelast_last.
  destruct (get times i - get times (hd 0%nat b) <? dt) eqn:E; cbn [fst snd].
  - split; [| split; [| split; [| split] ] ].
    + rewrite !concat_app. cbn [concat]. rewrite !app_nil_r. now rewrite app_assoc.
    + now destruct init.
    + apply Forall_app. split; [exact Hinit |]. constructor; [| constructor].
      now destruct b.
    + rewrite !map_app. cbn [map]. now rewrite hd_snoc.
    + apply Forall_app. split; [exact Tinit |]. constructor; [| constructor].
      intros k Hk. rewrite hd_snoc by assumption. rewrite tl_snoc in Hk by assumption.
      apply in_app_or in Hk. destruct Hk as [Hk | [<- | []]]; [now apply Tb' | exact E].
  - split; [| split; [| split; [| split] ] ].
    + rewrite concat_app. cbn [concat]. now rewrite app_nil_r.
    + now destruct (init ++ [b]).
    + apply Forall_app. split; [apply Forall_app; now split |].
      constructor; [discriminate | constructor].
    + now rewrite !map_app.
    + apply Forall_app. split; [apply Forall_app; now split |].
      constructor; [| constructor]. intros k [].
Qed.

Lemma bucket_fold_inv (times : array) (dt : npfloat) (i0 : nat) (rest : list nat) :
  buckets_inv times dt (i0 :: rest)
    (fold_left (bucket_step times dt) rest ([get times i0], [[i0]])).
Proof.
  induction rest as [| i rest IH] using rev_ind.
  - unfold buckets_inv. cbn [fold_left fst snd concat app map hd].
    repeat split; try discriminate.
    + constructor; [discriminate | constructor].
    + constructor; [| constructor]. intros k [].
  - rewrite fold_left_app. cbn [fold_left].
    change (i0 :: rest ++ [i]) with ((i0 :: rest) ++ [i]).
    now apply bucket_step_inv.
Qed.

(** The marks of one bucket, and of all of them. *)
Lemma mark_bucket_get (r c col : nat) (l : list nat) (U : matrix) (i k : nat) :
  shape r c U -> (col < c)%nat -> Forall (fun x => (x < r)%nat) l ->
  shape r c (mark_bucket U (col, l))
  /\ mat_get (mark_bucket U (col, l)) i k
     = if Nat.eqb k col && existsb (Nat.eqb i) l then Fin 1 else mat_get U i k.
Proof.
  intros HU Hcol Hl. unfold mark_bucket. revert U HU.
  induction Hl as [| x l Hx Hl IH]; intros U HU; cbn [fold_left existsb].
  - split; [exact HU |]. now rewrite andb_false_r.
  - destruct (IH (mat_set x col (Fin 1) U) (shape_mat_set r c x col (Fin 1) U HU))
      as [Hs Hg].
    split; [exact Hs |]. rewrite Hg.
    rewrite (mat_get_mat_set r c) by assumption.
    destruct (Nat.eqb k col), (Nat.eqb i x), (existsb (Nat.eqb i) l); reflexivity.
Qed.

Lemma mark_buckets_get (r c : nat) (inds : list (list nat)) (start : nat)
    (U : matrix) (i k : nat) :
  shape r c U -> (start + length inds <= c)%nat ->
  Forall (Forall (fun x => (x < r)%nat)) inds ->
  shape r c (fold_left mark_bucket (combine (seq start (length inds)) inds) U)
  /\ mat_get (fold_left mark_bucket (combine (seq start (length inds)) inds) U) i k
     = if Nat.leb start k && Nat.ltb k (start + length inds)
          && existsb (Nat.eqb i) (nth (k - start) inds [])
       then Fin 1 else mat_get U i k.
Proof.
  intros HU Hc Hall. revert start U HU Hc.
  induction Hall as [| b inds Hb Hall IH]; intros start U HU Hc.
  - cbn [length seq combine fold_left]. split; [exact HU |].
    destruct (Nat.leb_spec start k), (Nat.ltb_spec k (start + 0)); trivial; lia.
  - cbn [length seq combine fold_left] in *.
    destruct (mark_bucket_get r c start b U i k HU ltac:(lia) Hb) as [Hs1 Hg1].
    destruct (IH (S start) (mark_bucket U (start, b)) Hs1 ltac:(lia)) as [Hs Hg].
    split; [exact Hs |]. rewrite Hg, Hg1.
    destruct (Nat.eqb_spec k start) as [-> | Hne].
    + rewrite Nat.sub_diag. cbn [nth].
      rewrite (proj2 (Nat.leb_gt (S start) start)) by lia.
      rewrite (proj2 (Nat.leb_le start start)) by lia.
      rewrite (proj2 (Nat.ltb_lt start (start + S (length inds)))) by lia.
      reflexivity.
    + cbn [andb].
      destruct (Nat.leb_spec (S start) k) as [Hle | Hgt].
      * rewrite (proj2 (Nat.leb_le start k)) by lia.
        replace (k - start)%nat with (S (k - S start)) by lia. cbn [nth].
        destruct (Nat.ltb_spec k (S start + length inds)),
                 (Nat.ltb_spec k (start + S (length inds))); trivial; lia.
      * cbn [andb].
        destruct (Nat.leb_spec start k); [lia |]. reflexivity.
Qed.

(** An index lies in one bucket at most when no index occurs twice. *)
Lemma NoDup_app_disjoint {A : Type} (l1 l2 : list A) (a : A) :
  NoDup (l1 ++ l2) -> In a l1 -> ~ In a l2.
Proof.
  induction l1 as [| x l1 IH]; intros Hnd Hin; [contradiction |].
  inversion Hnd as [| ? ? Hx Hnd']; subst.
  destruct Hin as [-> | Hin]; [| now apply IH].
  intros Ha. apply Hx. apply in_or_app. now right.
Qed.

Lemma concat_bucket_unique (inds : list (list nat)) (i k k' : nat) :
  NoDup (concat inds) ->
  In i (nth k inds []) -> In i (nth k' inds []) -> k = k'.
Proof.
  revert k k'. induction inds as [| b inds IH]; intros k k' Hnd Hk Hk'.
  - destruct k; contradiction.
  - cbn [concat] in Hnd.
    assert (Hrest : forall m, In i (nth m inds []) -> In i (concat inds)).
    { intros m Hm. apply in_concat. exists (nth m inds []). split; [| exact Hm].
      destruct (Nat.lt_ge_cases m (length inds)) as [Hlt | Hge];
        [now apply nth_In | rewrite nth_overflow in Hm by assumption; contradiction]. }
    destruct k as [| k], k' as [| k']; cbn [nth] in Hk, Hk'; trivial.
    + exfalso. exact (NoDup_app_disjoint _ _ i Hnd Hk (Hrest k' Hk')).
    + exfalso. exact (NoDup_app_disjoint _ _ i Hnd Hk' (Hrest k Hk)).
    + f_equal. apply IH; trivial. exact (NoDup_app_remove_l _ _ Hnd).
Qed.

Lemma existsb_eqb_In (i : nat) (l : list nat) :
  existsb (Nat.eqb i) l = true <-> In i l.
Proof.
  rewrite existsb_exists. split.
  - intros (x & Hx & E). apply Nat.eqb_eq in E. now subst.
  - intros H. exists i. split; [exact H | apply Nat.eqb_refl].
Qed.

Section Quantize.

Variable argsort : array -> list nat.

(** [quantize_fast] on an array with an element, for an [argsort] that
    returns every index once: the buckets and the marks in [U]. *)
Lemma quantize_fast_spec (times : array) (dt : npfloat) :
  times <> [] -> Permutation (argsort times) (seq 0 (length times)) ->
  exists inds : list (list nat),
    quantize_buckets argsort times dt = Ok inds
    /\ quantize_fast argsort times dt
       = Ok (map (fun l => N_mean (map (get times) l)) inds,
             fold_left mark_bucket (combine (seq 0 (length inds)) inds)
               (N_zeros2 (length times) (length inds)))
    /\ (exists i0 rest, argsort times = i0 :: rest
          /\ buckets_inv times dt (i0 :: rest)
               (fold_left (bucket_step times dt) rest ([get times i0], [[i0]]))
          /\ inds = snd (fold_left (bucket_step times dt) rest ([get times i0], [[i0]])))
    /\ concat inds = argsort times
    /\ inds <> []
    /\ shape (length times) (length inds)
         (fold_left mark_bucket (combine (seq 0 (length inds)) inds)
            (N_zeros2 (length times) (length inds)))
    /\ forall i k, (i < length times)%nat -> (k < length inds)%nat ->
         mat_get (fold_left mark_bucket (combine (seq 0 (length inds)) inds)
                    (N_zeros2 (length times) (length inds))) i k
         = if existsb (Nat.eqb i) (nth k inds []) then Fin 1 else Fin 0.
Proof.
  intros Hne Hperm.
  destruct (argsort times) as [| i0 rest] eqn:Esort.
  { apply Permutation_nil in Hperm. destruct times; [contradiction | discriminate]. }
  pose proof (bucket_fold_inv times dt i0 rest) as Hinv.
  set (st := fold_left (bucket_step times dt) rest ([get times i0], [[i0]])) in *.
  exists (snd st).
  assert (Hq : quantize_buckets argsort times dt = Ok (snd st)).
  { unfold quantize_buckets. now rewrite Esort. }
  destruct Hinv as (Hcat & Hne' & Hall & Hrefs & Htest).
  assert (Hrange : Forall (Forall (fun x => (x < length times)%nat)) (snd st)).
  { rewrite Forall_forall. intros b Hb. rewrite Forall_forall. intros x Hx.
    assert (Hin : In x (i0 :: rest)).
    { rewrite <- Hcat. apply in_concat. now exists b. }
    apply (Permutation_in _ Hperm) in Hin. apply in_seq in Hin. lia. }
  destruct (mark_buckets_get (length times) (length (snd st)) (snd st) 0
              (N_zeros2 (length times) (length (snd st))) 0 0
              (shape_zeros _ _) ltac:(lia) Hrange) as [Hshape _].
  split; [exact Hq |]. split; [unfold quantize_fast; now rewrite Hq |].
  split; [exists i0, rest; repeat split; assumption |].
  split; [exact Hcat |]. split; [exact Hne' |]. split; [exact Hshape |].
  intros i k Hi Hk.
  destruct (mark_buckets_get (length times) (length (snd st)) (snd st) 0
              (N_zeros2 (length times) (length (snd st))) i k
              (shape_zeros _ _) ltac:(lia) Hrange) as [_ Hg].
  rewrite Hg. cbn [Nat.leb Nat.add andb]. rewrite Nat.sub_0_r.
  rewrite (proj2 (Nat.ltb_lt _ _) Hk). cbn [andb].
  now rewrite mat_get_zeros.
Qed.

End Quantize.

(** The rows of [U]: one entry 1 in each. *)
Lemma quantize_fast_rows (argsort : array -> list nat) (times : array)
    (dt : npfloat) :
  times <> [] -> Permutation (argsort times) (seq 0 (length times)) ->
  exists (t : array) (U : matrix),
    quantize_fast argsort times dt = Ok (t, U)
    /\ (1 <= length t <= length times)%nat
    /\ shape (length times) (length t) U
    /\ forall i, (i < length times)%nat ->
         exists k, (k < length t)%nat
           /\ forall c, (c < length t)%nat ->
                mat_get U i c = if Nat.eqb c k then Fin 1 else Fin 0.
Proof.
  intros Hne Hperm.
  destruct (quantize_fast_spec argsort times dt Hne Hperm)
    as (inds & _ & Hrun & (i0 & rest & _ & Hinv & ->) & Hcat & Hne' & Hshape & Hget).
  set (st := fold_left (bucket_step times dt) rest ([get times i0], [[i0]])) in *.
  destruct Hinv as (_ & _ & Hall & _).
  eexists. eexists. split; [exact Hrun |]. rewrite length_map.
  assert (Hnd : NoDup (concat (snd st))).
  { rewrite Hcat. apply (Permutation_NoDup (Permutation_sym Hperm)). apply seq_NoDup. }
  split; [| split; [exact Hshape |] ].
  - split; [destruct (snd st); [contradiction | simpl; lia] |].
    assert (Hlen : (length (snd st) <= length (concat (snd st)))%nat).
    { clear -Hall. induction Hall as [| b l Hb Hl IH]; [simpl; lia |].
      cbn [concat length]. rewrite length_app. destruct b; [contradiction | simpl; lia]. }
    rewrite Hcat, (Permutation_length Hperm), length_seq in Hlen. exact Hlen.
  - intros i Hi.
    assert (Hin : In i (concat (snd st))).
    { rewrite Hcat. apply (Permutation_in _ (Permutation_sym Hperm)).
      apply in_seq. lia. }
    apply in_concat in Hin. destruct Hin as (b & Hb & Hib).
    destruct (In_nth _ _ [] Hb) as (k & Hk & Hnth).
    exists k. split; [exact Hk |]. intros c Hc. rewrite Hget by assumption.
    destruct (Nat.eqb_spec c k) as [-> | Hck].
    + rewrite (proj2 (existsb_eqb_In i _)); [reflexivity | now rewrite Hnth].
    + destruct (existsb (Nat.eqb i) (nth c (snd st) [])) eqn:E; [| reflexivity].
      apply existsb_eqb_In in E. exfalso. apply Hck.
      apply (concat_bucket_unique (snd st) i c k Hnd E). now rewrite Hnth.
Qed.

(** X22.  For a non-empty array and an [argsort] that returns every
    index once, [quantize_fast] returns [t] with one entry per bucket
    and [U] with one row per time and one column per bucket; there is at
    least one bucket and no more buckets than times; and each row of
    [U] has exactly one entry 1, all others being 0: every time belongs
    to one bucket and to one only. *)
Theorem quantize_fast_partition (argsort : array -> list nat) (times : array)
    (dt : npfloat) :
  times <> [] -> Permutation (argsort times) (seq 0 (length times)) ->
  exists (t : array) (U : matrix),
    quantize_fast argsort times dt = Ok (t, U)
    /\ (1 <= length t <= length times)%nat
    /\ shape (length times) (length t) U
    /\ forall i, (i < length times)%nat ->
         exists k, (k < length t)%nat
           /\ forall c, (c < length t)%nat ->
                mat_get U i c = if Nat.eqb c k then Fin 1 else Fin 0.
Proof. exact (quantize_fast_rows argsort times dt). Qed.

Lemma quantize_fast_partition_witness :
  let times := toas psr_equator in
  exists (t : array) (U : matrix),
    quantize_fast index_order times (Fin 1) = Ok (t, U)
    /\ (1 <= length t <= 2)%nat
    /\ shape 2 (length t) U
    /\ forall i, (i < 2)%nat ->
         exists k, (k < length t)%nat
           /\ forall c, (c < length t)%nat ->
                mat_get U i c = if Nat.eqb c k then Fin 1 else Fin 0.
Proof.
  apply (quantize_fast_partition index_order (toas psr_equator) (Fin 1));
    [discriminate | apply Permutation_refl].
Defined.

(** ** add_jitter *)

(** The scalar product of finite values with a row of zeros, and with a
    row that has a single 1. *)
Lemma zero_row_dot (row d : array) (acc : R) :
  length row = length d -> Forall (fun v => v = Fin 0) row ->
  Forall (fun v => is_finite v = true) d ->
  fold_left np_add (arr_mul row d) (Fin acc) = Fin acc.
Proof.
  intros Hlen Hrow. revert d Hlen.
  induction Hrow as [| r row Hr Hrow IH]; intros [| x d] Hlen Hd; simpl in Hlen;
    try discriminate; [reflexivity |].
  inversion Hd as [| ? ? Hx Hd']; subst.
  destruct x as [x | | |]; try discriminate.
  cbn [arr_mul fold_left]. autorewrite with np.
  replace (acc + 0 * x)%R with acc by lra. apply IH; [lia | assumption].
Qed.

Lemma onehot_row_dot (row d : array) (k : nat) (acc : R) :
  length row = length d -> (k < length row)%nat ->
  (forall c, (c < length row)%nat -> get row c = if Nat.eqb c k then Fin 1 else Fin 0) ->
  Forall (fun v => is_finite v = true) d ->
  fold_left np_add (arr_mul row d) (Fin acc) = Fin (acc + to_R (get d k)).
Proof.
  revert d k acc. induction row as [| r row IH]; intros [| x d] k acc Hlen Hk Hrow Hd;
    simpl in Hlen, Hk; try discriminate; try lia.
  inversion Hd as [| ? ? Hx Hd']; subst.
  destruct x as [x | | |]; try discriminate.
  cbn [arr_mul fold_left].
  pose proof (Hrow 0%nat ltac:(simpl; lia)) as H0. unfold get in H0. cbn [nth] in H0.
  destruct k as [| k].
  - cbn [Nat.eqb] in H0. subst r. autorewrite with np.
    rewrite zero_row_dot; trivial; [unfold get; cbn [nth to_R]; f_equal; lra | lia |].
    rewrite Forall_forall. intros v Hv. destruct (In_nth _ _ NaN Hv) as (c & Hc & <-).
    exact (Hrow (S c) ltac:(simpl; lia)).
  - cbn [Nat.eqb] in H0. subst r. autorewrite with np.
    replace (acc + 0 * x)%R with acc by lra.
    rewrite (IH d k acc); trivial; [lia | lia |].
    intros c Hc. exact (Hrow (S c) ltac:(simpl; lia)).
Qed.

Lemma onehot_N_dot (row d : array) (k : nat) :
  length row = length d -> (k < length row)%nat ->
  (forall c, (c < length row)%nat -> get row c = if Nat.eqb c k then Fin 1 else Fin 0) ->
  Forall (fun v => is_finite v = true) d ->
  N_dot row d = get d k.
Proof.
  intros Hlen Hk Hrow Hd. unfold N_dot, N_sum.
  rewrite (onehot_row_dot row d k 0 Hlen Hk Hrow Hd).
  rewrite Forall_forall in Hd.
  assert (Hf : is_finite (get d k) = true) by (apply Hd; unfold get; apply nth_In; lia).
  destruct (get d k); try discriminate. cbn [to_R]. f_equal. lra.
Qed.



(** X24.  [quantize_fast] raises [IndexError] on an empty array of
    times (the first element of an empty [argsort] result), and so does
    [add_jitter] for a pulsar without epochs, before any random number
    is drawn. *)
Theorem add_jitter_no_epochs (rng_state : Type) (random_seed : Z -> rng_state)
    (standard_normal : rng_state -> npfloat * rng_state)
    (argsort : array -> list nat)
    (psr : pulsar) (equad coarsegrain dt : npfloat) (seed : option Z) (g : rng_state) :
  argsort [] = [] -> toas psr = [] ->
  quantize_fast argsort [] dt = Raise IndexError
  /\ add_jitter random_seed standard_normal argsort psr equad coarsegrain seed g
     = (Raise IndexError, reseed random_seed seed g).
Proof.
  intros Hsort Hempty.
  assert (Hq : forall d, quantize_fast argsort [] d = Raise IndexError).
  { intros d. unfold quantize_fast, quantize_buckets. now rewrite Hsort. }
  split; [apply Hq |]. unfold add_jitter. now rewrite Hempty, Hq.
Qed.

Lemma add_jitter_no_epochs_witness :
  quantize_fast index_order [] (Fin 1) = Raise IndexError
  /\ add_jitter counter_seed counter_normal index_order psr_unobserved (Fin 1e-6)
       (Fin 0.1) None 7%nat
     = (Raise IndexError, reseed counter_seed None 7%nat).
Proof.
  apply (add_jitter_no_epochs nat counter_seed counter_normal index_order
           psr_unobserved (Fin 1e-6) (Fin 0.1) (Fin 1) None 7%nat); reflexivity.
Defined.

(** ** quantize_fast: the width and the order of the buckets *)

Lemma StronglySorted_app_inv {A : Type} (R : A -> A -> Prop) (l1 l2 : list A) :
  StronglySorted R (l1 ++ l2) ->
  StronglySorted R l1 /\ StronglySorted R l2
  /\ forall x y, In x l1 -> In y l2 -> R x y.
Proof.
  induction l1 as [| a l1 IH]; intros H.
  - split; [constructor |]. split; [exact H |]. intros x y [].
  - cbn [app] in H. apply StronglySorted_inv in H. destruct H as [Hs Ha].
    destruct (IH Hs) as (H1 & H2 & H12). apply Forall_app in Ha.
    destruct Ha as [Ha1 Ha2]. split; [now constructor |]. split; [exact H2 |].
    intros x y [<- | Hx] Hy; [| now apply H12].
    rewrite Forall_forall in Ha2. now apply Ha2.
Qed.

(** In a sorted sequence cut into buckets every bucket is sorted, and
    the indices of a bucket precede those of every later bucket. *)
Lemma sorted_buckets {R : nat -> nat -> Prop} (inds : list (list nat)) :
  StronglySorted R (concat inds) ->
  (forall c, StronglySorted R (nth c inds []))
  /\ forall c c' i j, (c < c')%nat ->
       In i (nth c inds []) -> In j (nth c' inds []) -> R i j.
Proof.
  induction inds as [| b inds IH]; intros H.
  - split; [intros [| c]; constructor |]. intros [| c] c' i j _ [].
  - cbn [concat] in H. apply StronglySorted_app_inv in H.
    destruct H as (Hb & Hrest & Hcross). destruct (IH Hrest) as [IH1 IH2].
    split.
    + intros [| c]; [exact Hb | apply IH1].
    + intros c c' i j Hlt Hi Hj. destruct c' as [| c']; [lia |].
      cbn [nth] in Hj. destruct c as [| c]; cbn [nth] in Hi.
      * apply Hcross; [exact Hi |]. apply in_concat.
        exists (nth c' inds []). split; [| exact Hj].
        destruct (Nat.lt_ge_cases c' (length inds)) as [Hl | Hg];
          [now apply nth_In | rewrite nth_overflow in Hj by assumption; contradiction].
      * apply (IH2 c c'); [lia | assumption | assumption].
Qed.

(** X25.  For finite times and an [argsort] that returns every index
    once in an order that sorts the times, the buckets of
    [quantize_fast] are narrower than [dt] and follow one another in
    time: two different times of one bucket differ by less than [dt],
    and a time of a bucket is not above a time of a later bucket. *)
Theorem quantize_fast_bucket_width (argsort : array -> list nat) (times : array)
    (dt : R) :
  times <> [] -> Forall (fun v => is_finite v = true) times ->
  Permutation (argsort times) (seq 0 (length times)) ->
  StronglySorted (fun i j => (to_R (get times i) <= to_R (get times j))%R)
    (argsort times) ->
  exists (t : array) (U : matrix),
    quantize_fast argsort times (Fin dt) = Ok (t, U)
    /\ forall i j c c', (i < length times)%nat -> (j < length times)%nat ->
         (c < length t)%nat -> (c' < length t)%nat ->
         mat_get U i c = Fin 1 -> mat_get U j c' = Fin 1 ->
         (c = c' -> i <> j ->
          (Rabs (to_R (get times i) - to_R (get times j)) < dt)%R)
         /\ ((c < c')%nat -> (to_R (get times i) <= to_R (get times j))%R).
Proof.
  intros Hne Hfin Hperm Hsorted.
  destruct (quantize_fast_spec argsort times (Fin dt) Hne Hperm)
    as (inds & _ & Hrun & (i0 & rest & _ & Hinv & Einds) & Hcat & Hne' & _ & Hget).
  destruct Hinv as (_ & _ & Hall & _ & Htest).
  rewrite <- Einds in Hall, Htest.
  eexists. eexists. split; [exact Hrun |]. rewrite length_map.
  intros i j c c' Hi Hj Hc Hc' Ui Uj.
  assert (Hmem : forall x k, (x < length times)%nat -> (k < length inds)%nat ->
            mat_get (fold_left mark_bucket (combine (seq 0 (length inds)) inds)
                       (N_zeros2 (length times) (length inds))) x k = Fin 1 ->
            In x (nth k inds [])).
  { intros x k Hx Hk Hu. rewrite Hget in Hu by assumption.
    destruct (existsb (Nat.eqb x) (nth k inds [])) eqn:E.
    - now apply existsb_eqb_In.
    - exfalso. injection Hu as Hu. lra. }
  pose proof (Hmem i c Hi Hc Ui) as Ii. pose proof (Hmem j c' Hj Hc' Uj) as Ij.
  rewrite <- Hcat in Hsorted.
  destruct (sorted_buckets inds Hsorted) as [Hsb Hord].
  split; [| intros Hlt; now apply (Hord c c')].
  intros <- Hij.
  assert (Hb : In (nth c inds []) inds) by (now apply nth_In).
  rewrite Forall_forall in Hall, Htest.
  pose proof (Hall _ Hb) as Hbne. pose proof (Htest _ Hb) as Hbt.
  specialize (Hsb c).
  destruct (nth c inds []) as [| h bs]; [contradiction |].
  cbn [hd tl] in Hbt. apply StronglySorted_inv in Hsb. destruct Hsb as [_ Hh].
  rewrite Forall_forall in Hh.
  assert (Hrange : forall x, In x (h :: bs) -> (x < length times)%nat).
  { intros x Hx.
    assert (Hin : In x (concat inds)) by (apply in_concat; now exists (h :: bs)).
    rewrite Hcat in Hin. apply (Permutation_in _ Hperm) in Hin.
    apply in_seq in Hin. lia. }
  rewrite Forall_forall in Hfin.
  assert (Hval : forall x, In x (h :: bs) -> get times x = Fin (to_R (get times x))).
  { intros x Hx.
    assert (Hf : is_finite (get times x) = true).
    { apply Hfin. unfold get. apply nth_In. now apply Hrange. }
    now destruct (get times x). }
  assert (Htl : forall x, In x bs ->
            (0 <= to_R (get times x) - to_R (get times h) < dt)%R).
  { intros x Hx. pose proof (Hbt x Hx) as Ht.
    rewrite (Hval x (or_intror Hx)), (Hval h (or_introl eq_refl)) in Ht.
    rewrite np_sub_fin in Ht. apply np_ltb_fin in Ht.
    pose proof (Hh x Hx). lra. }
  destruct Ii as [<- | Ii], Ij as [<- | Ij].
  - now contradiction Hij.
  - pose proof (Htl j Ij). apply Rabs_def1; lra.
  - pose proof (Htl i Ii). apply Rabs_def1; lra.
  - pose proof (Htl i Ii). pose proof (Htl j Ij). apply Rabs_def1; lra.
Qed.

Lemma quantize_fast_bucket_width_witness :
  let times := toas psr_equator in
  exists (t : array) (U : matrix),
    quantize_fast index_order times (Fin 20) = Ok (t, U)
    /\ forall i j c c', (i < 2)%nat -> (j < 2)%nat ->
         (c < length t)%nat -> (c' < length t)%nat ->
         mat_get U i c = Fin 1 -> mat_get U j c' = Fin 1 ->
         (c = c' -> i <> j ->
          (Rabs (to_R (get times i) - to_R (get times j)) < 20)%R)
         /\ ((c < c')%nat -> (to_R (get times i) <= to_R (get times j))%R).
Proof.
  apply (quantize_fast_bucket_width index_order (toas psr_equator) 20);
    try reflexivity; try discriminate.
  - repeat constructor.
  - unfold index_order, psr_equator. cbn [toas length seq].
    repeat constructor. unfold get. cbn [nth to_R]. lra.
Defined.

(** ** quantize_fast: the greedy rule and the bucket means *)

Lemma bucket_gaps_snoc_same (times : array) (dt : npfloat) (init : list (list nat))
    (b b' : list nat) :
  hd 0%nat b' = hd 0%nat b ->
  bucket_gaps times dt (init ++ [b]) -> bucket_gaps times dt (init ++ [b']).
Proof.
  intros Hhd. induction init as [| a init IH]; intros H.
  - cbn. auto.
  - cbn [app bucket_gaps] in *. destruct H as [H1 H2]. split; [| now apply IH].
    destruct init as [| a' init]; cbn [app] in *; [now rewrite Hhd | exact H1].
Qed.

Lemma bucket_gaps_snoc_new (times : array) (dt : npfloat) (init : list (list nat))
    (b : list nat) (i : nat) :
  (get times i - get times (hd 0%nat b) <? dt) = false ->
  bucket_gaps times dt (init ++ [b]) -> bucket_gaps times dt ((init ++ [b]) ++ [[i]]).
Proof.
  intros Htest. induction init as [| a init IH]; intros H.
  - cbn. auto.
  - cbn [app bucket_gaps] in *. destruct H as [H1 H2]. split; [| now apply IH].
    destruct init as [| a' init]; cbn [app] in *; exact H1.
Qed.

Lemma bucket_fold_gaps (times : array) (dt : npfloat) (i0 : nat) (rest : list nat) :
  bucket_gaps times dt
    (snd (fold_left (bucket_step times dt) rest ([get times i0], [[i0]]))).
Proof.
  induction rest as [| i rest IH] using rev_ind; [cbn; auto |].
  rewrite fold_left_app. cbn [fold_left].
  pose proof (bucket_fold_inv times dt i0 rest) as Hinv.
  destruct (fold_left (bucket_step times dt) rest ([get times i0], [[i0]]))
    as [refs inds].
  destruct Hinv as (_ & Hne & Hall & Hrefs & _). cbn [fst snd] in *.
  destruct (exists_last Hne) as (init & b & ->).
  apply Forall_app in Hall. destruct Hall as [_ Hb].
  inversion Hb as [| ? ? Hbne _]; subst.
  unfold bucket_step.
  rewrite (last_map_nonempty (fun b => get times (hd 0%nat b)) init b []).
  rewrite last_last, removelast_last.
  destruct (get times i - get times (hd 0%nat b) <? dt) eqn:E; cbn [snd].
  - apply (bucket_gaps_snoc_same times dt init b); [now apply hd_snoc | exact IH].
  - now apply bucket_gaps_snoc_new.
Qed.

Lemma bucket_gaps_at (times : array) (dt : npfloat) (inds : list (list nat)) (c : nat) :
  bucket_gaps times dt inds -> (S c < length inds)%nat ->
  (get times (hd 0%nat (nth (S c) inds [])) - get times (hd 0%nat (nth c inds [])) <? dt)
  = false.
Proof.
  revert c. induction inds as [| b1 inds IH]; intros c H Hc; [simpl in Hc; lia |].
  cbn [bucket_gaps] in H. destruct H as [H1 H2].
  destruct c as [| c].
  - destruct inds as [| b2 inds]; [simpl in Hc; lia | exact H1].
  - cbn [nth]. apply IH; [exact H2 | simpl in Hc; lia].
Qed.

(** The sum of values that lie in an interval. *)
Lemma fold_add_bounds (l : list R) (acc lo hi : R) :
  Forall (fun x => (lo <= x < hi)%R) l ->
  exists s : R,
    fold_left np_add (map Fin l) (Fin acc) = Fin s
    /\ (acc + INR (length l) * lo <= s)%R
    /\ (l <> [] -> (s < acc + INR (length l) * hi)%R)
    /\ (s <= acc + INR (length l) * hi)%R.
Proof.
  intros H. revert acc. induction H as [| x l Hx Hl IH]; intros acc.
  - exists acc. cbn [map fold_left length INR]. repeat split; try lra.
    intros Hn. now contradiction Hn.
  - cbn [map fold_left]. rewrite np_add_fin.
    destruct (IH (acc + x)%R) as (s & Hs & H1 & H2 & H3).
    exists s. split; [exact Hs |]. cbn [length]. rewrite S_INR.
    assert (Hl0 : (0 <= INR (length l))%R) by apply pos_INR.
    repeat split; try intros _; nra.
Qed.

(** X26.  The buckets of [quantize_fast], for finite times, a finite
    [dt > 0] and an [argsort] that returns every index once in an order
    that sorts the times: laid end to end they are the sorted indices;
    a bucket is closed as soon as the test of line 169 fails, so for the
    first index of every later bucket the difference the code computes
    between its time and the first time of the bucket before is not
    below [dt] (a difference of exactly [dt] opens a new bucket);
    column [c] of [U] marks the indices of bucket [c]; and [t[c]], the
    mean of the bucket, lies less than [dt] above its first time. *)
Theorem quantize_fast_greedy (argsort : array -> list nat) (times : array) (dt : R) :
  times <> [] -> Forall (fun v => is_finite v = true) times -> (0 < dt)%R ->
  Permutation (argsort times) (seq 0 (length times)) ->
  StronglySorted (fun i j => (to_R (get times i) <= to_R (get times j))%R)
    (argsort times) ->
  exists (inds : list (list nat)) (t : array) (U : matrix),
    quantize_buckets argsort times (Fin dt) = Ok inds
    /\ quantize_fast argsort times (Fin dt) = Ok (t, U)
    /\ concat inds = argsort times
    /\ length t = length inds
    /\ (forall i c, (i < length times)%nat -> (c < length inds)%nat ->
          (mat_get U i c = Fin 1 <-> In i (nth c inds [])))
    /\ (forall c, (S c < length inds)%nat ->
          (get times (hd 0%nat (nth (S c) inds []))
           - get times (hd 0%nat (nth c inds [])) <? Fin dt) = false)
    /\ forall c, (c < length inds)%nat ->
         get t c = N_mean (map (get times) (nth c inds []))
         /\ exists m : R, get t c = Fin m
              /\ (0 <= m - to_R (get times (hd 0%nat (nth c inds []))) < dt)%R.
Proof.
  intros Hne Hfin Hdt Hperm Hsorted.
  destruct (quantize_fast_spec argsort times (Fin dt) Hne Hperm)
    as (inds & Hq & Hrun & (i0 & rest & _ & Hinv & Einds) & Hcat & Hne' & _ & Hget).
  pose proof (bucket_fold_gaps times (Fin dt) i0 rest) as Hgaps.
  destruct Hinv as (_ & _ & Hall & _ & Htest).
  rewrite <- Einds in Hall, Htest, Hgaps.
  exists inds. eexists. eexists. split; [exact Hq |]. split; [exact Hrun |].
  split; [exact Hcat |]. split; [apply length_map |].
  rewrite Forall_forall in Hfin, Hall, Htest.
  assert (Hrange : forall c x, (c < length inds)%nat -> In x (nth c inds []) ->
            (x < length times)%nat).
  { intros c x Hc Hx.
    assert (Hin : In x (concat inds)).
    { apply in_concat. exists (nth c inds []). split; [now apply nth_In | exact Hx]. }
    rewrite Hcat in Hin. apply (Permutation_in _ Hperm) in Hin.
    apply in_seq in Hin. lia. }
  assert (Hval : forall x, (x < length times)%nat ->
            get times x = Fin (to_R (get times x))).
  { intros x Hx.
    assert (Hf : is_finite (get times x) = true) by (apply Hfin; unfold get; now apply nth_In).
    now destruct (get times x). }
  assert (Hhd : forall c, (c < length inds)%nat -> In (hd 0%nat (nth c inds [])) (nth c inds [])).
  { intros c Hc. pose proof (Hall _ (nth_In _ [] Hc)) as Hb.
    destruct (nth c inds []); [contradiction | now left]. }
  rewrite <- Hcat in Hsorted.
  destruct (sorted_buckets inds Hsorted) as [Hsb _].
  split; [| split].
  - intros i c Hi Hc. rewrite Hget by assumption.
    destruct (existsb (Nat.eqb i) (nth c inds [])) eqn:E.
    + split; [intros _; now apply existsb_eqb_In | reflexivity].
    + split; [intros Hu; injection Hu as Hu; lra |].
      intros Hin. apply existsb_eqb_In in Hin. congruence.
  - intros c Hc. exact (bucket_gaps_at times (Fin dt) inds c Hgaps Hc).
  - intros c Hc.
    assert (Hmean : get (map (fun l => N_mean (map (get times) l)) inds) c
                    = N_mean (map (get times) (nth c inds []))).
    { unfold get. rewrite (nth_indep _ NaN (N_mean (map (get times) [])))
        by (now rewrite length_map).
      now rewrite (map_nth (fun l => N_mean (map (get times) l))). }
    split; [exact Hmean |]. rewrite Hmean.
    pose proof (Hall _ (nth_In _ [] Hc)) as Hbne.
    pose proof (Htest _ (nth_In _ [] Hc)) as Hbt.
    pose proof (Hrange c) as Hr. specialize (Hsb c). specialize (Hhd c Hc).
    destruct (nth c inds []) as [| h bs]; [contradiction |].
    cbn [hd tl] in *. apply StronglySorted_inv in Hsb. destruct Hsb as [_ Hh].
    rewrite Forall_forall in Hh.
    set (lo := to_R (get times h)).
    assert (Hin : Forall (fun x => (lo <= x < lo + dt)%R)
                    (map (fun x => to_R (get times x)) (h :: bs))).
    { rewrite Forall_forall. intros v Hv. apply in_map_iff in Hv.
      destruct Hv as (x & <- & [<- | Hx]); [unfold lo; lra |].
      pose proof (Hbt x Hx) as Ht.
      rewrite (Hval x), (Hval h) in Ht by (apply Hr; trivial; now right).
      rewrite np_sub_fin in Ht. apply np_ltb_fin in Ht.
      pose proof (Hh x Hx). unfold lo. lra. }
    destruct (fold_add_bounds _ 0 lo (lo + dt) Hin) as (s & Hs & H1 & H2 & _).
    assert (Hmap : map (get times) (h :: bs)
                   = map Fin (map (fun x => to_R (get times x)) (h :: bs))).
    { rewrite map_map. apply map_ext_in. intros x Hx. apply Hval. now apply Hr. }
    unfold N_mean, N_sum. rewrite Hmap, Hs. rewrite !length_map.
    assert (Hn : (0 < INR (length (h :: bs)))%R) by (apply lt_0_INR; simpl; lia).
    rewrite np_div_nonzero by lra.
    eexists. split; [reflexivity |].
    rewrite length_map in H1, H2. specialize (H2 ltac:(discriminate)).
    set (n := INR (length (h :: bs))) in *.
    assert (Hs' : (s / n * n = s)%R) by (field; lra).
    split.
    + apply (Rmult_le_reg_r n); [exact Hn |]. nra.
    + apply (Rmult_lt_reg_r n); [exact Hn |]. nra.
Qed.

Lemma quantize_fast_greedy_witness :
  let times := toas psr_equator in
  exists (inds : list (list nat)) (t : array) (U : matrix),
    quantize_buckets index_order times (Fin 20) = Ok inds
    /\ quantize_fast index_order times (Fin 20) = Ok (t, U)
    /\ concat inds = index_order times
    /\ length t = length inds
    /\ (forall i c, (i < length times)%nat -> (c < length inds)%nat ->
          (mat_get U i c = Fin 1 <-> In i (nth c inds [])))
    /\ (forall c, (S c < length inds)%nat ->
          (get times (hd 0%nat (nth (S c) inds []))
           - get times (hd 0%nat (nth c inds [])) <? Fin 20) = false)
    /\ forall c, (c < length inds)%nat ->
         get t c = N_mean (map (get times) (nth c inds []))
         /\ exists m : R, get t c = Fin m
              /\ (0 <= m - to_R (get times (hd 0%nat (nth c inds []))) < 20)%R.
Proof.
  apply (quantize_fast_greedy index_order (toas psr_equator) 20);
    try reflexivity; try discriminate; try lra.
  - repeat constructor.
  - unfold index_order, psr_equator. cbn [toas length seq].
    repeat constructor. unfold get. cbn [nth to_R]. lra.
Defined.

(** ** quantize *)

Lemma col_of_S (counts : list nat) (b : nat) :
  (b < length counts)%nat ->
  col_of counts (S b)
  = (col_of counts b + if Nat.ltb 0 (nth b counts 0%nat) then 1 else 0)%nat.
Proof.
  unfold col_of. revert counts. induction b as [| b IH]; intros [| c cs] Hb;
    simpl in Hb; try lia.
  - cbn [firstn filter nth length]. now destruct (Nat.ltb 0 c).
  - specialize (IH cs ltac:(lia)).
    change (firstn (S (S b)) (c :: cs)) with (c :: firstn (S b) cs).
    change (firstn (S b) (c :: cs)) with (c :: firstn b cs).
    cbn [filter nth]. destruct (Nat.ltb 0 c); cbn [length]; rewrite IH; lia.
Qed.

Lemma col_of_mono (counts : list nat) (b b' : nat) :
  (b <= b')%nat -> (col_of counts b <= col_of counts b')%nat.
Proof.
  intros Hb. unfold col_of.
  replace (firstn b counts) with (firstn b (firstn b' counts))
    by (rewrite firstn_firstn; f_equal; lia).
  rewrite <- (firstn_skipn b (firstn b' counts)) at 2.
  rewrite filter_app, length_app. lia.
Qed.

Lemma col_of_all (counts : list nat) (b : nat) :
  (length counts <= b)%nat -> col_of counts b = length (filter (Nat.ltb 0) counts).
Proof. intros Hb. unfold col_of. now rewrite firstn_all2. Qed.

Lemma col_of_strict (counts : list nat) (b b' : nat) :
  (b < b')%nat -> (b < length counts)%nat -> (0 < nth b counts 0)%nat ->
  (col_of counts b < col_of counts b')%nat.
Proof.
  intros Hlt Hb Hpos. pose proof (col_of_S counts b Hb) as HS.
  rewrite (proj2 (Nat.ltb_lt _ _) Hpos) in HS.
  pose proof (col_of_mono counts (S b) b' ltac:(lia)). lia.
Qed.

Lemma col_of_lt (counts : list nat) (b : nat) :
  (b < length counts)%nat -> (0 < nth b counts 0)%nat ->
  (col_of counts b < length (filter (Nat.ltb 0) counts))%nat.
Proof.
  intros Hb Hpos. rewrite <- (col_of_all counts (length counts)) by lia.
  now apply col_of_strict.
Qed.

(** [enumerate]. *)
Lemma combine_seq_map {A : Type} (l : list A) (d : A) (s : nat) :
  combine (seq s (length l)) l
  = map (fun i => (i, nth (i - s) l d)) (seq s (length l)).
Proof.
  revert s. induction l as [| a l IH]; intros s; [reflexivity |].
  cbn [length seq combine map]. rewrite Nat.sub_diag. cbn [nth]. f_equal.
  rewrite IH. apply map_ext_in. intros i Hi. apply in_seq in Hi.
  replace (i - s)%nat with (S (i - S s)) by lia. reflexivity.
Qed.

Lemma nth_bincount (x : list nat) (m b : nat) :
  (b < length (N_bincount x m))%nat ->
  nth b (N_bincount x m) 0%nat = count_occ Nat.eq_dec x b.
Proof.
  unfold N_bincount. rewrite length_map, length_seq. intros Hb.
  rewrite (nth_indep _ 0%nat (count_occ Nat.eq_dec x 0%nat))
    by (now rewrite length_map, length_seq).
  rewrite map_nth. now rewrite seq_nth.
Qed.

(** A bin holds an index exactly when its count is positive. *)
Lemma bincount_occupied (x : list nat) (m b : nat) :
  In b x <->
  (b < length (N_bincount x m))%nat /\ (0 < nth b (N_bincount x m) 0)%nat.
Proof.
  split.
  - intros Hin.
    assert (Hb : (b < length (N_bincount x m))%nat).
    { unfold N_bincount. rewrite length_map, length_seq.
      assert (Hle : (b <= list_max x)%nat).
      { pose proof (proj1 (list_max_le x (list_max x)) (Nat.le_refl _)) as Hall.
        rewrite Forall_forall in Hall. now apply Hall. }
      destruct x; [contradiction | lia]. }
    split; [exact Hb |]. rewrite nth_bincount by exact Hb.
    now apply count_occ_In.
  - intros [Hb Hpos]. rewrite nth_bincount in Hpos by exact Hb.
    now apply (count_occ_In Nat.eq_dec).
Qed.

Lemma length_filter_map {A B : Type} (f : B -> bool) (g : A -> B) (l : list A) :
  length (filter f (map g l)) = length (filter (fun a => f (g a)) l).
Proof.
  induction l as [| a l IH]; [reflexivity |]. cbn [map filter].
  destruct (f (g a)); cbn [length]; now rewrite IH.
Qed.

(** There are as many bins that are not empty as there are different
    bin numbers. *)
Lemma bincount_distinct (x : list nat) (m : nat) :
  length (filter (Nat.ltb 0) (N_bincount x m)) = length (nodup Nat.eq_dec x).
Proof.
  pose proof (bincount_occupied x m) as Hocc.
  assert (Hnth : forall b, (b < length (N_bincount x m))%nat ->
            nth b (N_bincount x m) 0%nat = count_occ Nat.eq_dec x b)
    by (intros b; apply nth_bincount).
  unfold N_bincount at 1. cbv zeta. rewrite length_filter_map.
  apply Permutation_length. apply NoDup_Permutation.
  - apply NoDup_filter, seq_NoDup.
  - apply NoDup_nodup.
  - intros b. rewrite filter_In, nodup_In, in_seq, Nat.ltb_lt. split.
    + intros [_ Hpos]. now apply (count_occ_In Nat.eq_dec).
    + intros Hin. pose proof (proj1 (Hocc b) Hin) as [Hb Hpos].
      rewrite Hnth in Hpos by exact Hb. split; [| exact Hpos].
      unfold N_bincount in Hb. rewrite length_map, length_seq in Hb. lia.
Qed.

(** [U[mask, j] = 1], row by row. *)
Lemma nth_mask_rows (j : nat) (U : matrix) (mask : list bool) (i : nat) :
  length U = length mask -> (i < length U)%nat ->
  nth i (map (fun '(row, m) => if m : bool then list_set j (Fin 1) row else row)
           (combine U mask)) []
  = if nth i mask false then list_set j (Fin 1) (nth i U []) else nth i U [].
Proof.
  revert mask i. induction U as [| r U IH]; intros [| m mask] i Hl Hi; simpl in *;
    try discriminate; try lia.
  destruct i as [| i]; [reflexivity |].
  exact (IH mask i ltac:(lia) ltac:(lia)).
Qed.

Section Binning.

Variable times : array.
Variable indices : list nat.
Variable counts : list nat.

Hypothesis Hlen : length indices = length times.
Hypothesis Hocc : forall b, In b indices ->
  (b < length counts)%nat /\ (0 < nth b counts 0)%nat.

(** The loop over [enumerate(counts)] after [n] bins. *)
Lemma quantize_loop (n : nat) :
  (n <= length counts)%nat ->
  let smalln := length (filter (Nat.ltb 0) counts) in
  exists (t : array) (U : matrix),
    fold_left (quantize_step times indices)
      (map (fun i => (i, nth i counts 0%nat)) (seq 0 n))
      (Ok (N_zeros smalln, N_zeros2 (length times) smalln, 0%nat))
    = Ok (t, U, col_of counts n)
    /\ length t = smalln
    /\ shape (length times) smalln U
    /\ (forall i c, (i < length times)%nat -> (c < smalln)%nat ->
          mat_get U i c
          = if Nat.ltb (nth i indices 0%nat) n
               && Nat.eqb c (col_of counts (nth i indices 0%nat))
            then Fin 1 else Fin 0)
    /\ (forall b, (b < n)%nat -> (0 < nth b counts 0)%nat ->
          get t (col_of counts b)
          = N_mean (select (map (Nat.eqb b) indices) times)).
Proof.
  intros Hn smalln. induction n as [| n IH].
  - exists (N_zeros smalln), (N_zeros2 (length times) smalln).
    split; [reflexivity |]. split; [apply repeat_length |]. split; [| split].
    + split; [apply repeat_length |]. unfold N_zeros2. rewrite Forall_forall.
      intros row Hrow. apply repeat_spec in Hrow. subst row. apply repeat_length.
    + intros i c Hi Hc. now rewrite mat_get_zeros.
    + intros b Hb. lia.
  - destruct (IH ltac:(lia)) as (t & U & Hrun & Ht & [HUr HUc] & HU & Hmean).
    rewrite seq_S, map_app, fold_left_app, Hrun. cbn [map fold_left Nat.add].
    unfold quantize_step at 1. cbn [bind].
    rewrite (col_of_S counts n) by lia.
    destruct (Nat.ltb 0 (nth n counts 0%nat)) eqn:Epos.
    + apply Nat.ltb_lt in Epos.
      pose proof (col_of_lt counts n ltac:(lia) Epos) as Hj. fold smalln in Hj.
      rewrite length_map, Hlen, Nat.eqb_refl, Ht.
      rewrite (proj2 (Nat.ltb_lt _ _) Hj). cbn [andb].
      eexists. eexists. split; [f_equal; f_equal; lia |].
      split; [now rewrite length_list_set |]. split; [split |]; [| | split].
      * rewrite length_map, length_combine, length_map. lia.
      * rewrite Forall_forall in *. intros row Hrow. apply in_map_iff in Hrow.
        destruct Hrow as ([row0 m] & <- & Hin). apply in_combine_l in Hin.
        destruct m; [rewrite length_list_set |]; now apply HUc.
      * intros i c Hi Hc. unfold mat_get.
        rewrite nth_mask_rows by (rewrite ?length_map; unfold array, matrix in *; lia).
        rewrite (nth_indep _ false (Nat.eqb n 0)) by (rewrite length_map; lia).
        rewrite (map_nth (Nat.eqb n)).
        specialize (HU i c Hi Hc). unfold mat_get in HU.
        destruct (Nat.eqb_spec n (nth i indices 0%nat)) as [E | E].
        -- rewrite get_list_set.
           2:{ rewrite Forall_forall in HUc. rewrite (HUc (nth i U [])); [exact Hj |].
               apply nth_In. unfold array, matrix in *. lia. }
           rewrite <- E. rewrite (proj2 (Nat.ltb_lt n (S n))) by lia. cbn [andb].
           destruct (Nat.eqb c (col_of counts n)) eqn:Ec; [reflexivity |].
           rewrite HU, <- E, Nat.ltb_irrefl. reflexivity.
        -- rewrite HU. 
           destruct (Nat.ltb_spec (nth i indices 0%nat) n) as [Hl | Hl];
             destruct (Nat.ltb_spec (nth i indices 0%nat) (S n)) as [Hl' | Hl'];
             try reflexivity; lia.
      * intros b Hb Hbpos. destruct (Nat.eq_dec b n) as [-> | Hne].
        -- rewrite get_list_set by lia. now rewrite Nat.eqb_refl.
        -- rewrite get_list_set by lia.
           pose proof (col_of_strict counts b n ltac:(lia) ltac:(lia) Hbpos) as Hs.
           destruct (Nat.eqb_spec (col_of counts b) (col_of counts n)); [lia |].
           apply Hmean; [lia | exact Hbpos].
    + apply Nat.ltb_ge in Epos.
      exists t, U. split; [f_equal; f_equal; lia |]. split; [exact Ht |].
      split; [now split |]. split.
      * intros i c Hi Hc. rewrite HU by assumption.
        assert (Hin : In (nth i indices 0%nat) indices) by (apply nth_In; lia).
        destruct (Hocc _ Hin) as [_ Hp].
        destruct (Nat.ltb_spec (nth i indices 0%nat) n) as [Hl | Hl];
          destruct (Nat.ltb_spec (nth i indices 0%nat) (S n)) as [Hl' | Hl'];
          try reflexivity; try lia.
        assert (nth i indices 0%nat = n) by lia. subst n. lia.
      * intros b Hb Hbpos. apply Hmean; [| exact Hbpos].
        destruct (Nat.eq_dec b n) as [-> | Hne]; lia.
Qed.

End Binning.

Lemma combine_enumerate (l : list nat) :
  combine (seq 0 (length l)) l = map (fun i => (i, nth i l 0%nat)) (seq 0 (length l)).
Proof.
  rewrite (combine_seq_map l 0%nat 0). apply map_ext. intros i.
  now rewrite Nat.sub_0_r.
Qed.

(** X27.  When [N.arange] and [N.digitize] return, with one bin number
    per time, [quantize] returns [t] with one entry per bin number that
    occurs and a [len(times)] by [len(t)] matrix [U] of which every row
    holds a single 1, zeros elsewhere.  The 1 of a row is in the column
    of the bin of its time, the columns follow the order of the bin
    numbers (so two times share a column exactly when they share a
    bin), and the entry of [t] for that column is the mean of the times
    of the bin. *)
Theorem quantize_partition (arange : npfloat -> npfloat -> npfloat -> result array)
    (digitize : array -> array -> result (list nat))
    (times : array) (dt mn mx : npfloat) (bins : array) (indices : list nat) :
  arr_min times = Ok mn -> arr_max times = Ok mx ->
  arange mn (mx + dt) dt = Ok bins -> digitize times bins = Ok indices ->
  length indices = length times ->
  let counts := N_bincount indices (length bins + 1) in
  let col := fun i => col_of counts (nth i indices 0%nat) in
  exists (t : array) (U : matrix),
    quantize arange digitize times dt = Ok (t, U)
    /\ length t = length (nodup Nat.eq_dec indices)
    /\ shape (length times) (length t) U
    /\ forall i, (i < length times)%nat ->
         (col i < length t)%nat
         /\ (forall c, (c < length t)%nat ->
               mat_get U i c = if Nat.eqb c (col i) then Fin 1 else Fin 0)
         /\ get t (col i)
            = N_mean (select (map (Nat.eqb (nth i indices 0%nat)) indices) times)
         /\ forall i', (i' < length times)%nat ->
              (nth i indices 0 < nth i' indices 0)%nat -> (col i < col i')%nat.
Proof.
  intros Hmn Hmx Hbins Hdig Hlen counts col.
  assert (Hocc : forall b, In b indices ->
            (b < length counts)%nat /\ (0 < nth b counts 0)%nat)
    by (intros b; apply bincount_occupied).
  destruct (quantize_loop times indices counts Hlen Hocc (length counts) (Nat.le_refl _))
    as (t & U & Hrun & Ht & HU & Hget & Hmean).
  exists t, U. unfold quantize. rewrite Hmn, Hmx. cbn [bind]. rewrite Hbins. cbn [bind].
  rewrite Hdig. cbn [bind]. fold counts. rewrite combine_enumerate, Hrun. cbn [bind fst snd].
  split; [reflexivity |].
  assert (Hsmall : length t = length (nodup Nat.eq_dec indices))
    by (rewrite Ht; apply bincount_distinct).
  split; [exact Hsmall |]. rewrite Ht. split; [exact HU |].
  intros i Hi.
  assert (Hin : In (nth i indices 0%nat) indices) by (apply nth_In; lia).
  destruct (Hocc _ Hin) as [Hb Hpos].
  split; [now apply col_of_lt |]. split; [| split].
  - intros c Hc. rewrite Hget by assumption.
    now rewrite (proj2 (Nat.ltb_lt _ _) Hb).
  - now apply Hmean.
  - intros i' _ Hlt. now apply col_of_strict.
Qed.

Lemma quantize_partition_witness :
  let times := toas psr_equator in
  let indices := [1; 1]%nat in
  let counts := N_bincount indices 3 in
  let col := fun i => col_of counts (nth i indices 0%nat) in
  exists (t : array) (U : matrix),
    quantize arange_two digitize_inner times (Fin 20) = Ok (t, U)
    /\ length t = length (nodup Nat.eq_dec indices)
    /\ shape (length times) (length t) U
    /\ forall i, (i < length times)%nat ->
         (col i < length t)%nat
         /\ (forall c, (c < length t)%nat ->
               mat_get U i c = if Nat.eqb c (col i) then Fin 1 else Fin 0)
         /\ get t (col i)
            = N_mean (select (map (Nat.eqb (nth i indices 0%nat)) indices) times)
         /\ forall i', (i' < length times)%nat ->
              (nth i indices 0 < nth i' indices 0)%nat -> (col i < col i')%nat.
Proof.
  exact (quantize_partition arange_two digitize_inner (toas psr_equator) (Fin 20)
           _ _ _ _ eq_refl eq_refl eq_refl eq_refl eq_refl).
Defined.
